(** * The dial scheduler of p2p/dial.go, embedded in Rocq

    First the program: the candidate pool ([dialQueue], a binary heap
    driven by Go's [container/heap]), the scheduler with its admission and
    capacity functions, and the dial task with its resolution backoff.
    Then the notions the properties are stated with, and the properties. *)

From Stdlib Require Import ZArith NArith Lia ZifyNat String.
From stdpp Require Import base option list sorting gmap.

Local Open Scope Z_scope.

(** ** Outcomes of running Go code

    A Go call returns a value or panics. Loops are run with fuel; the third
    constructor is the model running out of it, never a behaviour of the
    program. *)

Inductive outcome (A : Type) : Type :=
  | Ok (a : A)
  | Panic (msg : string)
  | OutOfFuel.
Arguments Ok {A} a.
Arguments Panic {A} msg.
Arguments OutOfFuel {A}.

#[export] Instance outcome_bind : MBind outcome := λ A B f m,
  match m with
  | Ok a => f a
  | Panic msg => Panic msg
  | OutOfFuel => OutOfFuel
  end.

(** Indexing a slice: out of range is a run-time panic. *)
Definition at_index {A} (t : list A) (i : nat) : outcome A :=
  match t !! i with
  | Some a => Ok a
  | None => Panic "index out of range"
  end.

(** ** Machine integers and time

    Go's [int], [int64] and [time.Duration] are 64-bit two's complement. *)

Definition wrap64 (z : Z) : Z := (z + 2 ^ 63) mod 2 ^ 64 - 2 ^ 63.

Definition Duration := Z.          (* time.Duration, nanoseconds *)
Definition AbsTime := Z.           (* mclock.AbsTime, nanoseconds *)
Definition Time := Z.              (* time.Time, by its monotonic reading *)

Definition Second : Duration := 1000000000.
Definition Hour : Duration := 3600 * Second.

Definition Before (t u : Time) : bool := bool_decide (t < u).
Definition Time_Add (t : Time) (d : Duration) : Time := t + d.

(** ** Nodes

    [*enode.Node]: the pointer is the identity the candidate pool keys on,
    the record behind it is immutable. [Node_IP = None] is the nil IP. *)

Definition ID := N.
Definition IP := list N.

Record Node : Type := mkNode {
  nodePtr : N;
  Node_ID : ID;
  Node_IP : option IP;
  Node_TCP : Z;
}.

(** ** The candidate pool: [dialTask2], [dialQueueImpl], [dialQueue] *)

Definition staticPriority : N := 5.
Definition normalPriority : N := 10.

Record dialTask2 : Type := mkDialTask2 {
  index : Z;
  addr : Node;
  insertTime : Time;
  isStatic : bool;
  priority : N;
}.

Definition setIndex (i : Z) (a : dialTask2) : dialTask2 :=
  {| index := i; addr := addr a; insertTime := insertTime a;
     isStatic := isStatic a; priority := priority a |}.

Abbreviation dialQueueImpl := (list dialTask2).

(** The comparison of [Less], on two entries. *)
Definition lessTask (a b : dialTask2) : bool :=
  if decide (priority a = priority b)
  then Before (insertTime a) (insertTime b)
  else bool_decide (priority a < priority b)%N.

Definition Less (t : dialQueueImpl) (i j : nat) : outcome bool :=
  a ← at_index t i;
  b ← at_index t j;
  Ok (lessTask a b).

Definition Swap (t : dialQueueImpl) (i j : nat) : outcome dialQueueImpl :=
  a ← at_index t i;
  b ← at_index t j;
  let t1 := <[j := a]> (<[i := b]> t) in
  x ← at_index t1 i;
  let t2 := <[i := setIndex (Z.of_nat i) x]> t1 in
  y ← at_index t2 j;
  Ok (<[j := setIndex (Z.of_nat j) y]> t2).

Definition Push (t : dialQueueImpl) (x : dialTask2) : dialQueueImpl :=
  let n := length t in
  t ++ [setIndex (Z.of_nat n) x].

Definition Pop (t : dialQueueImpl) : outcome (dialTask2 * dialQueueImpl) :=
  let n := length t in
  item ← at_index t (n - 1);
  Ok (setIndex (-1) item, take (n - 1) t).

(** ** [container/heap], as used by the pool

    [up] and [down] are the loops of the standard library. Indices are
    naturals: at [j = 0] Go computes [(0 - 1) / 2 = 0] by truncation, which
    is also what the truncated subtraction gives here. [up] moves at most
    [j] times and [down] at most [n] times; the fuel covers that. *)

Fixpoint up_loop (fuel : nat) (h : dialQueueImpl) (j : nat) : outcome dialQueueImpl :=
  match fuel with
  | O => OutOfFuel
  | S fuel' =>
      let i := ((j - 1) / 2)%nat in
      if decide (i = j) then Ok h
      else
        lt ← Less h j i;
        if negb (lt : bool) then Ok h
        else
          h' ← Swap h i j;
          up_loop fuel' h' i
  end.

Definition up (h : dialQueueImpl) (j : nat) : outcome dialQueueImpl :=
  up_loop (S j) h j.

Fixpoint down_loop (fuel : nat) (h : dialQueueImpl) (i n : nat) : outcome dialQueueImpl :=
  match fuel with
  | O => OutOfFuel
  | S fuel' =>
      let j1 := (2 * i + 1)%nat in
      if decide (n ≤ j1)%nat then Ok h
      else
        let j2 := (j1 + 1)%nat in
        lt21 ← (if decide (j2 < n)%nat then Less h j2 j1 else Ok false);
        let j := if (lt21 : bool) then j2 else j1 in
        lt ← Less h j i;
        if negb (lt : bool) then Ok h
        else
          h' ← Swap h i j;
          down_loop fuel' h' j n
  end.

Definition down (h : dialQueueImpl) (i0 n : nat) : outcome dialQueueImpl :=
  down_loop (S n) h i0 n.

Definition heap_Push (h : dialQueueImpl) (x : dialTask2) : outcome dialQueueImpl :=
  let h' := Push h x in
  up h' (length h' - 1).

(** On the empty heap Go computes [n = -1] and [Swap] panics; here [n] is
    0 and [Swap] panics as well. *)
Definition heap_Pop (h : dialQueueImpl) : outcome (dialTask2 * dialQueueImpl) :=
  let n := (length h - 1)%nat in
  h1 ← Swap h 0 n;
  h2 ← down h1 0 n;
  Pop h2.

(** The pool proper. Every method holds [lock] for its whole body, so each
    is one atomic step. [items] is only ever asked whether a node pointer
    is a key and how many keys there are; it is kept as its key set. *)

Record dialQueue : Type := mkDialQueue {
  heap : dialQueueImpl;
  items : gset N;
}.

Definition newDialQueue : dialQueue :=
  {| heap := []; items := ∅ |}.

Definition popImpl (d : dialQueue) : outcome (option dialTask2 * dialQueue) :=
  if decide (length (heap d) ≠ 0)%nat then
    '(item, h') ← heap_Pop (heap d);
    Ok (Some item, {| heap := h'; items := items d ∖ {[nodePtr (addr item)]} |})
  else Ok (None, d).

Definition Len (d : dialQueue) : Z := Z.of_nat (size (items d)).

(** [now] is the reading [time.Now()] returns inside [add]. *)
Definition add (d : dialQueue) (a : Node) (static : bool) (prio : N) (now : Time)
  : outcome dialQueue :=
  if decide (nodePtr a ∈ items d) then Ok d
  else
    let task := {| index := 0; addr := a; insertTime := now;
                   isStatic := static; priority := prio |} in
    h ← heap_Push (heap d) task;
    Ok {| heap := h; items := {[nodePtr a]} ∪ items d |}.

(** Draining the pool, one [popImpl] per round. *)
Fixpoint drain (fuel : nat) (d : dialQueue) : outcome (list dialTask2) :=
  match fuel with
  | O => OutOfFuel
  | S fuel' =>
      '(r, d') ← popImpl d;
      match r with
      | None => Ok []
      | Some item => rest ← drain fuel' d'; Ok (item :: rest)
      end
  end.

Definition addAll (l : list (Node * bool * N * Time)) (d : dialQueue) : outcome dialQueue :=
  foldl (λ acc '(a, s, p, t), d' ← acc; add d' a s p t) (Ok d) l.


(** ** Connection flags and errors *)

(** Modelled from the spec: [connFlag] and its constants are declared in
    server.go, outside dial.go. A flag word is a bit mask, one bit per
    connection kind; dialing paths use exactly one of the static and
    dynamic bits. *)
Definition connFlag := Z.
Definition dynDialedConn : connFlag := 1.
Definition staticDialedConn : connFlag := 2.
Definition inboundConn : connFlag := 4.

(** The checkDial errors, transport errors from outside, and [dialError],
    the wrapper that [dial] puts around what the dialer returned. *)
Inductive error : Type :=
  | errSelf
  | errAlreadyDialing
  | errAlreadyConnected
  | errRecentlyDialed
  | errNetRestrict
  | errNoPort
  | errExternal (msg : string)
  | dialError (inner : error).

(** The type assertion of [startDial]: is the error a [dialError]? *)
Definition is_dialError (e : error) : bool :=
  match e with
  | dialError _ => true
  | _ => false
  end.

(** ** Constants of dial.go *)

(** Modelled from the spec: [inboundThrottleTime] is declared in server.go,
    outside dial.go; the history expiry is that window plus five seconds.
    No statement below depends on the length of the window. *)
Definition inboundThrottleTime : Duration := 30 * Second.

Definition dialHistoryExpiration : Duration := inboundThrottleTime + 5 * Second.

Definition initialResolveDelay : Duration := 60 * Second.
Definition maxResolveDelay : Duration := Hour.

(** ** External collaborators *)

(** Modelled from the spec: [netutil.Netlist] is declared outside dial.go;
    the scheduler only asks it whether it contains an IP. *)
Record Netlist : Type := mkNetlist {
  Contains : option IP → bool;
}.

(** Modelled from the spec: [delayheap.PeriodicDispatcher], the expiring
    set behind the dial history, is declared outside dial.go. [Add] records
    membership until the expiry and refreshes an entry already present,
    [ContainsID] answers membership, and the background dispatcher removes
    an entry once its expiry has elapsed ([expire], run by the dispatcher
    at its own times, not by the scheduler loop). The history key is
    [ID().String()], the hexadecimal print of the identifier, kept here as
    the identifier itself. *)
Record PeriodicDispatcher : Type := mkPeriodicDispatcher {
  tracked : gmap ID Time;
}.

Definition NewPeriodicDispatcher : PeriodicDispatcher :=
  {| tracked := ∅ |}.

Definition PeriodicDispatcher_Add (p : PeriodicDispatcher) (id : ID) (expiresAt : Time)
  : PeriodicDispatcher :=
  {| tracked := <[id := expiresAt]> (tracked p) |}.

Definition ContainsID (p : PeriodicDispatcher) (id : ID) : bool :=
  bool_decide (is_Some (tracked p !! id)).

Definition expire (now : Time) (p : PeriodicDispatcher) : PeriodicDispatcher :=
  {| tracked := filter (λ kv, now < kv.2) (tracked p) |}.

(** Modelled from the spec: [delayheap.HeapNode] is declared outside
    dial.go; a heap node is known to the dispatcher by its [ID()]. *)
Definition HeapNode := ID.

(** [net.Conn], an opaque handle. *)
Definition Conn := N.

(** The interfaces the configuration carries act on the world outside the
    scheduler ([Env]): the clock, the discovery resolver, the dialer. *)
Record Clock (Env : Type) : Type := mkClock {
  Now : Env → AbsTime * Env;
}.
Arguments Now {Env} _ _.

Record nodeResolver (Env : Type) : Type := mkResolver {
  Resolve : Node → Env → option Node * Env;
}.
Arguments Resolve {Env} _ _ _.

Record NodeDialer (Env : Type) : Type := mkDialer {
  Dial : Node → Env → (Conn + error) * Env;
}.
Arguments Dial {Env} _ _ _.

Definition dialSetupFunc (Env : Type) : Type :=
  Conn → connFlag → Node → Env → option error * Env.

(** [time.Now()], a function of the Go runtime. *)
Class GoRuntime (Env : Type) : Type := {
  time_Now : Env → Time * Env;
}.

(** ** The scheduler *)

Record dialConfig (Env : Type) : Type := mkDialConfig {
  self : ID;
  maxDialPeers : Z;
  maxActiveDials : Z;
  netRestrict : option Netlist;
  resolver : option (nodeResolver Env);
  dialer : NodeDialer Env;
  clock : Clock Env;
}.
Arguments self {Env} _.
Arguments maxDialPeers {Env} _.
Arguments maxActiveDials {Env} _.
Arguments netRestrict {Env} _.
Arguments resolver {Env} _.
Arguments dialer {Env} _.
Arguments clock {Env} _.

Record dialScheduler (Env : Type) : Type := mkDialScheduler {
  config : dialConfig Env;
  setupFunc : dialSetupFunc Env;
  dialing : gset ID;
  peers : gset ID;
  static : gset ID;
  dialPeers : Z;
  staticPool : dialQueue;
  history : PeriodicDispatcher;
}.
Arguments config {Env} _.
Arguments setupFunc {Env} _.
Arguments dialing {Env} _.
Arguments peers {Env} _.
Arguments static {Env} _.
Arguments dialPeers {Env} _.
Arguments staticPool {Env} _.
Arguments history {Env} _.

Definition set_dialing {Env} (s : gset ID) (d : dialScheduler Env) : dialScheduler Env :=
  {| config := config d; setupFunc := setupFunc d; dialing := s; peers := peers d;
     static := static d; dialPeers := dialPeers d; staticPool := staticPool d;
     history := history d |}.

Definition set_staticPool {Env} (q : dialQueue) (d : dialScheduler Env) : dialScheduler Env :=
  {| config := config d; setupFunc := setupFunc d; dialing := dialing d; peers := peers d;
     static := static d; dialPeers := dialPeers d; staticPool := q;
     history := history d |}.

Definition set_history {Env} (h : PeriodicDispatcher) (d : dialScheduler Env) : dialScheduler Env :=
  {| config := config d; setupFunc := setupFunc d; dialing := dialing d; peers := peers d;
     static := static d; dialPeers := dialPeers d; staticPool := staticPool d;
     history := h |}.

(** [Enqueue] makes the scheduler a dispatcher for the history. *)
Definition Enqueue {Env} (d : dialScheduler Env) (h : HeapNode) : outcome unit :=
  Panic "x".

(** [freeDialSlots], in Go's [int] arithmetic. *)
Definition freeDialSlots {Env} (d : dialScheduler Env) : Z :=
  let slots := wrap64 (wrap64 (maxDialPeers (config d) - dialPeers d) * 2) in
  let slots := if bool_decide (slots > maxActiveDials (config d))
               then maxActiveDials (config d) else slots in
  let free := wrap64 (slots - Z.of_nat (size (dialing d))) in
  free.

(** The capacity policy in the specification's words, over the integers. *)
Definition freeDialSlots_spec (maxActive maxPeers dialed inflight : Z) : Z :=
  Z.min maxActive ((maxPeers - dialed) * 2) - inflight.

Definition checkDial {Env} (d : dialScheduler Env) (n : Node) : option error :=
  if decide (Node_ID n = self (config d)) then Some errSelf
  else if decide (Node_IP n ≠ None ∧ Node_TCP n = 0) then Some errNoPort
  else if decide (Node_ID n ∈ dialing d) then Some errAlreadyDialing
  else if decide (Node_ID n ∈ peers d) then Some errAlreadyConnected
  else if match netRestrict (config d) with
          | Some l => negb (Contains l (Node_IP n))
          | None => false
          end then Some errNetRestrict
  else if ContainsID (history d) (Node_ID n) then Some errRecentlyDialed
  else None.

(** ** Dial tasks and the state they run in

    A [*dialTask] is a pointer into the task store of the world; [resolve]
    writes through it. [doneCh] is the completion channel, kept as the
    sequence of task pointers sent on it. [trace] is a ghost record of the
    calls a task makes; the program does not read it. *)

Record dialTask : Type := mkDialTask {
  flags : connFlag;
  dest : Node;
  lastResolved : AbsTime;
  resolveDelay : Duration;
}.

Definition set_dest (n : Node) (t : dialTask) : dialTask :=
  {| flags := flags t; dest := n; lastResolved := lastResolved t;
     resolveDelay := resolveDelay t |}.

Definition set_lastResolved (a : AbsTime) (t : dialTask) : dialTask :=
  {| flags := flags t; dest := dest t; lastResolved := a;
     resolveDelay := resolveDelay t |}.

Definition set_resolveDelay (x : Duration) (t : dialTask) : dialTask :=
  {| flags := flags t; dest := dest t; lastResolved := lastResolved t;
     resolveDelay := x |}.

Inductive event : Type :=
  | EvResolve (task : N)      (* a call of [resolve] *)
  | EvQuery (n : Node)        (* the resolver is asked for [n] *)
  | EvDial (n : Node)         (* the dialer is asked to connect to [n] *)
  | EvSetup (n : Node).       (* the setup callback runs for [n] *)

Record World (Env : Type) : Type := mkWorld {
  env : Env;
  tasks : gmap N dialTask;
  doneCh : list N;
  trace : list event;
}.
Arguments mkWorld {Env} _ _ _ _.
Arguments env {Env} _.
Arguments tasks {Env} _.
Arguments doneCh {Env} _.
Arguments trace {Env} _.

Definition M (Env A : Type) : Type := World Env → outcome (A * World Env).

#[export] Instance M_ret {Env} : MRet (M Env) := λ A a w, Ok (a, w).

#[export] Instance M_bind {Env} : MBind (M Env) := λ A B f m w,
  match m w with
  | Ok (a, w') => f a w'
  | Panic msg => Panic msg
  | OutOfFuel => OutOfFuel
  end.

Definition liftEnv {Env A} (f : Env → A * Env) : M Env A := λ w,
  let '(a, e) := f (env w) in
  Ok (a, mkWorld e (tasks w) (doneCh w) (trace w)).

Definition liftO {Env A} (o : outcome A) : M Env A := λ w,
  match o with
  | Ok a => Ok (a, w)
  | Panic msg => Panic msg
  | OutOfFuel => OutOfFuel
  end.

Definition load {Env} (p : N) : M Env dialTask := λ w,
  match tasks w !! p with
  | Some t => Ok (t, w)
  | None => Panic "nil pointer dereference"
  end.

Definition store {Env} (p : N) (t : dialTask) : M Env unit := λ w,
  Ok ((), mkWorld (env w) (<[p := t]> (tasks w)) (doneCh w) (trace w)).

Definition alloc {Env} (t : dialTask) : M Env N := λ w,
  let p := fresh (dom (tasks w)) in
  Ok (p, mkWorld (env w) (<[p := t]> (tasks w)) (doneCh w) (trace w)).

Definition send {Env} (p : N) : M Env unit := λ w,
  Ok ((), mkWorld (env w) (tasks w) (doneCh w ++ [p]) (trace w)).

Definition emit {Env} (e : event) : M Env unit := λ w,
  Ok ((), mkWorld (env w) (tasks w) (doneCh w) (trace w ++ [e])).

Definition newDialTask {Env} (dest : Node) (flags : connFlag) : M Env N :=
  alloc {| flags := flags; dest := dest; lastResolved := 0; resolveDelay := 0 |}.

Definition needResolve {Env} (t : N) : M Env bool :=
  tk ← load t;
  mret (bool_decide (Z.land (flags tk) staticDialedConn ≠ 0)
        && bool_decide (Node_IP (dest tk) = None)).

Definition resolve {Env} (d : dialScheduler Env) (t : N) : M Env bool :=
  emit (EvResolve t);;
  match resolver (config d) with
  | None => mret false
  | Some r =>
      tk ← load t;
      let tk := if decide (resolveDelay tk = 0)
                then set_resolveDelay initialResolveDelay tk else tk in
      store t tk;;
      throttled ←
        (if bool_decide (lastResolved tk > 0) then
           now ← liftEnv (Now (clock (config d)));
           mret (bool_decide (wrap64 (now - lastResolved tk) < resolveDelay tk))
         else mret false);
      if (throttled : bool) then mret false
      else
        emit (EvQuery (dest tk));;
        resolved ← liftEnv (Resolve r (dest tk));
        now ← liftEnv (Now (clock (config d)));
        let tk := set_lastResolved now tk in
        store t tk;;
        match resolved with
        | None =>
            let delay := wrap64 (resolveDelay tk * 2) in
            let delay := if bool_decide (delay > maxResolveDelay)
                         then maxResolveDelay else delay in
            store t (set_resolveDelay delay tk);;
            mret false
        | Some n =>
            store t (set_dest n (set_resolveDelay initialResolveDelay tk));;
            mret true
        end
  end.

(** [dial]: the metered wrapper around the connection is metrics plumbing
    and leaves the connection as it is. *)
Definition dial {Env} (d : dialScheduler Env) (t : N) : M Env (option error) :=
  tk ← load t;
  let dest := dest tk in
  emit (EvDial dest);;
  r ← liftEnv (Dial (dialer (config d)) dest);
  match r with
  | inr err => mret (Some (dialError err))
  | inl fd =>
      emit (EvSetup dest);;
      liftEnv (setupFunc d fd (flags tk) dest)
  end.

(** The closure [dial] of [startDial], and the goroutine around it. *)
Definition dialClosure {Env} (d : dialScheduler Env) (task : N) : M Env unit :=
  err ← dial d task;
  match err with
  | Some e =>
      tk ← load task;
      if is_dialError e && bool_decide (Z.land (flags tk) staticDialedConn ≠ 0) then
        ok ← resolve d task;
        if (ok : bool) then dial d task;; mret () else mret ()
      else mret ()
  | None => mret ()
  end.

Definition dialGoroutine {Env} (d : dialScheduler Env) (task : N) : M Env unit :=
  dialClosure d task;;
  send task.

(** [startDial] returns the scheduler as it has updated it and the
    goroutine it has started, if any. *)
Definition startDial {Env} `{GoRuntime Env} (d : dialScheduler Env) (task : N)
  : M Env (dialScheduler Env * option (M Env unit)) :=
  tk ← load task;
  now ← liftEnv time_Now;
  let d := set_history (PeriodicDispatcher_Add (history d) (Node_ID (dest tk))
                          (Time_Add now dialHistoryExpiration)) d in
  let d := set_dialing ({[Node_ID (dest tk)]} ∪ dialing d) d in
  nr ← needResolve task;
  giveUp ← (if (nr : bool) then ok ← resolve d task; mret (negb ok) else mret false);
  if (giveUp : bool) then mret (d, None)
  else mret (d, Some (dialGoroutine d task)).

(** [startStaticDials]: every round of the loop pops one entry, so the
    pool's size bounds the rounds. *)
Fixpoint startStaticDials_loop {Env} (fuel : nat) (d : dialScheduler Env)
    (n started : Z) (res : list N) : M Env (dialScheduler Env * (Z * list N)) :=
  match fuel with
  | O => λ _, OutOfFuel
  | S fuel' =>
      if bool_decide (started < n) && bool_decide (Len (staticPool d) > 0) then
        '(r, q) ← liftO (popImpl (staticPool d));
        let d := set_staticPool q d in
        match r with
        | None => λ _, Panic "nil pointer dereference"
        | Some task =>
            if isStatic task && negb (bool_decide (Node_ID (addr task) ∈ static d))
            then startStaticDials_loop fuel' d n started res
            else if bool_decide (Node_ID (addr task) ∈ peers d)
            then startStaticDials_loop fuel' d n started res
            else match checkDial d (addr task) with
                 | Some err => startStaticDials_loop fuel' d n started res
                 | None =>
                     ttt ← (if isStatic task
                            then newDialTask (addr task) staticDialedConn
                            else newDialTask (addr task) dynDialedConn);
                     startStaticDials_loop fuel' d n (wrap64 (started + 1)) (res ++ [ttt])
                 end
        end
      else mret (d, (started, res))
  end.

Definition startStaticDials {Env} (d : dialScheduler Env)
  : M Env (dialScheduler Env * (Z * list N)) :=
  let n := freeDialSlots d in
  startStaticDials_loop (S (size (items (staticPool d)))) d n 0 [].

(** ** The rest of the scheduler: statistics, the static pool, the loop *)

Definition dialStatsLogInterval : Duration := 10 * Second.
Definition dialStatsPeerLimit : Z := 3.

(** Modelled from the spec: [defaultMaxPendingPeers] is declared in
    server.go, outside dial.go; the value is a stand-in, and no statement
    below depends on it. *)
Definition defaultMaxPendingPeers : Z := 50.

(** Modelled from the spec: [conn] and its method [is] are declared in
    server.go, outside dial.go; a connection carries a flag word and the
    node at its other end, and [is] tests a bit of the flag word. *)
Record conn : Type := mkConn {
  conn_flags : connFlag;
  conn_node : Node;
}.

Definition conn_is (c : conn) (f : connFlag) : bool :=
  bool_decide (Z.land (conn_flags c) f ≠ 0).

(** Modelled from the spec: [AbsTime.Add] is declared in package mclock;
    it adds a duration to a reading. *)
Definition AbsTime_Add (t : AbsTime) (d : Duration) : AbsTime := wrap64 (t + d).

(** [lastStatsLog] and [doneSinceLastLog], the two fields of the scheduler
    that only [logStats] and the loop touch, are kept in a record of their
    own beside [dialScheduler]. *)
Record dialStats : Type := mkDialStats {
  lastStatsLog : AbsTime;
  doneSinceLastLog : Z;
}.

(** The values of one "Looking for peers" message. *)
Record statsLine : Type := mkStatsLine {
  peercount : Z;
  tried : Z;
  staticCount : Z;
}.

(** [withDefaults], on the fields the model carries: the logger and the
    random source are not part of it, and the clock of a configuration is
    always set. *)
Definition withDefaults {Env} (cfg : dialConfig Env) : dialConfig Env :=
  {| self := self cfg; maxDialPeers := maxDialPeers cfg;
     maxActiveDials := if decide (maxActiveDials cfg = 0)
                       then defaultMaxPendingPeers else maxActiveDials cfg;
     netRestrict := netRestrict cfg; resolver := resolver cfg;
     dialer := dialer cfg; clock := clock cfg |}.

(** [newDialScheduler]: the state it builds; starting the history's
    dispatcher and the loop goroutine is left to the caller of the
    model. *)
Definition newDialScheduler {Env} (cfg : dialConfig Env) (setup : dialSetupFunc Env)
  : M Env (dialScheduler Env * dialStats) :=
  let d := {| config := withDefaults cfg; setupFunc := setup;
              dialing := ∅; static := ∅; peers := ∅; dialPeers := 0;
              staticPool := newDialQueue; history := NewPeriodicDispatcher |} in
  now ← liftEnv (Now (clock (withDefaults cfg)));
  mret (d, {| lastStatsLog := now; doneSinceLastLog := 0 |}).

(** [logStats] returns the statistics fields as it leaves them and the
    message it has logged, if any. *)
Definition logStats {Env} (d : dialScheduler Env) (st : dialStats)
  : M Env (dialStats * option statsLine) :=
  now ← liftEnv (Now (clock (config d)));
  if bool_decide (AbsTime_Add (lastStatsLog st) dialStatsLogInterval > now)
  then mret (st, None)
  else
    let line :=
      if bool_decide (dialPeers d < dialStatsPeerLimit)
         && bool_decide (dialPeers d < maxDialPeers (config d))
      then Some {| peercount := Z.of_nat (size (peers d));
                   tried := doneSinceLastLog st;
                   staticCount := Z.of_nat (size (static d)) |}
      else None in
    mret ({| lastStatsLog := now; doneSinceLastLog := 0 |}, line).

(** [dialQueue.add] as the scheduler calls it: the stamp is read from the
    runtime, and only when the node is not yet in the pool. *)
Definition addNow {Env} `{GoRuntime Env} (q : dialQueue) (a : Node) (static : bool)
    (prio : N) : M Env dialQueue :=
  if decide (nodePtr a ∈ items q) then mret q
  else
    now ← liftEnv time_Now;
    liftO (add q a static prio now).

Definition addToStaticPool {Env} `{GoRuntime Env} (d : dialScheduler Env) (node : Node)
  : M Env (dialScheduler Env) :=
  q ← addNow (staticPool d) node true staticPriority;
  mret (set_staticPool q d).

Definition updateStaticPool {Env} `{GoRuntime Env} (d : dialScheduler Env) (node : Node)
  : M Env (dialScheduler Env) :=
  if bool_decide (Node_ID node ∈ static d) then
    match checkDial d node with
    | None => addToStaticPool d node
    | Some _ => mret d
    end
  else mret d.

Definition set_peers {Env} (s : gset ID) (d : dialScheduler Env) : dialScheduler Env :=
  {| config := config d; setupFunc := setupFunc d; dialing := dialing d; peers := s;
     static := static d; dialPeers := dialPeers d; staticPool := staticPool d;
     history := history d |}.

Definition set_static {Env} (s : gset ID) (d : dialScheduler Env) : dialScheduler Env :=
  {| config := config d; setupFunc := setupFunc d; dialing := dialing d; peers := peers d;
     static := s; dialPeers := dialPeers d; staticPool := staticPool d;
     history := history d |}.

Definition set_dialPeers {Env} (n : Z) (d : dialScheduler Env) : dialScheduler Env :=
  {| config := config d; setupFunc := setupFunc d; dialing := dialing d; peers := peers d;
     static := static d; dialPeers := n; staticPool := staticPool d;
     history := history d |}.

(** What the [select] of the loop can receive. *)
Inductive loopEvent : Type :=
  | OnNotify
  | OnDone (task : N)
  | OnAddPeer (c : conn)
  | OnRemPeer (c : conn)
  | OnAddStatic (node : Node)
  | OnRemStatic (node : Node)
  | OnClose.

(** The [select] of the loop, for the event it receives. The boolean says
    whether the loop ends ([break loop]). *)
Definition loopSelect {Env} `{GoRuntime Env} (d : dialScheduler Env) (st : dialStats)
    (ev : loopEvent) : M Env (dialScheduler Env * dialStats * bool) :=
  match ev with
  | OnNotify => mret (d, st, false)
  | OnDone task =>
      tk ← load task;
      let id := Node_ID (dest tk) in
      let d := set_dialing (dialing d ∖ {[id]}) d in
      d ← updateStaticPool d (dest tk);
      mret (d, {| lastStatsLog := lastStatsLog st;
                  doneSinceLastLog := wrap64 (doneSinceLastLog st + 1) |}, false)
  | OnAddPeer c =>
      let d := if conn_is c dynDialedConn || conn_is c staticDialedConn
               then set_dialPeers (wrap64 (dialPeers d + 1)) d else d in
      let id := Node_ID (conn_node c) in
      mret (set_peers ({[id]} ∪ peers d) d, st, false)
  | OnRemPeer c =>
      let d := if conn_is c dynDialedConn || conn_is c staticDialedConn
               then set_dialPeers (wrap64 (dialPeers d - 1)) d else d in
      let d := set_peers (peers d ∖ {[Node_ID (conn_node c)]}) d in
      d ← updateStaticPool d (conn_node c);
      mret (d, st, false)
  | OnAddStatic node =>
      let id := Node_ID node in
      if bool_decide (id ∈ static d) then mret (d, st, false)
      else
        let d := set_static ({[id]} ∪ static d) d in
        match checkDial d node with
        | None => d ← addToStaticPool d node; mret (d, st, false)
        | Some _ => mret (d, st, false)
        end
  | OnRemStatic node =>
      let id := Node_ID node in
      if bool_decide (id ∈ static d)
      then mret (set_static (static d ∖ {[id]}) d, st, false)
      else mret (d, st, false)
  | OnClose => mret (d, st, true)
  end.

(** The launches at the head of a loop round: [startDial] for every task
    [startStaticDials] returned, in order; the goroutines started are
    collected. *)
Fixpoint startDials {Env} `{GoRuntime Env} (d : dialScheduler Env) (tasks : list N)
  : M Env (dialScheduler Env * list (M Env unit)) :=
  match tasks with
  | [] => mret (d, [])
  | task :: rest =>
      '(d, g) ← startDial d task;
      '(d, gs) ← startDials d rest;
      mret (d, match g with Some run => run :: gs | None => gs end)
  end.

(** One round of the loop: launches, statistics, then the [select]. *)
Definition loopRound {Env} `{GoRuntime Env} (d : dialScheduler Env) (st : dialStats)
    (ev : loopEvent)
  : M Env (dialScheduler Env * dialStats * list (M Env unit) * option statsLine * bool) :=
  '(d, (_, tasks)) ← startStaticDials d;
  '(d, gs) ← startDials d tasks;
  '(st, line) ← logStats d st;
  '(d, st, stop) ← loopSelect d st ev;
  mret (d, st, gs, line, stop).

(** The producer goroutine of the loop, for one node the iterator yields. *)
Definition produce {Env} `{GoRuntime Env} (d : dialScheduler Env) (node : Node)
  : M Env (dialScheduler Env) :=
  q ← addNow (staticPool d) node false normalPriority;
  mret (set_staticPool q d).

(** ** A scripted environment

    A concrete world to run the model in: the two clocks stand still, and
    the resolver, the dialer and the setup callback answer from scripts
    (an exhausted script answers "not found", "connection refused" and
    "no error"). *)

Record SimEnv : Type := mkSimEnv {
  simClock : AbsTime;
  simWall : Time;
  simResolve : list (option Node);
  simDial : list (Conn + error);
  simSetup : list (option error);
}.

Definition simNow : Clock SimEnv :=
  {| Now := λ e, (simClock e, e) |}.

Definition simResolver : nodeResolver SimEnv :=
  {| Resolve := λ _ e,
       (default None (head (simResolve e)),
        mkSimEnv (simClock e) (simWall e) (tail (simResolve e)) (simDial e) (simSetup e)) |}.

Definition simDialer : NodeDialer SimEnv :=
  {| Dial := λ _ e,
       (default (inr (errExternal "connection refused")) (head (simDial e)),
        mkSimEnv (simClock e) (simWall e) (simResolve e) (tail (simDial e)) (simSetup e)) |}.

Definition simSetupFunc : dialSetupFunc SimEnv := λ _ _ _ e,
  (default None (head (simSetup e)),
   mkSimEnv (simClock e) (simWall e) (simResolve e) (simDial e) (tail (simSetup e))).

#[export] Instance simRuntime : GoRuntime SimEnv :=
  {| time_Now := λ e, (simWall e, e) |}.

Definition simConfig (res : option (nodeResolver SimEnv)) : dialConfig SimEnv :=
  {| self := 0%N; maxDialPeers := 3; maxActiveDials := 10; netRestrict := None;
     resolver := res; dialer := simDialer; clock := simNow |}.

Definition simScheduler (res : option (nodeResolver SimEnv)) : dialScheduler SimEnv :=
  {| config := simConfig res; setupFunc := simSetupFunc;
     dialing := ∅; peers := ∅; static := ∅; dialPeers := 0;
     staticPool := newDialQueue; history := NewPeriodicDispatcher |}.

Definition simWorld (e : SimEnv) (ts : gmap N dialTask) : World SimEnv :=
  mkWorld e ts [] [].

Definition nA : Node := mkNode 1%N 101%N None 0.
Definition nB : Node := mkNode 2%N 102%N None 0.
Definition nC : Node := mkNode 3%N 103%N None 0.

(** * Specifications

    The notions the properties are stated with: the order of the pool, the
    heap and pool invariants, the states the pool reaches, what a launch
    guarantees, and the claims that fail, in the words of the
    specification. *)

Definition entry : Type := Node * Time * bool * N.

Definition entryOf (a : dialTask2) : entry :=
  (addr a, insertTime a, isStatic a, priority a).

Definition contents (h : dialQueueImpl) : list entry := entryOf <$> h.

(** [leT a b]: [a] sorts no later than [b]. *)
Definition leT (a b : dialTask2) : Prop := lessTask b a = false.

Ltac div_lia := zify; Z.to_euclidean_division_equations; lia.

#[local] Arguments Nat.div : simpl never.
#[local] Arguments Nat.mul : simpl never.
#[local] Arguments Nat.add : simpl never.
#[local] Arguments Nat.sub : simpl never.

Definition edge_ok (t : dialQueueImpl) (k : nat) : Prop :=
  ∀ a b, t !! ((k - 1) / 2)%nat = Some a → t !! k = Some b → leT a b.

Definition heap_ok_on (n : nat) (t : dialQueueImpl) : Prop :=
  ∀ k, (0 < k < n)%nat → edge_ok t k.

Definition heap_ok (t : dialQueueImpl) : Prop := heap_ok_on (length t) t.

(** While [up] runs at [j]: only the edge into [j] may be broken, and the
    children of [j] already sort after its parent. *)
Definition up_inv (t : dialQueueImpl) (j : nat) : Prop :=
  (∀ k, (0 < k < length t)%nat → k ≠ j → edge_ok t k) ∧
  (∀ c a b, (0 < j)%nat → (0 < c)%nat → ((c - 1) / 2)%nat = j →
            t !! ((j - 1) / 2)%nat = Some a → t !! c = Some b → leT a b).

(** While [down] runs at [i] on the first [n] elements: only the edges
    out of [i] may be broken, and the children of [i] already sort after
    its parent. *)
Definition down_inv (t : dialQueueImpl) (i n : nat) : Prop :=
  (∀ k, (0 < k < n)%nat → ((k - 1) / 2)%nat ≠ i → edge_ok t k) ∧
  (∀ c a b, (0 < i)%nat → (0 < c < n)%nat → ((c - 1) / 2)%nat = i →
            t !! ((i - 1) / 2)%nat = Some a → t !! c = Some b → leT a b).

Definition entryPtr (e : entry) : N := nodePtr (e.1.1.1).

Definition ptrs (h : dialQueueImpl) : list N := entryPtr <$> contents h.

Record pool_ok (d : dialQueue) : Prop := mkPoolOk {
  pool_heap : heap_ok (heap d);
  pool_nodup : NoDup (ptrs (heap d));
  pool_items : items d = list_to_set (ptrs (heap d));
}.

(** The states the pool can be in: it starts empty and changes only by
    [add] and [popImpl], each atomic under the lock. *)
Inductive reachable : dialQueue → Prop :=
  | reach_new : reachable newDialQueue
  | reach_add d a s p now d' :
      reachable d → add d a s p now = Ok d' → reachable d'
  | reach_pop d r d' :
      reachable d → popImpl d = Ok (r, d') → reachable d'.

(** The FIFO clause of C4 as the specification words it: entries of one
    priority, added in this order while the clock does not run backwards,
    leave the pool in the order they were added. *)
Definition fifo_by_insertion : Prop :=
  ∀ (l : list (Node * Time)) (prio : N) q out,
    NoDup ((λ x, nodePtr x.1) <$> l) →
    StronglySorted Z.le (snd <$> l) →
    addAll ((λ x, (x.1, false, prio, x.2)) <$> l) newDialQueue = Ok q →
    drain (S (length l)) q = Ok out →
    addr <$> out = fst <$> l.

Definition leE (e1 e2 : entry) : Prop :=
  (e1.2 < e2.2)%N ∨ (e1.2 = e2.2 ∧ e1.1.1.2 ≤ e2.1.1.2).

(** What [startStaticDials] guarantees about a task it built from the
    pool entry [e]. *)
Definition builtFrom {Env} (d : dialScheduler Env) (e : entry) (t : dialTask) : Prop :=
  let '(a, _, st, _) := e in
  (dest t = a ∧
   flags t = (if st then staticDialedConn else dynDialedConn) ∧
   (st = true → Node_ID a ∈ static d) ∧
   (Node_ID a ∉ peers d) ∧
   checkDial d a = None).

Definition launched {Env} (d : dialScheduler Env) (H0 : list entry)
    (res : list N) (w : World Env) : Prop :=
  ∀ p, p ∈ res → ∃ t e, tasks w !! p = Some t ∧ e ∈ H0 ∧ builtFrom d e t.

(** The claim of C9 as the specification words it: the flag of a launched
    task follows membership of its node in the static set. *)
Definition flag_follows_static_set : Prop :=
  ∀ (d d' : dialScheduler SimEnv) (w w' : World SimEnv) started res,
    startStaticDials d w = Ok ((d', (started, res)), w') →
    ∀ p t, p ∈ res → tasks w' !! p = Some t →
      (Node_ID (dest t) ∈ static d → Z.land (flags t) staticDialedConn ≠ 0) ∧
      (Node_ID (dest t) ∉ static d → flags t = dynDialedConn).

(** A scheduler whose static set holds a node that discovery has put in
    the pool as a dynamic candidate. *)
Definition discoveredStatic : dialScheduler SimEnv :=
  {| config := simConfig None; setupFunc := simSetupFunc;
     dialing := ∅; peers := ∅; static := {[Node_ID nA]}; dialPeers := 0;
     staticPool := {| heap := [mkDialTask2 0 nA 7 false normalPriority];
                      items := {[nodePtr nA]} |};
     history := NewPeriodicDispatcher |}.

(** The reachable values of a task's delay: unset, or between the initial
    and the maximal delay. *)
Definition delay_ok (t : dialTask) : Prop :=
  resolveDelay t = 0 ∨ initialResolveDelay ≤ resolveDelay t ≤ maxResolveDelay.

(** The delay a failed attempt leaves behind, from the delay before it. *)
Definition nextDelay (dl : Duration) : Duration :=
  Z.min (2 * (if decide (dl = 0) then initialResolveDelay else dl)) maxResolveDelay.

Definition isResolve (e : event) : bool :=
  match e with EvResolve _ => true | _ => false end.

Definition isDial (e : event) : bool :=
  match e with EvDial _ => true | _ => false end.

Definition count (f : event → bool) (tr : list event) : nat :=
  length (filter (λ e, f e = true) tr).

(** A static task known by identifier only, started while no resolver is
    configured. *)
Definition unresolvedTask : dialTask := mkDialTask staticDialedConn nA 0 0.

Definition unresolvedWorld : World SimEnv :=
  simWorld (mkSimEnv 5 1000 [] [] []) {[7%N := unresolvedTask]}.

(** The claim of C7 on the time an identifier is in the history, as the
    specification words it. *)
Definition history_always_rejects : Prop :=
  ∀ (d : dialScheduler SimEnv) (n : Node),
    ContainsID (history d) (Node_ID n) = true →
    checkDial d n = Some errRecentlyDialed.

Definition nD : Node := mkNode 4%N 104%N (Some [10; 0; 0; 1]%N) 30303.

(** ** More invariants of the pool *)

(** The [index] field of every entry is its position in the slice. *)
Definition index_ok (t : dialQueueImpl) : Prop :=
  ∀ i a, t !! i = Some a → index a = Z.of_nat i.

(** ** Runs of [resolve] on one task *)


Definition isSetup (e : event) : bool :=
  match e with EvSetup _ => true | _ => false end.

(** [failedAttempts d p k w w']: from [w] to [w'] the task at [p] has gone
    through calls of [resolve] of which [k] asked the resolver and did not
    find the node; the other calls returned false without asking, and in
    between the world outside (the clocks, the network) may have moved. *)
Inductive failedAttempts {Env} (d : dialScheduler Env) (p : N)
  : nat → World Env → World Env → Prop :=
  | fa_none w : failedAttempts d p 0 w w
  | fa_failed k w w1 w2 n :
      failedAttempts d p k w w1 →
      resolve d p w1 = Ok (false, w2) →
      trace w2 = trace w1 ++ [EvResolve p; EvQuery n] →
      failedAttempts d p (S k) w w2
  | fa_skipped k w w1 w2 :
      failedAttempts d p k w w1 →
      resolve d p w1 = Ok (false, w2) →
      trace w2 = trace w1 ++ [EvResolve p] →
      failedAttempts d p k w w2
  | fa_wait k w w1 e :
      failedAttempts d p k w w1 →
      failedAttempts d p k w (mkWorld e (tasks w1) (doneCh w1) (trace w1)).


(** ** The states of the scheduler *)

(** What the scheduler puts in the pool: a static node under the static
    priority, and then one that is not the local node and has a port if it
    has an IP; or a discovered node under the normal priority. *)
Definition tagged {Env} (d : dialScheduler Env) (e : entry) : Prop :=
  let '(a, _, st, prio) := e in
  if (st : bool)
  then prio = staticPriority ∧ Node_ID a ≠ self (config d) ∧
       ¬ (Node_IP a ≠ None ∧ Node_TCP a = 0)
  else prio = normalPriority.

Record sched_ok {Env} (d : dialScheduler Env) : Prop := mkSchedOk {
  sched_pool : reachable (staticPool d);
  sched_tagged : ∀ e, e ∈ contents (heap (staticPool d)) → tagged d e;
}.

(** The states the scheduler goes through: built by [newDialScheduler],
    then changed by rounds of the loop, for whatever the [select]
    receives, and by the producer goroutine adding a discovered node. The
    world is arbitrary at every step: the dial goroutines, the clocks and
    the network move between the steps. *)
Inductive sched_reachable {Env} `{GoRuntime Env} : dialScheduler Env → Prop :=
  | sr_new cfg setup w d st w' :
      newDialScheduler cfg setup w = Ok ((d, st), w') → sched_reachable d
  | sr_round d st ev w d' st' gs line stop w' :
      sched_reachable d →
      loopRound d st ev w = Ok ((d', st', gs, line, stop), w') →
      sched_reachable d'
  | sr_produce d node w d' w' :
      sched_reachable d → produce d node w = Ok (d', w') → sched_reachable d'.

(** The three tests of [startStaticDials] on a popped entry, and the task
    it builds for an entry that passes them. *)
Definition admissible {Env} (d : dialScheduler Env) (e : entry) : bool :=
  let '(a, _, st, _) := e in
  negb (st && negb (bool_decide (Node_ID a ∈ static d)))
  && negb (bool_decide (Node_ID a ∈ peers d))
  && match checkDial d a with None => true | Some _ => false end.

Definition taskFor (e : entry) : dialTask :=
  let '(a, _, st, _) := e in
  {| flags := if (st : bool) then staticDialedConn else dynDialedConn;
     dest := a; lastResolved := 0; resolveDelay := 0 |}.

(** * Properties *)

(** ** The order of the pool *)

Lemma lessTask_spec a b :
  lessTask a b = true ↔
  (priority a < priority b)%N ∨ (priority a = priority b ∧ insertTime a < insertTime b).
Proof.
  unfold lessTask, Before. destruct (decide (priority a = priority b)) as [e|ne].
  - rewrite bool_decide_eq_true. split; [intros; right; done|].
    intros [?|[_ ?]]; [lia|done].
  - rewrite bool_decide_eq_true. split; [intros; left; done|].
    intros [?|[? _]]; [done|congruence].
Qed.

Lemma leT_spec a b :
  leT a b ↔
  (priority a < priority b)%N ∨ (priority a = priority b ∧ insertTime a ≤ insertTime b).
Proof.
  unfold leT. rewrite <- not_true_iff_false, lessTask_spec. lia.
Qed.

Lemma lessTask_leT a b : lessTask a b = true → leT a b.
Proof. rewrite lessTask_spec, leT_spec. lia. Qed.

Lemma leT_refl a : leT a a.
Proof. rewrite leT_spec. lia. Qed.

Lemma leT_trans a b c : leT a b → leT b c → leT a c.
Proof. rewrite !leT_spec. lia. Qed.

Lemma leT_setIndex i j a b : leT (setIndex i a) (setIndex j b) ↔ leT a b.
Proof. done. Qed.

(** ** [Less] and [Swap] on indices in range *)

Lemma Less_in_range (t : dialQueueImpl) i j a b :
  t !! i = Some a → t !! j = Some b → Less t i j = Ok (lessTask a b).
Proof. intros Hi Hj. unfold Less, at_index. by rewrite Hi, Hj. Qed.

Lemma Swap_in_range (t : dialQueueImpl) i j a b :
  t !! i = Some a → t !! j = Some b →
  ∃ t', Swap t i j = Ok t' ∧ length t' = length t ∧
        ∀ k, t' !! k = if decide (k = j) then Some (setIndex (Z.of_nat j) a)
                       else if decide (k = i) then Some (setIndex (Z.of_nat i) b)
                       else t !! k.
Proof.
  intros Hi Hj.
  assert (i < length t)%nat as Li by (by eapply lookup_lt_Some).
  assert (j < length t)%nat as Lj by (by eapply lookup_lt_Some).
  unfold Swap, at_index. rewrite Hi, Hj. simpl.
  destruct (decide (i = j)) as [->|ne].
  - assert (a = b) by congruence. subst b.
    rewrite list_lookup_insert_eq by (by rewrite length_insert).
    simpl. rewrite list_lookup_insert_eq by (by rewrite !length_insert).
    simpl. eexists. split; [done|]. split; [by rewrite !length_insert|].
    intros k. destruct (decide (k = j)) as [->|nk].
    + by rewrite list_lookup_insert_eq by (by rewrite !length_insert).
    + by rewrite !list_lookup_insert_ne by done.
  - rewrite list_lookup_insert_ne by done.
    rewrite list_lookup_insert_eq by done. simpl.
    rewrite list_lookup_insert_ne by done.
    rewrite list_lookup_insert_eq by (by rewrite length_insert). simpl.
    eexists. split; [done|]. split; [by rewrite !length_insert|].
    intros k. destruct (decide (k = j)) as [->|nk].
    + by rewrite list_lookup_insert_eq by (by rewrite !length_insert).
    + rewrite list_lookup_insert_ne by done.
      destruct (decide (k = i)) as [->|nk'].
      * by rewrite list_lookup_insert_eq by (by rewrite !length_insert).
      * by rewrite !list_lookup_insert_ne by done.
Qed.

Lemma Swap_contents (t t' : dialQueueImpl) i j a b :
  t !! i = Some a → t !! j = Some b →
  (∀ k, t' !! k = if decide (k = j) then Some (setIndex (Z.of_nat j) a)
                  else if decide (k = i) then Some (setIndex (Z.of_nat i) b)
                  else t !! k) →
  contents t' ≡ₚ contents t.
Proof.
  intros Hi Hj Hk.
  assert (contents t' = <[j := entryOf a]> (<[i := entryOf b]> (contents t))) as ->.
  { assert (i < length t)%nat as Li by (by eapply lookup_lt_Some).
    assert (j < length t)%nat as Lj by (by eapply lookup_lt_Some).
    apply list_eq. intros k. unfold contents. rewrite list_lookup_fmap, Hk.
    destruct (decide (k = j)) as [->|nk].
    - by rewrite list_lookup_insert_eq by (by rewrite length_insert, length_fmap).
    - rewrite list_lookup_insert_ne by done.
      destruct (decide (k = i)) as [->|nk'].
      + by rewrite list_lookup_insert_eq by (by rewrite length_fmap).
      + by rewrite list_lookup_insert_ne, list_lookup_fmap by done. }
  apply Permutation_insert_swap; unfold contents; rewrite list_lookup_fmap.
  - by rewrite Hi.
  - by rewrite Hj.
Qed.

(** ** The heap invariant

Every element sorts no earlier than its parent, the element at
    [(k - 1) / 2]. *)

Lemma up_loop_ok fuel (t : dialQueueImpl) j :
  (j < fuel)%nat → (j < length t)%nat → up_inv t j →
  ∃ t', up_loop fuel t j = Ok t' ∧ heap_ok t' ∧
        contents t' ≡ₚ contents t ∧ length t' = length t.
Proof.
  revert t j. induction fuel as [|fuel IH]; intros t j Hf Hj [U1 U2]; [lia|].
  simpl. destruct (decide (((j - 1) / 2)%nat = j)) as [e|ne].
  { exists t. split_and!; try done.
    intros k Hk. apply U1; [done|]. div_lia. }
  assert (0 < j)%nat as Hj0 by div_lia.
  assert (((j - 1) / 2) < j)%nat as Hij by div_lia.
  set (i := ((j - 1) / 2)%nat) in *.
  destruct (lookup_lt_is_Some_2 t j Hj) as [b Hb].
  destruct (lookup_lt_is_Some_2 t i ltac:(lia)) as [a Ha].
  rewrite (Less_in_range t j i b a) by done. simpl.
  destruct (lessTask b a) eqn:Hlt; simpl.
  2:{ exists t. split_and!; try done.
      intros k Hk. destruct (decide (k = j)) as [->|nk]; [|by apply U1].
      intros a' b' Ha' Hb'. fold i in Ha'.
      assert (a' = a) by congruence. assert (b' = b) by congruence. by subst. }
  apply lessTask_leT in Hlt.
  destruct (Swap_in_range t i j a b Ha Hb) as (t' & -> & Hlen & Hk). simpl.
  assert (up_inv t' i) as Hinv; last first.
  { assert (i < fuel)%nat as Hif by lia.
    assert (i < length t')%nat as Hil by lia.
    destruct (IH t' i Hif Hil Hinv) as (t'' & Hup & Hok & Hperm & Hlen').
    exists t''. split; [exact Hup|]. split; [exact Hok|]. split; [|lia].
    rewrite Hperm. exact (Swap_contents t t' i j a b Ha Hb Hk). }
  split.
  - intros k Hkr Hki a0 b0 Ha0 Hb0. rewrite Hk in Ha0, Hb0.
    destruct (decide (k = j)) as [->|nkj].
    + fold i in Ha0. destruct (decide (i = j)); [lia|].
      destruct (decide (i = i)); [|done]. by simplify_eq.
    + destruct (decide (k = i)); [done|].
      destruct (decide (((k - 1) / 2)%nat = j)) as [ekj|nkj'].
      * simplify_eq. eapply (U2 k a b0); try done. div_lia.
      * destruct (decide (((k - 1) / 2)%nat = i)) as [eki|nki].
        -- simplify_eq. apply leT_setIndex with (i := 0) (j := 0).
           eapply leT_trans; [exact Hlt|].
           eapply (U1 k); try done; [lia|]. by rewrite eki.
        -- eapply (U1 k); try done. lia.
  - intros c a0 b0 Hi0 Hc0 Hci Ha0 Hb0. rewrite Hk in Ha0, Hb0.
    assert (((i - 1) / 2) < i)%nat by div_lia.
    destruct (decide (((i - 1) / 2)%nat = j)); [lia|].
    destruct (decide (((i - 1) / 2)%nat = i)); [lia|].
    assert (leT a0 a) as Ha0a.
    { eapply (U1 i); try done; lia. }
    destruct (decide (c = j)) as [->|ncj].
    + by simplify_eq.
    + destruct (decide (c = i)); [subst c; div_lia|].
      eapply leT_trans; [exact Ha0a|].
      assert (c < length t)%nat by (by eapply lookup_lt_Some).
      eapply (U1 c); [lia|done|by rewrite Hci|done].
Qed.

Lemma contents_snoc (t : dialQueueImpl) x :
  contents (t ++ [x]) ≡ₚ entryOf x :: contents t.
Proof. unfold contents. rewrite fmap_app. simpl. by rewrite Permutation_app_comm. Qed.

Lemma heap_Push_ok (t : dialQueueImpl) x :
  heap_ok t →
  ∃ t', heap_Push t x = Ok t' ∧ heap_ok t' ∧
        contents t' ≡ₚ entryOf x :: contents t ∧ length t' = S (length t).
Proof.
  intros Hok. unfold heap_Push, Push, up.
  set (x' := setIndex (Z.of_nat (length t)) x).
  assert (length (t ++ [x']) = S (length t)) as Hlen
    by (rewrite length_app; simpl; lia).
  rewrite Hlen. replace (S (length t) - 1)%nat with (length t) by lia.
  destruct (up_loop_ok (S (length t)) (t ++ [x']) (length t)) as (t' & Hup & Hok' & Hperm & Hlen');
    [lia|lia| |].
  2:{ exists t'. split; [done|]. split; [done|]. split; [|lia].
      rewrite Hperm. apply (contents_snoc t x'). }
  split.
  - intros k Hk Hne a b Ha Hb.
    rewrite lookup_app_l in Ha by div_lia.
    rewrite lookup_app_l in Hb by lia.
    eapply (Hok k); [lia|done|done].
  - intros c a b _ Hc Hcj _ Hb.
    apply lookup_lt_Some in Hb. div_lia.
Qed.

(** The child [down] compares with its parent is the smaller one. *)
Lemma down_min_child (t : dialQueueImpl) i n :
  (2 * i + 1 < n)%nat → (n ≤ length t)%nat →
  ∃ lt21 : bool,
    (if decide (2 * i + 1 + 1 < n)%nat then Less t (2 * i + 1 + 1) (2 * i + 1)
     else Ok false) = Ok lt21 ∧
    ∃ cj, t !! (if lt21 then 2 * i + 1 + 1 else 2 * i + 1)%nat = Some cj ∧
          ((if lt21 then 2 * i + 1 + 1 else 2 * i + 1) < n)%nat ∧
          (lt21 = true ∨ lt21 = false) ∧
          ∀ k ck, (0 < k < n)%nat → ((k - 1) / 2)%nat = i → t !! k = Some ck → leT cj ck.
Proof.
  intros H1 Hn.
  destruct (lookup_lt_is_Some_2 t (2 * i + 1)) as [c1 Hc1]; [lia|].
  destruct (decide (2 * i + 1 + 1 < n)%nat) as [H2|H2].
  - destruct (lookup_lt_is_Some_2 t (2 * i + 1 + 1)) as [c2 Hc2]; [lia|].
    rewrite (Less_in_range t _ _ c2 c1) by done.
    exists (lessTask c2 c1). split; [done|].
    destruct (lessTask c2 c1) eqn:Hlt.
    + exists c2. split; [done|]. split; [lia|]. split; [by left|].
      intros k ck Hk Hp Hck.
      assert (k = 2 * i + 1 ∨ k = 2 * i + 1 + 1)%nat as [->| ->] by div_lia.
      * assert (ck = c1) as -> by congruence. by apply lessTask_leT.
      * assert (ck = c2) as -> by congruence. apply leT_refl.
    + exists c1. split; [done|]. split; [lia|]. split; [by right|].
      intros k ck Hk Hp Hck.
      assert (k = 2 * i + 1 ∨ k = 2 * i + 1 + 1)%nat as [->| ->] by div_lia.
      * assert (ck = c1) as -> by congruence. apply leT_refl.
      * assert (ck = c2) as -> by congruence. exact Hlt.
  - exists false. split; [done|]. exists c1. split; [done|]. split; [lia|].
    split; [by right|].
    intros k ck Hk Hp Hck.
    assert (k = 2 * i + 1)%nat as -> by div_lia.
    assert (ck = c1) as -> by congruence. apply leT_refl.
Qed.

Lemma down_loop_ok fuel (t : dialQueueImpl) i n :
  (i ≤ n)%nat → (n < fuel + i)%nat → (n ≤ length t)%nat → down_inv t i n →
  ∃ t', down_loop fuel t i n = Ok t' ∧ heap_ok_on n t' ∧
        contents t' ≡ₚ contents t ∧ length t' = length t ∧
        ∀ k, (n ≤ k)%nat → t' !! k = t !! k.
Proof.
  revert t i. induction fuel as [|fuel IH]; intros t i Hin Hf Hn [D1 D2]; [lia|].
  simpl. destruct (decide (n ≤ 2 * i + 1)%nat) as [Hle|Hgt].
  { exists t. split; [done|]. split; [|done].
    intros k Hk. apply D1; [done|]. div_lia. }
  destruct (down_min_child t i n) as (lt21 & -> & cj & Hcj & Hjn & Hjcase & Hmin);
    [lia|done|]. simpl.
  set (j := (if lt21 then 2 * i + 1 + 1 else 2 * i + 1)%nat) in *.
  assert (((j - 1) / 2)%nat = i ∧ (i < j)%nat) as [Hpj Hij].
  { subst j. destruct Hjcase as [-> | ->]; div_lia. }
  destruct (lookup_lt_is_Some_2 t i) as [a Ha]; [lia|].
  rewrite (Less_in_range t j i cj a) by done. simpl.
  destruct (lessTask cj a) eqn:Hlt; simpl.
  2:{ exists t. split; [done|]. split; [|done].
      intros k Hk. destruct (decide (((k - 1) / 2)%nat = i)) as [e|ne]; [|by apply D1].
      intros a' b' Ha' Hb'. rewrite e in Ha'.
      assert (a' = a) as -> by congruence.
      eapply leT_trans; [exact Hlt|]. by eapply Hmin. }
  apply lessTask_leT in Hlt.
  destruct (Swap_in_range t i j a cj Ha Hcj) as (t' & -> & Hlen & Hk). simpl.
  assert (down_inv t' j n) as Hinv; last first.
  { assert (j ≤ n)%nat as Hjn' by lia.
    assert (n < fuel + j)%nat as Hfj by lia.
    assert (n ≤ length t')%nat as Hnl by lia.
    destruct (IH t' j Hjn' Hfj Hnl Hinv) as (t'' & Hd & Hok & Hperm & Hlen' & Hrest).
    exists t''. split; [exact Hd|]. split; [exact Hok|]. split; [|split; [lia|]].
    - rewrite Hperm. exact (Swap_contents t t' i j a cj Ha Hcj Hk).
    - intros k Hkn. rewrite Hrest, Hk by done.
      destruct (decide (k = j)); [lia|]. destruct (decide (k = i)); [lia|]. done. }
  split.
  - intros k Hkr Hkj a0 b0 Ha0 Hb0. rewrite Hk in Ha0, Hb0.
    destruct (decide (k = j)) as [->|nkj].
    + rewrite Hpj in Ha0. destruct (decide (i = j)); [lia|].
      destruct (decide (i = i)); [|done]. by simplify_eq.
    + destruct (decide (((k - 1) / 2)%nat = j)); [done|].
      destruct (decide (k = i)) as [->|nki].
      * assert (((i - 1) / 2) < i)%nat by div_lia.
        destruct (decide (((i - 1) / 2)%nat = i)); [lia|].
        simplify_eq. apply leT_setIndex with (i := 0) (j := 0).
        eapply (D2 j a0 cj); try done; lia.
      * destruct (decide (((k - 1) / 2)%nat = i)) as [eki|nki'].
        -- simplify_eq. apply leT_setIndex with (i := 0) (j := 0).
           by eapply Hmin.
        -- eapply (D1 k); done.
  - intros c a0 b0 Hj0 Hc Hcj' Ha0 Hb0. rewrite Hk in Ha0, Hb0.
    rewrite Hpj in Ha0. destruct (decide (i = j)); [lia|].
    destruct (decide (i = i)); [|done].
    destruct (decide (c = j)); [subst c; div_lia|].
    destruct (decide (c = i)); [subst c; div_lia|].
    simplify_eq. apply leT_setIndex with (i := 0) (j := 0).
    eapply (D1 c); [done| |by rewrite Hcj'|done]. lia.
Qed.

Lemma heap_root_min (t : dialQueueImpl) r :
  heap_ok t → t !! 0%nat = Some r → ∀ k y, t !! k = Some y → leT r y.
Proof.
  intros Hok Hr k. induction (lt_wf k) as [k _ IH]. intros y Hy.
  destruct (decide (k = 0%nat)) as [->|nk].
  { assert (y = r) as -> by congruence. apply leT_refl. }
  assert (k < length t)%nat as Hkl by (by eapply lookup_lt_Some).
  assert (((k - 1) / 2) < k)%nat as Hpk by div_lia.
  destruct (lookup_lt_is_Some_2 t ((k - 1) / 2)) as [p Hp]; [lia|].
  eapply leT_trans; [by eapply (IH _ Hpk)|].
  eapply (Hok k); [lia|done|done].
Qed.

Lemma heap_Pop_ok (t : dialQueueImpl) :
  heap_ok t → t ≠ [] →
  ∃ r x t', t !! 0%nat = Some r ∧ heap_Pop t = Ok (x, t') ∧ x = setIndex (-1) r ∧
            heap_ok t' ∧ entryOf x :: contents t' ≡ₚ contents t ∧
            length t = S (length t').
Proof.
  intros Hok Hne. unfold heap_Pop.
  assert (0 < length t)%nat as Hlen by (destruct t; simpl; [done|lia]).
  set (n := (length t - 1)%nat).
  destruct (lookup_lt_is_Some_2 t 0) as [r Hr]; [lia|].
  destruct (lookup_lt_is_Some_2 t n) as [l Hl]; [lia|].
  destruct (Swap_in_range t 0 n r l Hr Hl) as (t1 & -> & Hlen1 & Hk1). simpl.
  unfold down.
  destruct (down_loop_ok (S n) t1 0 n) as (t2 & -> & Hok2 & Hperm2 & Hlen2 & Hrest);
    [lia|lia|lia| |].
  { split; [|intros; lia].
    intros k Hk Hp a b Ha Hb. rewrite Hk1 in Ha, Hb.
    destruct (decide (k = n)); [lia|]. destruct (decide (k = 0%nat)); [lia|].
    destruct (decide (((k - 1) / 2)%nat = n)); [div_lia|].
    destruct (decide (((k - 1) / 2)%nat = 0)%nat); [done|].
    eapply (Hok k); [lia|done|done]. }
  simpl. unfold Pop, at_index.
  assert (t2 !! n = Some (setIndex (Z.of_nat n) r)) as Hn2.
  { rewrite Hrest, Hk1 by lia. by destruct (decide (n = n)). }
  rewrite Hlen2, Hlen1. fold n. rewrite Hn2. simpl.
  exists r, (setIndex (-1) r), (take n t2).
  split; [done|]. split; [done|]. split; [done|].
  assert (length (take n t2) = n) as Hlt by (rewrite length_take; lia).
  split; [|split; [|lia]].
  - intros k Hk a b Ha Hb. rewrite Hlt in Hk.
    rewrite lookup_take_lt in Ha by div_lia.
    rewrite lookup_take_lt in Hb by lia.
    eapply (Hok2 k); [lia|done|done].
  - rewrite <- (Swap_contents t t1 0 n r l Hr Hl Hk1), <- Hperm2.
    assert (t2 = take n t2 ++ [setIndex (Z.of_nat n) r]) as Ht2.
    { rewrite <- (take_S_r _ _ _ Hn2). symmetry. apply take_ge. lia. }
    rewrite Ht2 at 2. by rewrite contents_snoc.
Qed.

(** ** The pool invariant *)

Lemma ptrs_elem (h : dialQueueImpl) p :
  p ∈ ptrs h ↔ ∃ e, e ∈ h ∧ nodePtr (addr e) = p.
Proof.
  unfold ptrs, contents. rewrite <- list_fmap_compose, list_elem_of_fmap.
  split; intros (e & H1 & H2); exists e; by split.
Qed.

Lemma Len_ok d : pool_ok d → Len d = Z.of_nat (length (heap d)).
Proof.
  intros [_ Hnd Hit]. unfold Len. rewrite Hit, size_list_to_set by done.
  unfold ptrs, contents. by rewrite !length_fmap.
Qed.

Lemma newDialQueue_ok : pool_ok newDialQueue.
Proof.
  split; simpl.
  - intros k Hk. simpl in Hk. lia.
  - constructor.
  - done.
Qed.

Lemma add_present d a s p now :
  nodePtr a ∈ items d → add d a s p now = Ok d.
Proof. intros Hin. unfold add. by rewrite decide_True. Qed.

Lemma add_absent d a s p now :
  pool_ok d → nodePtr a ∉ items d →
  ∃ d', add d a s p now = Ok d' ∧ pool_ok d' ∧
        contents (heap d') ≡ₚ (a, now, s, p) :: contents (heap d) ∧
        Len d' = Len d + 1.
Proof.
  intros Hok Hnin. unfold add. rewrite decide_False by done.
  destruct Hok as [Hh Hnd Hit].
  destruct (heap_Push_ok (heap d)
              {| index := 0; addr := a; insertTime := now; isStatic := s; priority := p |} Hh)
    as (h' & -> & Hh' & Hperm & Hlen).
  simpl. eexists. split; [done|].
  assert (pool_ok {| heap := h'; items := {[nodePtr a]} ∪ items d |}) as Hok'.
  { split; simpl.
    - done.
    - unfold ptrs. rewrite Hperm. simpl. constructor; [|done].
      unfold entryPtr at 1. simpl. fold (ptrs (heap d)).
      intros Hin. apply Hnin. rewrite Hit. by apply elem_of_list_to_set.
    - unfold ptrs. rewrite Hperm. simpl. by rewrite Hit. }
  split; [done|]. split; [done|].
  rewrite (Len_ok _ Hok'), (Len_ok d) by done. simpl. lia.
Qed.

Lemma popImpl_empty d : heap d = [] → popImpl d = Ok (None, d).
Proof. intros He. unfold popImpl. by rewrite He. Qed.

Lemma popImpl_nonempty d :
  pool_ok d → heap d ≠ [] →
  ∃ x d', popImpl d = Ok (Some x, d') ∧ pool_ok d' ∧
          entryOf x :: contents (heap d') ≡ₚ contents (heap d) ∧
          (∀ y, y ∈ heap d → leT x y) ∧
          Len d' = Len d - 1.
Proof.
  intros Hok Hne. pose proof Hok as [Hh Hnd Hit].
  destruct (heap_Pop_ok (heap d) Hh Hne) as (r & x & h' & Hr & Hpop & -> & Hh' & Hperm & Hlen).
  unfold popImpl. rewrite decide_True by (destruct (heap d); simpl; [done|lia]).
  rewrite Hpop. simpl.
  assert (NoDup (entryPtr (entryOf r) :: ptrs h')) as Hnd'.
  { unfold ptrs in *. rewrite <- Hperm in Hnd. exact Hnd. }
  apply NoDup_cons in Hnd' as [Hnin Hnd'].
  assert (pool_ok {| heap := h'; items := items d ∖ {[nodePtr (addr r)]} |}) as Hok'.
  { split; simpl; [done|done|].
    rewrite Hit. unfold ptrs at 1. rewrite <- Hperm. simpl.
    change (entryPtr (entryOf (setIndex (-1) r))) with (nodePtr (addr r)).
    fold (ptrs h').
    apply set_eq. intros z.
    rewrite elem_of_difference, elem_of_union, elem_of_singleton, !elem_of_list_to_set.
    fold (ptrs h'). split; [tauto|]. intros Hz. split; [by right|]. by intros ->. }
  eexists _, _. split; [done|]. split; [exact Hok'|]. split; [done|]. split.
  - intros y Hy. apply list_elem_of_lookup in Hy as [k Hk].
    change (leT r y). exact (heap_root_min _ _ Hh Hr k y Hk).
  - rewrite (Len_ok _ Hok'), (Len_ok d) by done. simpl. lia.
Qed.

Lemma reachable_ok d : reachable d → pool_ok d.
Proof.
  induction 1 as [|d a s p now d' _ IH Hadd|d r d' _ IH Hpop].
  - apply newDialQueue_ok.
  - destruct (decide (nodePtr a ∈ items d)) as [Hin|Hnin].
    + rewrite add_present in Hadd by done. by simplify_eq.
    + destruct (add_absent d a s p now IH Hnin) as (d'' & Hadd' & Hok & _).
      rewrite Hadd in Hadd'. by simplify_eq.
  - destruct (decide (heap d = [])) as [He|Hne].
    + rewrite popImpl_empty in Hpop by done. by simplify_eq.
    + destruct (popImpl_nonempty d IH Hne) as (x & d'' & Hpop' & Hok & _).
      rewrite Hpop in Hpop'. by simplify_eq.
Qed.

(** Draining a pool gives its entries in sorted order. *)
Lemma drain_sorted fuel d :
  pool_ok d → (length (heap d) < fuel)%nat →
  ∃ l, drain fuel d = Ok l ∧ entryOf <$> l ≡ₚ contents (heap d) ∧
       StronglySorted leT l.
Proof.
  revert d. induction fuel as [|fuel IH]; intros d Hok Hf; [lia|].
  simpl. destruct (decide (heap d = [])) as [He|Hne].
  { rewrite popImpl_empty by done. simpl. exists []. rewrite He.
    split; [done|]. split; [done|]. constructor. }
  destruct (popImpl_nonempty d Hok Hne) as (x & d' & -> & Hok' & Hperm & Hmin & HLen).
  simpl.
  assert (length (heap d') < fuel)%nat as Hf'.
  { rewrite (Len_ok _ Hok'), (Len_ok d) in HLen by done. lia. }
  destruct (IH d' Hok' Hf') as (l & -> & Hl & Hsorted). simpl.
  exists (x :: l). split; [done|]. split.
  - simpl. by rewrite Hl.
  - constructor; [done|]. apply Forall_forall. intros y Hy.
    assert (entryOf y ∈ contents (heap d)) as Hyin.
    { rewrite <- Hperm, <- Hl. right. by apply list_elem_of_fmap_2. }
    apply list_elem_of_fmap in Hyin as (y' & Hyy & Hy').
    specialize (Hmin y' Hy'). revert Hmin. rewrite !leT_spec.
    unfold entryOf in Hyy. injection Hyy as _ -> _ ->. done.
Qed.

(** ** The pool: one entry per node, and the order of pops *)

(** C8: in every state of the pool no two entries hold the same node (a
    node is a [*enode.Node] reference, the key of [items]); [add] for a
    node that has an entry leaves the pool as it is, and for a node
    without one it adds exactly one entry, stamped with the current time,
    and the size grows by one. *)
Theorem add_one_entry_per_node (d : dialQueue) (a : Node) (s : bool) (p : N) (now : Time) :
  reachable d →
  NoDup ((λ e, nodePtr (addr e)) <$> heap d) ∧
  ((∃ e, e ∈ heap d ∧ nodePtr (addr e) = nodePtr a) → add d a s p now = Ok d) ∧
  ((∀ e, e ∈ heap d → nodePtr (addr e) ≠ nodePtr a) →
     ∃ d', add d a s p now = Ok d' ∧ reachable d' ∧
           contents (heap d') ≡ₚ (a, now, s, p) :: contents (heap d) ∧
           Len d' = Len d + 1 ∧
           NoDup ((λ e, nodePtr (addr e)) <$> heap d')).
Proof.
  intros Hr. pose proof (reachable_ok d Hr) as Hok.
  assert (∀ q, pool_ok q → NoDup ((λ e, nodePtr (addr e)) <$> heap q)) as Hnd.
  { intros q [_ Hq _]. unfold ptrs, contents in Hq.
    by rewrite <- list_fmap_compose in Hq. }
  assert (nodePtr a ∈ items d ↔ ∃ e, e ∈ heap d ∧ nodePtr (addr e) = nodePtr a) as Hin.
  { rewrite (pool_items d Hok), elem_of_list_to_set. apply ptrs_elem. }
  split; [by apply Hnd|]. split.
  - intros He. apply add_present. by apply Hin.
  - intros Hne.
    destruct (add_absent d a s p now Hok) as (d' & Hadd & Hok' & Hperm & HLen).
    { rewrite Hin. intros (e & He & Hp). by eapply Hne. }
    exists d'. split; [done|]. split; [by eapply reach_add|].
    split; [done|]. split; [done|]. by apply Hnd.
Qed.

Lemma add_one_entry_per_node_witness :
  ∃ d', add newDialQueue nA false normalPriority 7 = Ok d' ∧ Len d' = 1.
Proof.
  destruct (add_one_entry_per_node newDialQueue nA false normalPriority 7 reach_new)
    as (_ & _ & H).
  destruct H as (d' & Hadd & _ & _ & HLen & _).
  { intros e He. simpl in He. by apply elem_of_nil in He. }
  exists d'. split; [exact Hadd|exact HLen].
Defined.

(** Two references to one and the same identifier are two nodes to the
    pool: each gets its entry. *)
Lemma add_same_id_two_pointers :
  ∃ d, addAll [(mkNode 1%N 101%N None 0, false, normalPriority, 7);
               (mkNode 2%N 101%N None 0, false, normalPriority, 8)] newDialQueue = Ok d
       ∧ Len d = 2.
Proof. eexists. split; vm_compute; reflexivity. Qed.

(** Three entries of one priority, added one after the other within one
    reading of the clock, leave the pool first, third, second. *)
Example drain_equal_stamps :
  (q ← addAll [(nA, false, normalPriority, 7); (nB, false, normalPriority, 7);
               (nC, false, normalPriority, 7)] newDialQueue;
   out ← drain 4 q;
   Ok (addr <$> (out : list dialTask2))) = Ok [nA; nC; nB].
Proof. vm_compute. reflexivity. Qed.

(** C4, as stated, fails: three entries of one priority added within one
    reading of the clock leave the pool first, third, second. *)
Lemma fifo_by_insertion_fails : ¬ fifo_by_insertion.
Proof.
  intros Hclaim.
  assert (∃ q out, addAll ((λ x, (x.1, false, normalPriority, x.2))
                             <$> [(nA, 7); (nB, 7); (nC, 7)]) newDialQueue = Ok q ∧
                   drain 4 q = Ok out ∧ addr <$> out = [nA; nC; nB])
    as (q & out & Hadd & Hdrain & Hout).
  { eexists _, _. split; [vm_compute; reflexivity|].
    split; vm_compute; reflexivity. }
  assert (addr <$> out = [nA; nB; nC]) as Hfifo.
  { apply (Hclaim [(nA, 7); (nB, 7); (nC, 7)] normalPriority q out); try done.
    - by apply (bool_decide_unpack _).
    - simpl. repeat (constructor; [repeat constructor; lia|]). constructor. }
  rewrite Hout in Hfifo. discriminate.
Qed.

Lemma addAll_cons x l d :
  addAll (x :: l) d = (d' ← add d x.1.1.1 x.1.1.2 x.1.2 x.2; addAll l d').
Proof.
  unfold addAll. simpl. destruct x as [[[a s] p] tm]. simpl.
  destruct (add d a s p tm) as [d'| |]; [done| |].
  - induction l as [|[[[a' s'] p'] tm'] l IH] using rev_ind; [done|].
    by rewrite foldl_snoc, IH.
  - induction l as [|[[[a' s'] p'] tm'] l IH] using rev_ind; [done|].
    by rewrite foldl_snoc, IH.
Qed.

Lemma addAll_contents l d :
  pool_ok d →
  NoDup ((λ x, nodePtr x.1.1.1) <$> l) →
  (∀ x, x ∈ l → nodePtr x.1.1.1 ∉ items d) →
  ∃ q, addAll l d = Ok q ∧ pool_ok q ∧
       contents (heap q) ≡ₚ ((λ x, (x.1.1.1, x.2, x.1.1.2, x.1.2)) <$> l) ++ contents (heap d).
Proof.
  revert d. induction l as [|x l IH]; intros d Hok Hnd Hfresh.
  { exists d. by split. }
  rewrite addAll_cons. simpl in Hnd. apply NoDup_cons in Hnd as [Hx Hnd].
  destruct (add_absent d x.1.1.1 x.1.1.2 x.1.2 x.2 Hok) as (d' & Hadd & Hok' & Hperm & _).
  { apply Hfresh. by left. }
  rewrite Hadd. simpl.
  assert (items d' = {[nodePtr x.1.1.1]} ∪ items d) as Hitems.
  { unfold add in Hadd. rewrite decide_False in Hadd by (apply Hfresh; by left).
    destruct (heap_Push _ _); simpl in Hadd; by simplify_eq. }
  destruct (IH d' Hok' Hnd) as (q & Hq & Hokq & Hpermq).
  { intros y Hy. rewrite Hitems. intros [Heq|Hin]%elem_of_union.
    - apply elem_of_singleton in Heq. apply Hx.
      apply list_elem_of_fmap. by exists y.
    - revert Hin. apply Hfresh. by right. }
  exists q. split; [done|]. split; [done|].
  rewrite Hpermq, Hperm. simpl. by rewrite Permutation_middle.
Qed.

Lemma leT_leE a b : leT a b → leE (entryOf a) (entryOf b).
Proof. rewrite leT_spec. done. Qed.

Lemma sorted_lt_inj {A} (f : A → Z) (l : list A) x y :
  StronglySorted Z.lt (f <$> l) → x ∈ l → y ∈ l → f x = f y → x = y.
Proof.
  induction l as [|z l IH]; intros Hs Hx Hy Hf; [by apply elem_of_nil in Hx|].
  simpl in Hs. apply StronglySorted_inv in Hs as [Hs Hall].
  rewrite Forall_forall in Hall.
  apply elem_of_cons in Hx as [->|Hx]; apply elem_of_cons in Hy as [->|Hy]; try done.
  - specialize (Hall (f y) (list_elem_of_fmap_2 f _ _ Hy)). lia.
  - specialize (Hall (f x) (list_elem_of_fmap_2 f _ _ Hx)). lia.
  - by apply IH.
Qed.

(** Entries of one priority whose stamps strictly increase leave the pool
    in the order they were added. *)
Lemma fifo_on_distinct_stamps (l : list (Node * Time)) (prio : N) :
  NoDup ((λ x, nodePtr x.1) <$> l) →
  StronglySorted Z.lt (snd <$> l) →
  ∃ q out,
    addAll ((λ x, (x.1, false, prio, x.2)) <$> l) newDialQueue = Ok q ∧
    drain (S (length l)) q = Ok out ∧
    addr <$> out = fst <$> l.
Proof.
  intros Hnd Hs.
  set (L := (λ x : Node * Time, (x.1, false, prio, x.2)) <$> l).
  destruct (addAll_contents L newDialQueue newDialQueue_ok) as (q & Hq & Hok & Hperm).
  { unfold L. by rewrite <- list_fmap_compose. }
  { intros x _. simpl. set_solver. }
  simpl in Hperm. rewrite app_nil_r in Hperm.
  unfold L in Hperm. rewrite <- list_fmap_compose in Hperm.
  set (toE := (λ x : Node * Time, (x.1, x.2, false, prio)) : Node * Time → entry).
  change (contents (heap q) ≡ₚ toE <$> l) in Hperm.
  assert (length (heap q) = length l) as Hlen.
  { apply Permutation_length in Hperm. unfold contents in Hperm.
    by rewrite !length_fmap in Hperm. }
  destruct (drain_sorted (S (length l)) q Hok) as (out & Hout & Hpo & Hso); [lia|].
  exists q, out. split; [done|]. split; [done|].
  assert (entryOf <$> out = toE <$> l) as Heq.
  { apply (StronglySorted_unique_strong leE).
    - intros x1 x2 Hx1 Hx2 H12 H21.
      rewrite Hpo, Hperm in Hx1.
      apply list_elem_of_fmap in Hx1 as (y1 & -> & Hy1).
      apply list_elem_of_fmap in Hx2 as (y2 & -> & Hy2).
      assert (y1 = y2) as ->; [|done].
      apply (sorted_lt_inj snd l); try done.
      destruct y1 as [a1 t1], y2 as [a2 t2].
      unfold leE in H12, H21. subst toE. simpl in *. lia.
    - apply (StronglySorted_fmap entryOf leT); [apply leT_leE|done].
    - unfold toE. clear -Hs. induction l as [|x l IH]; [constructor|].
      simpl in *. apply StronglySorted_inv in Hs as [Hs Hall].
      constructor; [by apply IH|].
      apply Forall_forall. intros e He.
      apply list_elem_of_fmap in He as (y & -> & Hy).
      pose proof (proj1 (Forall_forall _ _) Hall y.2 (list_elem_of_fmap_2 snd _ _ Hy)).
      unfold leE. simpl. lia.
    - by rewrite Hpo. }
  assert (addr <$> out = (λ e : entry, e.1.1.1) <$> (entryOf <$> out)) as ->
    by (by rewrite <- list_fmap_compose).
  rewrite Heq. unfold toE. by rewrite <- list_fmap_compose.
Qed.

(** C4, amended: the pool is ordered by priority, then insertion time.
    Popping an empty pool gives nil. Popping a pool with entries removes
    one entry, of least priority value and, among those, of earliest
    insertion time; so no dynamic entry is popped while a static one is
    in the pool, and no entry is popped while one of its priority with a
    strictly earlier stamp is in the pool. Draining the pool gives its
    entries sorted by that key. Entries of one priority whose stamps
    strictly increase are popped in the order they were added; entries of
    one priority and one stamp are popped in no fixed order. *)
Theorem popImpl_least_key (d : dialQueue) :
  reachable d →
  (heap d = [] → popImpl d = Ok (None, d)) ∧
  (heap d ≠ [] →
     ∃ x d', popImpl d = Ok (Some x, d') ∧
       entryOf x :: contents (heap d') ≡ₚ contents (heap d) ∧
       (∀ y, y ∈ heap d →
          (priority x ≤ priority y)%N ∧
          (priority y = priority x → insertTime x ≤ insertTime y)) ∧
       (∀ y, y ∈ heap d → priority y = staticPriority → priority x ≠ normalPriority) ∧
       (∀ y, y ∈ heap d →
          priority y = priority x → insertTime y < insertTime x → False)) ∧
  (∃ out, drain (S (length (heap d))) d = Ok out ∧
          entryOf <$> out ≡ₚ contents (heap d) ∧ StronglySorted leT out) ∧
  (∀ (l : list (Node * Time)) (prio : N),
     NoDup ((λ x, nodePtr x.1) <$> l) →
     StronglySorted Z.lt (snd <$> l) →
     ∃ q out,
       addAll ((λ x, (x.1, false, prio, x.2)) <$> l) newDialQueue = Ok q ∧
       drain (S (length l)) q = Ok out ∧
       addr <$> out = fst <$> l).
Proof.
  intros Hr. pose proof (reachable_ok d Hr) as Hok.
  split; [apply popImpl_empty|]. split; [|split].
  - intros Hne.
    destruct (popImpl_nonempty d Hok Hne) as (x & d' & Hpop & _ & Hperm & Hmin & _).
    exists x, d'. split; [done|]. split; [done|].
    assert (∀ y, y ∈ heap d →
              (priority x ≤ priority y)%N ∧
              (priority y = priority x → insertTime x ≤ insertTime y)) as Hkey.
    { intros y Hy. specialize (Hmin y Hy). apply leT_spec in Hmin. lia. }
    split; [done|]. split.
    + intros y Hy Hs Hn. destruct (Hkey y Hy) as [Hle _].
      rewrite Hs, Hn in Hle. vm_compute in Hle. by apply Hle.
    + intros y Hy Hp Ht. destruct (Hkey y Hy) as [_ Hle]. specialize (Hle Hp). lia.
  - apply drain_sorted; [done|lia].
  - intros l prio. apply fifo_on_distinct_stamps.
Qed.

Lemma popImpl_least_key_witness :
  ∃ q x q',
    addAll [(nA, false, normalPriority, 7); (nB, true, staticPriority, 8)] newDialQueue
      = Ok q ∧
    popImpl q = Ok (Some x, q') ∧ priority x ≠ normalPriority.
Proof.
  assert (∃ q1 q, add newDialQueue nA false normalPriority 7 = Ok q1 ∧
                  add q1 nB true staticPriority 8 = Ok q ∧
                  heap q ≠ [] ∧
                  mkDialTask2 0 nB 8 true staticPriority ∈ heap q)
    as (q1 & q & Hadd1 & Hadd2 & Hne & Hin).
  { eexists _, _. split; [vm_compute; reflexivity|].
    split; [vm_compute; reflexivity|]. split; [discriminate|]. by left. }
  assert (reachable q) as Hr.
  { eapply reach_add; [|exact Hadd2]. eapply reach_add; [|exact Hadd1]. constructor. }
  destruct (popImpl_least_key q Hr) as (_ & H & _).
  destruct (H Hne) as (x & q' & Hpop & _ & _ & Hst & _).
  exists q, x, q'. split.
  - unfold addAll. simpl. rewrite Hadd1. simpl. exact Hadd2.
  - split; [exact Hpop|]. exact (Hst _ Hin eq_refl).
Defined.

(** ** The scheduler: admission, capacity, the history callback *)

(** C10: [Enqueue], the callback the scheduler offers to the dispatcher
    of the history, panics on every input: its outcome is never a value. *)
Theorem Enqueue_always_panics {Env} (d : dialScheduler Env) (h : HeapNode) :
  Enqueue d h = Panic "x" ∧
  match Enqueue d h with
  | Ok _ => False
  | Panic _ => True
  | OutOfFuel => False
  end.
Proof. split; reflexivity. Qed.

Lemma wrap64_small z : - 2 ^ 63 ≤ z < 2 ^ 63 → wrap64 z = z.
Proof. intros Hz. unfold wrap64. rewrite Z.mod_small by lia. lia. Qed.

Lemma wrap64_range z : - 2 ^ 63 ≤ wrap64 z < 2 ^ 63.
Proof. unfold wrap64. pose proof (Z.mod_pos_bound (z + 2 ^ 63) (2 ^ 64)). lia. Qed.

(** C2: [freeDialSlots] is min(maxActiveDials, (maxDialPeers - dialPeers) * 2)
    less the in-flight dials: in Go's [int] arithmetic for every state, and
    over the integers while that arithmetic stays in range. The result can
    be negative, and with no free slot [startStaticDials] launches nothing
    and returns. With maxDialPeers = 3 and maxActiveDials = 10 it is 6 at
    no dialed peers and no dials in flight, and at most 0 at 3 dialed
    peers. *)
Theorem freeDialSlots_formula {Env} (d : dialScheduler Env) :
  freeDialSlots d =
    wrap64 (Z.min (maxActiveDials (config d))
                  (wrap64 (wrap64 (maxDialPeers (config d) - dialPeers d) * 2))
            - Z.of_nat (size (dialing d))) ∧
  (- 2 ^ 60 ≤ maxDialPeers (config d) < 2 ^ 60 →
   - 2 ^ 60 ≤ dialPeers d < 2 ^ 60 →
   - 2 ^ 62 ≤ maxActiveDials (config d) < 2 ^ 62 →
   Z.of_nat (size (dialing d)) < 2 ^ 62 →
   freeDialSlots d =
     freeDialSlots_spec (maxActiveDials (config d)) (maxDialPeers (config d))
                        (dialPeers d) (Z.of_nat (size (dialing d)))) ∧
  (maxDialPeers (config d) = 3 → maxActiveDials (config d) = 10 →
   (dialPeers d = 0 → dialing d = ∅ → freeDialSlots d = 6) ∧
   (dialPeers d = 3 → Z.of_nat (size (dialing d)) < 2 ^ 62 → freeDialSlots d ≤ 0)) ∧
  (maxDialPeers (config d) = 1 → maxActiveDials (config d) = 10 →
   dialPeers d = 2 → dialing d = ∅ → freeDialSlots d < 0) ∧
  (freeDialSlots d ≤ 0 → ∀ w, startStaticDials d w = Ok ((d, (0, [])), w)).
Proof.
  assert (freeDialSlots d =
    wrap64 (Z.min (maxActiveDials (config d))
                  (wrap64 (wrap64 (maxDialPeers (config d) - dialPeers d) * 2))
            - Z.of_nat (size (dialing d)))) as Hgo.
  { unfold freeDialSlots. cbv zeta.
    set (s := wrap64 (wrap64 (maxDialPeers (config d) - dialPeers d) * 2)).
    case_bool_decide; [rewrite Z.min_l by lia|rewrite Z.min_r by lia]; done. }
  split; [exact Hgo|]. split; [|split; [|split]].
  - intros H1 H2 H3 H4. rewrite Hgo. unfold freeDialSlots_spec.
    rewrite (wrap64_small (maxDialPeers (config d) - dialPeers d)) by lia.
    rewrite (wrap64_small ((maxDialPeers (config d) - dialPeers d) * 2)) by lia.
    apply wrap64_small. lia.
  - intros Hm Ha. rewrite Hgo, Hm, Ha. split.
    + intros -> ->. reflexivity.
    + intros -> Hs. replace (3 - 3) with 0 by lia.
      change (wrap64 (wrap64 0 * 2)) with 0.
      rewrite wrap64_small; lia.
  - intros Hm Ha Hd Hs. rewrite Hgo, Hm, Ha, Hd, Hs. reflexivity.
  - intros Hneg w. unfold startStaticDials. simpl.
    by rewrite (bool_decide_false (0 < freeDialSlots d)) by lia.
Qed.

Lemma freeDialSlots_formula_witness :
  freeDialSlots (simScheduler None) = 6.
Proof.
  destruct (freeDialSlots_formula (simScheduler None)) as (_ & H & _).
  rewrite H; [reflexivity| | | |]; vm_compute; split; try discriminate; reflexivity.
Defined.

(** C1: [checkDial] tests, in this order, self, an IP without a TCP port,
    an in-flight dial, a connected peer, the netrestrict list and the dial
    history; the first condition that holds decides the error, and a node
    with no condition holding is admitted. A node without an IP is never
    refused for its port. *)
Theorem checkDial_order {Env} (d : dialScheduler Env) (n : Node) :
  let isSelf := Node_ID n = self (config d) in
  let noPort := Node_IP n ≠ None ∧ Node_TCP n = 0 in
  let isDialing := Node_ID n ∈ dialing d in
  let isPeer := Node_ID n ∈ peers d in
  let restricted := ∃ l, netRestrict (config d) = Some l ∧ Contains l (Node_IP n) = false in
  let recent := ContainsID (history d) (Node_ID n) = true in
  (isSelf → checkDial d n = Some errSelf) ∧
  (¬ isSelf → noPort → checkDial d n = Some errNoPort) ∧
  (¬ isSelf → ¬ noPort → isDialing → checkDial d n = Some errAlreadyDialing) ∧
  (¬ isSelf → ¬ noPort → ¬ isDialing → isPeer →
     checkDial d n = Some errAlreadyConnected) ∧
  (¬ isSelf → ¬ noPort → ¬ isDialing → ¬ isPeer → restricted →
     checkDial d n = Some errNetRestrict) ∧
  (¬ isSelf → ¬ noPort → ¬ isDialing → ¬ isPeer → ¬ restricted → recent →
     checkDial d n = Some errRecentlyDialed) ∧
  (¬ isSelf → ¬ noPort → ¬ isDialing → ¬ isPeer → ¬ restricted → ¬ recent →
     checkDial d n = None) ∧
  (Node_IP n = None → checkDial d n ≠ Some errNoPort).
Proof.
  intros isSelf noPort isDialing isPeer restricted recent.
  assert ((match netRestrict (config d) with
           | Some l => negb (Contains l (Node_IP n))
           | None => false
           end) = true ↔ restricted) as Hr.
  { unfold restricted. destruct (netRestrict (config d)) as [l|].
    - rewrite negb_true_iff. split; [intros; by exists l|].
      intros (l' & Hl & Hc). by simplify_eq.
    - split; [done|]. by intros (l' & Hl & _). }
  unfold checkDial. subst isSelf noPort isDialing isPeer recent.
  repeat case_decide;
    destruct (match netRestrict (config d) with
              | Some l => negb (Contains l (Node_IP n))
              | None => false
              end) eqn:Hm;
    destruct (ContainsID (history d) (Node_ID n)) eqn:Hc;
    split_and!; intros; try done; try tauto;
    try (exfalso; (apply Hr in Hm || (assert (restricted) as Hx by done; apply Hr in Hx));
         congruence).
Qed.

Lemma checkDial_order_witness :
  checkDial (simScheduler None) nA = None.
Proof.
  destruct (checkDial_order (simScheduler None) nA) as (_ & _ & _ & _ & _ & _ & H & _).
  apply H.
  - vm_compute. discriminate.
  - intros [H1 _]. by apply H1.
  - vm_compute. set_solver.
  - vm_compute. set_solver.
  - intros (l & Hl & _). discriminate.
  - vm_compute. discriminate.
Defined.

(** ** Launching dials from the pool *)

Lemma set_staticPool_id {Env} (d : dialScheduler Env) :
  set_staticPool (staticPool d) d = d.
Proof. by destruct d. Qed.

Lemma Len_pos d : pool_ok d → Len d > 0 → heap d ≠ [].
Proof. intros Hok. rewrite (Len_ok d Hok). by destruct (heap d). Qed.

Lemma startStaticDials_loop_ok {Env} fuel (d0 : dialScheduler Env) H0 q n started res w :
  pool_ok q → (length (heap q) < fuel)%nat →
  (∀ e, e ∈ contents (heap q) → e ∈ H0) →
  launched d0 H0 res w →
  ∃ q' started' res' w',
    startStaticDials_loop fuel (set_staticPool q d0) n started res w
      = Ok ((set_staticPool q' d0, (started', res')), w') ∧
    pool_ok q' ∧ launched d0 H0 res' w'.
Proof.
  revert q started res w.
  induction fuel as [|fuel IH]; intros q started res w Hok Hf Hsub Hl; [lia|].
  simpl. destruct (bool_decide (started < n) && bool_decide (Len q > 0)) eqn:Hc; last first.
  { by exists q, started, res, w. }
  apply andb_true_iff in Hc as [_ HLen]. apply bool_decide_eq_true in HLen.
  destruct (popImpl_nonempty q Hok (Len_pos q Hok HLen))
    as (x & q' & Hpop & Hok' & Hperm & _ & HLen').
  unfold mbind, M_bind, liftO. rewrite Hpop.
  assert (length (heap q') < fuel)%nat as Hf'.
  { rewrite (Len_ok _ Hok'), (Len_ok q) in HLen' by done. lia. }
  assert (∀ e, e ∈ contents (heap q') → e ∈ H0) as Hsub'.
  { intros e He. apply Hsub. rewrite <- Hperm. by right. }
  assert (entryOf x ∈ H0) as Hx.
  { apply Hsub. rewrite <- Hperm. by left. }
  change (set_staticPool q' (set_staticPool q d0)) with (set_staticPool q' d0).
  simpl.
  destruct (isStatic x && negb (bool_decide (Node_ID (addr x) ∈ static d0))) eqn:Hst.
  { by apply IH. }
  destruct (bool_decide (Node_ID (addr x) ∈ peers d0)) eqn:Hpe.
  { by apply IH. }
  change (checkDial (set_staticPool q' d0) (addr x)) with (checkDial d0 (addr x)).
  destruct (checkDial d0 (addr x)) eqn:Hcd.
  { by apply IH. }
  apply bool_decide_eq_false in Hpe.
  assert (isStatic x = true → Node_ID (addr x) ∈ static d0) as Hst'.
  { intros Hs. rewrite Hs in Hst. simpl in Hst.
    apply negb_false_iff, bool_decide_eq_true in Hst. done. }
  set (flag := if isStatic x then staticDialedConn else dynDialedConn).
  set (t := {| flags := flag; dest := addr x; lastResolved := 0; resolveDelay := 0 |}).
  set (p := fresh (dom (tasks w))).
  set (w1 := mkWorld (env w) (<[p := t]> (tasks w)) (doneCh w) (trace w)).
  assert ((if isStatic x then newDialTask (addr x) staticDialedConn
           else newDialTask (addr x) dynDialedConn) w = Ok (p, w1)) as ->.
  { unfold flag in t. by destruct (isStatic x). }
  apply IH; try done.
  intros p' Hp'. apply elem_of_app in Hp' as [Hp'|Hp'].
  - destruct (Hl p' Hp') as (t' & e & Ht' & He & Ha).
    exists t', e. split; [|done]. simpl.
    rewrite lookup_insert_ne; [done|].
    intros <-. apply (is_fresh (dom (tasks w))). fold p.
    apply elem_of_dom. by eexists.
  - apply list_elem_of_singleton in Hp' as ->.
    exists t, (entryOf x). split; [by simpl; rewrite lookup_insert_eq|].
    split; [done|]. unfold entryOf, builtFrom. simpl. done.
Qed.

(** C9, as stated, fails: a node of the static set that sits in the pool
    as a discovered (dynamic) entry is launched with the dynamic flag. *)
Lemma flag_follows_static_set_fails : ¬ flag_follows_static_set.
Proof.
  intros Hclaim.
  pose (w0 := simWorld (mkSimEnv 0 0 [] [] []) ∅).
  assert (∃ d' w', startStaticDials discoveredStatic w0 = Ok ((d', (1, [0%N])), w') ∧
                   tasks w' !! 0%N = Some (mkDialTask dynDialedConn nA 0 0))
    as (d' & w' & Hrun & Ht).
  { eexists _, _. split; [vm_compute; reflexivity|]. vm_compute. reflexivity. }
  destruct (Hclaim _ _ _ _ _ _ Hrun 0%N _ ltac:(by left) Ht) as [Hs _].
  apply Hs; [|reflexivity]. simpl. set_solver.
Qed.

(** C9, amended: [startStaticDials] returns, and every task it launches
    comes from an entry of the pool, carries the static flag exactly when
    that entry was added as static and the dynamic flag otherwise; an
    entry added as static is launched only while its node is in the static
    set, so a task with the static flag always has its node there. *)
Theorem startStaticDials_flags {Env} (d : dialScheduler Env) (w : World Env) :
  reachable (staticPool d) →
  ∃ d' started res w',
    startStaticDials d w = Ok ((d', (started, res)), w') ∧
    ∀ p, p ∈ res →
      ∃ t a tm st pr,
        tasks w' !! p = Some t ∧
        (a, tm, st, pr) ∈ contents (heap (staticPool d)) ∧
        dest t = a ∧
        (st = true → flags t = staticDialedConn) ∧
        (st = false → flags t = dynDialedConn) ∧
        (flags t = staticDialedConn → Node_ID (dest t) ∈ static d) ∧
        checkDial d a = None.
Proof.
  intros Hr. pose proof (reachable_ok _ Hr) as Hok.
  unfold startStaticDials.
  destruct (startStaticDials_loop_ok (S (size (items (staticPool d)))) d
              (contents (heap (staticPool d))) (staticPool d) (freeDialSlots d) 0 [] w)
    as (q' & started' & res' & w' & Hrun & _ & Hl); try done.
  { pose proof (Len_ok _ Hok) as HL. unfold Len in HL. lia. }
  { intros p Hp. by apply elem_of_nil in Hp. }
  rewrite set_staticPool_id in Hrun.
  exists (set_staticPool q' d), started', res', w'. split; [done|].
  intros p Hp. destruct (Hl p Hp) as (t & [[[a tm] st] pr] & Ht & He & Ha).
  destruct Ha as (Hd & Hf & Hs & _ & Hc).
  exists t, a, tm, st, pr. split_and!; try done.
  - intros ->. done.
  - intros ->. done.
  - intros Hfs. rewrite Hd. apply Hs. destruct st; [done|].
    rewrite Hf in Hfs. discriminate.
Qed.

Lemma startStaticDials_flags_witness :
  ∃ d' started res w',
    startStaticDials discoveredStatic (simWorld (mkSimEnv 0 0 [] [] []) ∅)
      = Ok ((d', (started, res)), w').
Proof.
  assert (reachable (staticPool discoveredStatic)) as Hr.
  { apply (reach_add newDialQueue nA false normalPriority 7); [constructor|].
    vm_compute. reflexivity. }
  destruct (startStaticDials_flags discoveredStatic
              (simWorld (mkSimEnv 0 0 [] [] []) ∅) Hr)
    as (d' & started & res & w' & Hrun & _).
  by exists d', started, res, w'.
Defined.

(** ** Dial tasks: resolution with backoff *)

Lemma liftEnv_run {Env A} (f : Env → A * Env) (w : World Env) :
  liftEnv f w = Ok ((f (env w)).1,
                    mkWorld (f (env w)).2 (tasks w) (doneCh w) (trace w)).
Proof. unfold liftEnv. by destruct (f (env w)). Qed.

Lemma load_run {Env} (p : N) (t : dialTask) (w : World Env) :
  tasks w !! p = Some t → load p w = Ok (t, w).
Proof. intros H. unfold load. by rewrite H. Qed.

Lemma bind_run {Env A B} (m : M Env A) (f : A → M Env B) (w : World Env) a w' :
  m w = Ok (a, w') → (m ≫= f) w = f a w'.
Proof. intros H. unfold mbind, M_bind. by rewrite H. Qed.

Lemma set_resolveDelay_id t : set_resolveDelay (resolveDelay t) t = t.
Proof. by destruct t. Qed.

(** C5: [resolve] on a task whose delay is unset or between the initial
    and the maximal delay. Without a resolver it returns false and asks
    nothing. An unset delay becomes the initial delay of 60s before
    anything else. With an earlier attempt on record ([lastResolved] > 0)
    and less than the delay elapsed since, it returns false without asking
    the resolver. Otherwise the resolver is asked once and the attempt is
    stamped: not found returns false and doubles the delay, capped at one
    hour; found returns true, resets the delay to the initial one and
    makes the found node the destination. *)
Theorem resolve_backoff {Env} (d : dialScheduler Env) (p : N) (t : dialTask)
    (w : World Env) :
  tasks w !! p = Some t →
  delay_ok t →
  let delay := if decide (resolveDelay t = 0) then initialResolveDelay
               else resolveDelay t in
  let clk := clock (config d) in
  (resolver (config d) = None →
     resolve d p w =
       Ok (false, mkWorld (env w) (tasks w) (doneCh w) (trace w ++ [EvResolve p]))) ∧
  (∀ r, resolver (config d) = Some r →
     (0 < lastResolved t →
      wrap64 ((Now clk (env w)).1 - lastResolved t) < delay →
        resolve d p w =
          Ok (false, mkWorld (Now clk (env w)).2
                             (<[p := set_resolveDelay delay t]> (tasks w))
                             (doneCh w) (trace w ++ [EvResolve p]))) ∧
     (∀ e1, e1 = (if bool_decide (0 < lastResolved t)
                  then (Now clk (env w)).2 else env w) →
        ¬ (0 < lastResolved t ∧
           wrap64 ((Now clk (env w)).1 - lastResolved t) < delay) →
        let ans := (Resolve r (dest t) e1).1 in
        let e2 := (Resolve r (dest t) e1).2 in
        ∃ t',
          resolve d p w =
            Ok (bool_decide (is_Some ans),
                mkWorld (Now clk e2).2 (<[p := t']> (tasks w)) (doneCh w)
                        (trace w ++ [EvResolve p; EvQuery (dest t)])) ∧
          lastResolved t' = (Now clk e2).1 ∧
          flags t' = flags t ∧
          initialResolveDelay ≤ resolveDelay t' ≤ maxResolveDelay ∧
          match ans with
          | None => resolveDelay t' = Z.min (2 * delay) maxResolveDelay ∧
                    dest t' = dest t
          | Some n => resolveDelay t' = initialResolveDelay ∧ dest t' = n
          end)) ∧
  (resolveDelay t = 0 → delay = initialResolveDelay) ∧
  initialResolveDelay = 60 * Second ∧ maxResolveDelay = 3600 * Second.
Proof.
  intros Ht Hd delay clk.
  assert (initialResolveDelay ≤ delay ≤ maxResolveDelay) as Hdelay.
  { unfold delay. case_decide; [vm_compute; split; discriminate|].
    destruct Hd; [done|lia]. }
  assert ((if decide (resolveDelay t = 0)
           then set_resolveDelay initialResolveDelay t else t)
          = set_resolveDelay delay t) as Htk.
  { unfold delay. case_decide; [done|]. by rewrite set_resolveDelay_id. }
  split; [|split; [|split; [|done]]].
  - intros Hr. unfold resolve. rewrite Hr. reflexivity.
  - intros r Hr.
    split.
    + intros Hlast Hthr. unfold resolve. rewrite Hr.
      unfold mbind, M_bind, emit, load, store, mret, M_ret. simpl.
      rewrite Ht. simpl. rewrite !Htk. simpl.
      rewrite bool_decide_true by lia. rewrite liftEnv_run. simpl.
      fold clk. rewrite bool_decide_true by done. done.
    + intros e1 -> Hnot ans e2. unfold resolve. rewrite Hr.
      unfold mbind, M_bind, emit, load, store, mret, M_ret. simpl.
      rewrite Ht. simpl. rewrite !Htk. simpl. subst ans e2.
      assert (wrap64 (delay * 2) = 2 * delay) as Hdouble.
      { rewrite wrap64_small; [lia|]. revert Hdelay.
        unfold maxResolveDelay, initialResolveDelay, Hour, Second. lia. }
      assert (initialResolveDelay ≤
                (if bool_decide (wrap64 (delay * 2) > maxResolveDelay)
                 then maxResolveDelay else wrap64 (delay * 2)) ≤ maxResolveDelay
              ∧ (if bool_decide (wrap64 (delay * 2) > maxResolveDelay)
                 then maxResolveDelay else wrap64 (delay * 2))
                = Z.min (2 * delay) maxResolveDelay) as [Hcap1 Hcap2].
      { rewrite Hdouble. revert Hdelay.
        unfold maxResolveDelay, initialResolveDelay, Hour, Second.
        intros Hdelay. case_bool_decide; lia. }
      destruct (decide (0 < lastResolved t)) as [Hpos|Hneg].
      * rewrite (bool_decide_true (lastResolved t > 0)) by lia.
        rewrite (bool_decide_true (0 < lastResolved t)) by lia.
        rewrite liftEnv_run. simpl. fold clk.
        rewrite bool_decide_false by tauto.
        simpl. rewrite !liftEnv_run. simpl. fold clk.
        rewrite <- !(assoc_L (++)). simpl.
        destruct (Resolve r (dest t) (Now clk (env w)).2).1 as [n|] eqn:Hans; simpl.
        -- eexists. rewrite !insert_insert_eq. split; [reflexivity|]. simpl.
           split; [done|]. split; [done|]. split; [vm_compute; split; discriminate|].
           done.
        -- eexists. rewrite !insert_insert_eq. split; [reflexivity|]. simpl.
           split; [done|]. split; [done|]. done.
      * rewrite (bool_decide_false (lastResolved t > 0)) by lia.
        rewrite (bool_decide_false (0 < lastResolved t)) by lia.
        simpl. rewrite !liftEnv_run. simpl. fold clk.
        rewrite <- !(assoc_L (++)). simpl.
        destruct (Resolve r (dest t) (env w)).1 as [n|] eqn:Hans; simpl.
        -- eexists. rewrite !insert_insert_eq. split; [reflexivity|]. simpl.
           split; [done|]. split; [done|]. split; [vm_compute; split; discriminate|].
           done.
        -- eexists. rewrite !insert_insert_eq. split; [reflexivity|]. simpl.
           split; [done|]. split; [done|]. done.
  - intros H0. unfold delay. by rewrite decide_True.
Qed.

Lemma resolve_backoff_witness :
  ∃ t', resolve (simScheduler (Some simResolver)) 0%N
          (simWorld (mkSimEnv 5 0 [] [] []) {[0%N := mkDialTask staticDialedConn nA 0 0]})
        = Ok (false,
              mkWorld (mkSimEnv 5 0 [] [] []) (<[0%N := t']> {[0%N := mkDialTask staticDialedConn nA 0 0]})
                      [] [EvResolve 0%N; EvQuery nA])
        ∧ resolveDelay t' = 120 * Second.
Proof.
  pose (t := mkDialTask staticDialedConn nA 0 0).
  pose (w := simWorld (mkSimEnv 5 0 [] [] []) {[0%N := t]}).
  assert (tasks w !! 0%N = Some t) as Ht by reflexivity.
  assert (delay_ok t) as Hd by (by left).
  destruct (resolve_backoff (simScheduler (Some simResolver)) 0%N t w Ht Hd)
    as (_ & H & _).
  destruct (H simResolver eq_refl) as [_ H2].
  destruct (H2 _ eq_refl) as (t' & Hrun & _ & _ & _ & Hdelay & _).
  { intros [Hpos _]. vm_compute in Hpos. discriminate. }
  exists t'. split; [exact Hrun|]. rewrite Hdelay. reflexivity.
Defined.

(** After [k] failed attempts in a row a fresh task waits
    min(60s * 2^k, 1h): 120s, 240s, ... and one hour from the sixth on. *)
Lemma nextDelay_iter (k : nat) :
  Nat.iter (S k) nextDelay 0
  = Z.min (initialResolveDelay * 2 ^ Z.of_nat (S k)) maxResolveDelay.
Proof.
  induction k as [|k IH]; [reflexivity|].
  rewrite Nat.iter_succ, IH. unfold nextDelay.
  rewrite (Nat2Z.inj_succ (S k)), Z.pow_succ_r by lia.
  assert (0 < 2 ^ Z.of_nat (S k)) by (apply Z.pow_pos_nonneg; lia).
  unfold initialResolveDelay, maxResolveDelay, Hour, Second in *.
  case_decide; lia.
Qed.

(** ** Dial tasks: the dial and its single retry *)

Lemma resolve_run {Env} (d : dialScheduler Env) p t w :
  tasks w !! p = Some t →
  ∃ ok w' t' q,
    resolve d p w = Ok (ok, w') ∧ tasks w' !! p = Some t' ∧ flags t' = flags t ∧
    doneCh w' = doneCh w ∧ trace w' = trace w ++ EvResolve p :: q ∧
    (q = [] ∨ q = [EvQuery (dest t)]).
Proof.
  intros Ht. unfold resolve.
  destruct (resolver (config d)) as [r|]; last first.
  { exists false, (mkWorld (env w) (tasks w) (doneCh w) (trace w ++ [EvResolve p])), t, [].
    split; [reflexivity|]. split_and!; try done. by left. }
  unfold mbind, M_bind, emit, load, store, mret, M_ret. simpl.
  rewrite Ht. simpl.
  set (tk := if decide (resolveDelay t = 0)
             then set_resolveDelay initialResolveDelay t else t).
  assert (flags tk = flags t ∧ dest tk = dest t) as [Hf Hdest]
    by (unfold tk; by case_decide).
  destruct (bool_decide (lastResolved tk > 0)).
  - rewrite liftEnv_run. simpl.
    destruct (bool_decide (wrap64 _ < _)).
    + eexists _, _, tk, []. split; [reflexivity|]. simpl.
      rewrite lookup_insert_eq. split_and!; try done. by left.
    + simpl. rewrite !liftEnv_run. simpl. rewrite <- !(assoc_L (++)). simpl.
      destruct (Resolve r (dest tk) _).1 as [n|]; simpl.
      * eexists _, _, _, _. split; [reflexivity|]. simpl.
        rewrite lookup_insert_eq. rewrite Hdest. split_and!; try done. by right.
      * eexists _, _, _, _. split; [reflexivity|]. simpl.
        rewrite lookup_insert_eq. rewrite Hdest. split_and!; try done. by right.
  - simpl. rewrite !liftEnv_run. simpl. rewrite <- !(assoc_L (++)). simpl.
    destruct (Resolve r (dest tk) _).1 as [n|]; simpl.
    * eexists _, _, _, _. split; [reflexivity|]. simpl.
      rewrite lookup_insert_eq. rewrite Hdest. split_and!; try done. by right.
    * eexists _, _, _, _. split; [reflexivity|]. simpl.
      rewrite lookup_insert_eq. rewrite Hdest. split_and!; try done. by right.
Qed.

Lemma dial_run {Env} (d : dialScheduler Env) p t w :
  tasks w !! p = Some t →
  ∃ err w' q,
    dial d p w = Ok (err, w') ∧ tasks w' = tasks w ∧ doneCh w' = doneCh w ∧
    trace w' = trace w ++ EvDial (dest t) :: q ∧
    (q = [] ∨ q = [EvSetup (dest t)]).
Proof.
  intros Ht. unfold dial.
  unfold mbind, M_bind, emit, load, mret, M_ret. simpl. rewrite Ht. simpl.
  rewrite liftEnv_run. simpl.
  destruct (Dial (dialer (config d)) (dest t) (env w)).1 as [fd|e]; simpl.
  - rewrite liftEnv_run. simpl. rewrite <- !(assoc_L (++)). simpl.
    eexists _, _, _. split; [reflexivity|]. simpl. split_and!; try done. by right.
  - eexists _, _, _. split; [reflexivity|]. simpl. split_and!; try done. by left.
Qed.

Lemma count_app f (a b : list event) : count f (a ++ b) = (count f a + count f b)%nat.
Proof. unfold count. by rewrite filter_app, length_app. Qed.

(** C6: when the first dial of a task fails, a static task whose failure
    is a [dialError] calls [resolve] exactly once more and dials again
    exactly when that call succeeds, so at most once; a task without the
    static flag, such as a dynamic one, does nothing further. *)
Theorem static_retry_once {Env} (d : dialScheduler Env) (p : N) (t : dialTask)
    (w w1 : World Env) (e : error) :
  tasks w !! p = Some t →
  dial d p w = Ok (Some e, w1) →
  (is_dialError e = true → Z.land (flags t) staticDialedConn ≠ 0 →
     ∃ ok w2 w3 tr,
       resolve d p w1 = Ok (ok, w2) ∧
       dialClosure d p w = Ok ((), w3) ∧
       trace w3 = trace w1 ++ tr ∧
       count isResolve tr = 1%nat ∧
       count isDial tr = (if (ok : bool) then 1 else 0)%nat ∧
       (count isDial tr ≤ 1)%nat) ∧
  (Z.land (flags t) staticDialedConn = 0 → dialClosure d p w = Ok ((), w1)) ∧
  (flags t = dynDialedConn → dialClosure d p w = Ok ((), w1)).
Proof.
  intros Ht Hdial.
  destruct (dial_run d p t w Ht) as (err & w1' & q & Hdial' & Htasks & _ & _ & _).
  rewrite Hdial in Hdial'. simplify_eq.
  assert (tasks w1' !! p = Some t) as Ht1 by (by rewrite Htasks).
  assert (Z.land (flags t) staticDialedConn = 0 → dialClosure d p w = Ok ((), w1')) as Hdyn.
  { intros Hland. unfold dialClosure. rewrite (bind_run _ _ _ _ _ Hdial).
    rewrite (bind_run _ _ _ _ _ (load_run p t w1' Ht1)).
    rewrite (bool_decide_false (Z.land (flags t) staticDialedConn ≠ 0)) by tauto.
    by rewrite andb_false_r. }
  split; [|split; [done|]]; last first.
  { intros Hf. apply Hdyn. by rewrite Hf. }
  intros He Hst.
  destruct (resolve_run d p t w1' Ht1)
    as (ok & w2 & t2 & q2 & Hres & Ht2 & _ & _ & Htr2 & Hq2).
  assert (count isResolve (EvResolve p :: q2) = 1%nat ∧
          count isDial (EvResolve p :: q2) = 0%nat) as [Hc1 Hc2].
  { destruct Hq2 as [-> | ->]; by vm_compute. }
  unfold dialClosure. rewrite (bind_run _ _ _ _ _ Hdial).
  rewrite (bind_run _ _ _ _ _ (load_run p t w1' Ht1)).
  rewrite He, bool_decide_true by done. simpl.
  rewrite (bind_run _ _ _ _ _ Hres).
  destruct ok.
  - destruct (dial_run d p t2 w2 Ht2) as (err3 & w3 & q3 & Hd3 & _ & _ & Htr3 & Hq3).
    rewrite (bind_run _ _ _ _ _ Hd3).
    exists true, w2, w3, ((EvResolve p :: q2) ++ EvDial (dest t2) :: q3).
    split; [done|]. split; [done|]. split.
    { rewrite Htr3, Htr2. by rewrite <- !(assoc_L (++)). }
    rewrite !count_app, Hc1, Hc2.
    assert (count isResolve (EvDial (dest t2) :: q3) = 0%nat ∧
            count isDial (EvDial (dest t2) :: q3) = 1%nat) as [-> ->].
    { destruct Hq3 as [-> | ->]; by vm_compute. }
    done.
  - exists false, w2, w2, (EvResolve p :: q2).
    split; [done|]. split; [done|]. split; [done|].
    rewrite Hc1, Hc2. split_and!; [done|done|lia].
Qed.

Lemma static_retry_once_witness :
  ∃ w3, dialClosure (simScheduler (Some simResolver)) 0%N
          (simWorld (mkSimEnv 5 0 [Some nB] [] []) {[0%N := mkDialTask staticDialedConn nA 0 0]})
        = Ok ((), w3).
Proof.
  pose (t := mkDialTask staticDialedConn nA 0 0).
  pose (w := simWorld (mkSimEnv 5 0 [Some nB] [] []) {[0%N := t]}).
  assert (tasks w !! 0%N = Some t) as Ht by reflexivity.
  assert (∃ w1, dial (simScheduler (Some simResolver)) 0%N w
                = Ok (Some (dialError (errExternal "connection refused")), w1))
    as [w1 Hdial] by (eexists; vm_compute; reflexivity).
  destruct (static_retry_once (simScheduler (Some simResolver)) 0%N t w w1 _ Ht Hdial)
    as (H & _).
  destruct H as (ok & w2 & w3 & tr & _ & Hrun & _); [reflexivity|vm_compute; discriminate|].
  by exists w3.
Defined.

(** ** Starting a dial: completion reports and the history *)

Lemma dialClosure_run {Env} (d : dialScheduler Env) p t w :
  tasks w !! p = Some t →
  ∃ w', dialClosure d p w = Ok ((), w') ∧ doneCh w' = doneCh w.
Proof.
  intros Ht. unfold dialClosure.
  destruct (dial_run d p t w Ht) as (err & wa & qa & Hda & Htasks & Hdone & _).
  rewrite (bind_run _ _ _ _ _ Hda).
  assert (tasks wa !! p = Some t) as Hta by (by rewrite Htasks).
  destruct err as [e|]; last first.
  { eexists. split; [reflexivity|]. done. }
  rewrite (bind_run _ _ _ _ _ (load_run p t wa Hta)).
  destruct (is_dialError e && bool_decide (Z.land (flags t) staticDialedConn ≠ 0)); last first.
  { eexists. split; [reflexivity|]. done. }
  destruct (resolve_run d p t wa Hta) as (ok & wb & tb & qb & Hres & Htb & _ & Hdoneb & _).
  rewrite (bind_run _ _ _ _ _ Hres).
  destruct ok; last first.
  { eexists. split; [reflexivity|]. by rewrite Hdoneb. }
  destruct (dial_run d p tb wb Htb) as (err' & wc & qc & Hdc & _ & Hdonec & _).
  rewrite (bind_run _ _ _ _ _ Hdc).
  eexists. split; [reflexivity|]. by rewrite Hdonec, Hdoneb.
Qed.

(** The goroutine of [startDial] runs to its end and sends the task
    pointer on [doneCh], once. *)
Lemma dialGoroutine_reports {Env} (d : dialScheduler Env) p t w :
  tasks w !! p = Some t →
  ∃ w', dialGoroutine d p w = Ok ((), w') ∧ doneCh w' = doneCh w ++ [p].
Proof.
  intros Ht. unfold dialGoroutine.
  destruct (dialClosure_run d p t w Ht) as (w1 & Hrun & Hdone).
  rewrite (bind_run _ _ _ _ _ Hrun). eexists. split; [reflexivity|].
  simpl. by rewrite Hdone.
Qed.

(** [startDial] sends nothing itself; a goroutine it starts reports the
    task once. *)
Lemma startDial_goroutine_reports {Env} `{GoRuntime Env} (d : dialScheduler Env) p t w :
  tasks w !! p = Some t →
  ∃ g w',
    startDial d p w =
      Ok ((set_dialing ({[Node_ID (dest t)]} ∪ dialing d)
             (set_history (PeriodicDispatcher_Add (history d) (Node_ID (dest t))
                             (Time_Add (time_Now (env w)).1 dialHistoryExpiration)) d),
           g), w') ∧
    doneCh w' = doneCh w ∧
    match g with
    | Some run => ∃ w'', run w' = Ok ((), w'') ∧ doneCh w'' = doneCh w' ++ [p]
    | None => True
    end.
Proof.
  intros Ht. unfold startDial.
  rewrite (bind_run _ _ _ _ _ (load_run p t w Ht)).
  rewrite (bind_run _ _ _ _ _ (liftEnv_run time_Now w)).
  set (w0 := mkWorld _ _ _ _).
  assert (tasks w0 !! p = Some t) as Ht0 by done.
  assert (needResolve p w0 =
          Ok (bool_decide (Z.land (flags t) staticDialedConn ≠ 0)
              && bool_decide (Node_IP (dest t) = None), w0)) as Hnr.
  { unfold needResolve. by rewrite (bind_run _ _ _ _ _ (load_run p t w0 Ht0)). }
  rewrite (bind_run _ _ _ _ _ Hnr).
  set (d1 := set_dialing _ _).
  destruct (bool_decide (Z.land (flags t) staticDialedConn ≠ 0)
            && bool_decide (Node_IP (dest t) = None)).
  - destruct (resolve_run d1 p t w0 Ht0) as (ok & w1 & t1 & q & Hres & Ht1 & _ & Hdone & _).
    assert ((ok0 ← resolve d1 p; mret (negb ok0)) w0 = Ok (negb ok, w1)) as Hg
      by (by rewrite (bind_run _ _ _ _ _ Hres)).
    rewrite (bind_run _ _ _ _ _ Hg).
    destruct ok; simpl.
    + eexists _, _. split; [reflexivity|]. split; [by rewrite Hdone|].
      by eapply dialGoroutine_reports.
    + eexists _, _. split; [reflexivity|]. split; [by rewrite Hdone|done].
  - assert ((mret false : M Env bool) w0 = Ok (false, w0)) as Hg by done.
    rewrite (bind_run _ _ _ _ _ Hg). simpl.
    eexists _, _. split; [reflexivity|]. split; [done|].
    by eapply dialGoroutine_reports.
Qed.

(** On the resolution-failure path [startDial] starts no goroutine and
    sends nothing: here for a static task without an IP and a scheduler
    without a resolver. *)
Lemma startDial_gives_up {Env} `{GoRuntime Env} (d : dialScheduler Env) p t w :
  tasks w !! p = Some t →
  Z.land (flags t) staticDialedConn ≠ 0 → Node_IP (dest t) = None →
  resolver (config d) = None →
  ∃ d' w', startDial d p w = Ok ((d', None), w') ∧ doneCh w' = doneCh w ∧
           Node_ID (dest t) ∈ dialing d'.
Proof.
  intros Ht Hst Hip Hres. unfold startDial.
  rewrite (bind_run _ _ _ _ _ (load_run p t w Ht)).
  rewrite (bind_run _ _ _ _ _ (liftEnv_run time_Now w)).
  set (w0 := mkWorld _ _ _ _).
  assert (tasks w0 !! p = Some t) as Ht0 by done.
  assert (needResolve p w0 = Ok (true, w0)) as Hnr.
  { unfold needResolve. rewrite (bind_run _ _ _ _ _ (load_run p t w0 Ht0)).
    by rewrite !bool_decide_true. }
  rewrite (bind_run _ _ _ _ _ Hnr).
  set (d1 := set_dialing _ _).
  assert ((ok ← resolve d1 p; mret (negb ok)) w0
          = Ok (true, mkWorld (env w0) (tasks w0) (doneCh w0) (trace w0 ++ [EvResolve p])))
    as Hg.
  { unfold resolve. simpl. by rewrite Hres. }
  rewrite (bind_run _ _ _ _ _ Hg). simpl.
  eexists _, _. split; [reflexivity|]. split; [done|]. simpl. set_solver.
Qed.

(** C3 fails on the resolution-failure path: [startDial] marks the node
    as dialing and returns without starting the goroutine, so nothing is
    ever sent on [doneCh] for the task. *)
Lemma startDial_resolution_failure_unreported :
  ∃ d' w',
    startDial (simScheduler None) 7%N unresolvedWorld = Ok ((d', None), w') ∧
    doneCh w' = [] ∧
    Node_ID nA ∈ dialing d'.
Proof.
  eexists _, _. split; [vm_compute; reflexivity|].
  split; [reflexivity|]. simpl. set_solver.
Qed.

(** C7, as stated, fails in the state [startDial] itself leaves: the node
    is in the history and in the dialing set, and [checkDial] answers
    "already dialing". *)
Lemma history_always_rejects_fails : ¬ history_always_rejects.
Proof.
  intros Hclaim.
  pose (w := simWorld (mkSimEnv 5 1000 [] [] []) {[0%N := mkDialTask dynDialedConn nD 0 0]}).
  assert (∃ d' g w',
            startDial (simScheduler None) 0%N w = Ok ((d', g), w') ∧
            ContainsID (history d') (Node_ID nD) = true ∧
            checkDial d' nD = Some errAlreadyDialing) as (d' & g & w' & _ & Hin & Hc).
  { destruct (startDial_goroutine_reports (simScheduler None) 0%N _ w eq_refl)
      as (g & w' & Hrun & _).
    eexists _, g, w'. split; [exact Hrun|]. split; vm_compute; reflexivity. }
  rewrite (Hclaim d' nD Hin) in Hc. discriminate.
Qed.

Lemma ContainsID_true p id : ContainsID p id = true ↔ is_Some (tracked p !! id).
Proof. unfold ContainsID. by rewrite bool_decide_eq_true. Qed.

Lemma expire_lookup now p id e :
  tracked (expire now p) !! id = Some e ↔ tracked p !! id = Some e ∧ now < e.
Proof. unfold expire. simpl. by rewrite map_lookup_filter_Some. Qed.

Lemma checkDial_not_recent {Env} (d : dialScheduler Env) n :
  ContainsID (history d) (Node_ID n) = false →
  checkDial d n ≠ Some errRecentlyDialed.
Proof.
  intros Hc. unfold checkDial. rewrite Hc.
  repeat case_decide; try done.
  by destruct (match netRestrict (config d) with
               | Some l => negb (Contains l (Node_IP n))
               | None => false
               end).
Qed.

(** C7, amended: [startDial] puts the identifier of the task's node into
    the history with expiry [dialHistoryExpiration] after the launch.
    While an identifier is in the history [checkDial] refuses the node:
    with "recently dialed" unless one of the five earlier conditions holds,
    which then decides the error. A dispatcher run before the expiry keeps
    the entry; a run at or after it removes the entry, and [checkDial] no
    longer answers "recently dialed". *)
Theorem dial_history_lifecycle {Env} `{GoRuntime Env} (d : dialScheduler Env)
    (p : N) (t : dialTask) (w : World Env) :
  tasks w !! p = Some t →
  let id := Node_ID (dest t) in
  let expiry := Time_Add (time_Now (env w)).1 dialHistoryExpiration in
  ∃ d' g w',
    startDial d p w = Ok ((d', g), w') ∧
    tracked (history d') !! id = Some expiry ∧
    (∀ (d2 : dialScheduler Env) n,
       Node_ID n = id → ContainsID (history d2) id = true →
       checkDial d2 n ≠ None ∧
       (Node_ID n ≠ self (config d2) →
        ¬ (Node_IP n ≠ None ∧ Node_TCP n = 0) →
        id ∉ dialing d2 → id ∉ peers d2 →
        (∀ l, netRestrict (config d2) = Some l → Contains l (Node_IP n) = true) →
        checkDial d2 n = Some errRecentlyDialed)) ∧
    (∀ now, now < expiry → ContainsID (expire now (history d')) id = true) ∧
    (∀ now n, expiry ≤ now → Node_ID n = id →
       ContainsID (expire now (history d')) id = false ∧
       checkDial (set_history (expire now (history d')) d') n ≠ Some errRecentlyDialed).
Proof.
  intros Ht id expiry.
  destruct (startDial_goroutine_reports d p t w Ht) as (g & w' & Hrun & _).
  eexists _, g, w'. split; [exact Hrun|]. simpl.
  fold id expiry.
  split; [by rewrite lookup_insert_eq|]. split; [|split].
  - intros d2 n Hn Hc. rewrite <- Hn in Hc.
    assert (checkDial d2 n ≠ None) as Hne.
    { unfold checkDial. rewrite Hc. repeat case_decide; try done.
      by destruct (match netRestrict (config d2) with
                   | Some l => negb (Contains l (Node_IP n))
                   | None => false
                   end). }
    split; [done|]. intros Hs Hp Hd Hpe Hnr. rewrite <- Hn in Hd, Hpe.
    unfold checkDial. rewrite Hc. rewrite !decide_False by done.
    destruct (netRestrict (config d2)) as [l|]; [|done].
    by rewrite (Hnr l eq_refl).
  - intros now Hnow. apply ContainsID_true. exists expiry.
    apply expire_lookup. split; [|done]. simpl. by rewrite lookup_insert_eq.
  - intros now n Hnow Hn.
    assert (ContainsID (expire now
              (PeriodicDispatcher_Add (history d) id expiry)) id = false) as Hc.
    { apply not_true_iff_false. rewrite ContainsID_true. intros [e He].
      apply expire_lookup in He as [He Hlt]. simpl in He.
      rewrite lookup_insert_eq in He. simplify_eq. lia. }
    split; [done|]. apply checkDial_not_recent. simpl. by rewrite Hn.
Qed.

Lemma dial_history_lifecycle_witness :
  ∃ d' g w',
    startDial (simScheduler None) 0%N
      (simWorld (mkSimEnv 5 1000 [] [] []) {[0%N := mkDialTask dynDialedConn nD 0 0]})
    = Ok ((d', g), w') ∧
    tracked (history d') !! Node_ID nD = Some (Time_Add 1000 dialHistoryExpiration).
Proof.
  pose (t := mkDialTask dynDialedConn nD 0 0).
  pose (w := simWorld (mkSimEnv 5 1000 [] [] []) {[0%N := t]}).
  assert (tasks w !! 0%N = Some t) as Ht by reflexivity.
  destruct (dial_history_lifecycle (simScheduler None) 0%N t w Ht)
    as (d' & g & w' & Hrun & Hh & _).
  exists d', g, w'. split; [exact Hrun|exact Hh].
Defined.

(** * Further properties *)

(** ** The pool: size, positions, and adding again after a pop *)

Lemma at_index_Ok {A} (t : list A) i a : at_index t i = Ok a ↔ t !! i = Some a.
Proof. unfold at_index. destruct (t !! i); split; intros; by simplify_eq. Qed.

Lemma obind_Ok {A B} (m : outcome A) (f : A → outcome B) b :
  (m ≫= f) = Ok b → ∃ a, m = Ok a ∧ f a = Ok b.
Proof. destruct m as [a| |]; try done. intros H. by exists a. Qed.

Lemma Swap_Ok_inv (t t' : dialQueueImpl) i j :
  Swap t i j = Ok t' → ∃ a b, t !! i = Some a ∧ t !! j = Some b.
Proof.
  unfold Swap. destruct (at_index t i) as [a| |] eqn:Ha; try done.
  destruct (at_index t j) as [b| |] eqn:Hb; try done.
  intros _. exists a, b. by rewrite <- !at_index_Ok.
Qed.

Lemma Swap_index_ok (t t' : dialQueueImpl) i j :
  Swap t i j = Ok t' → index_ok t → index_ok t'.
Proof.
  intros Hs Hok. destruct (Swap_Ok_inv _ _ _ _ Hs) as (a & b & Ha & Hb).
  destruct (Swap_in_range t i j a b Ha Hb) as (t'' & Hs' & _ & Hk).
  rewrite Hs in Hs'. simplify_eq.
  intros k x Hx. rewrite Hk in Hx.
  destruct (decide (k = j)) as [->|]; [by simplify_eq|].
  destruct (decide (k = i)) as [->|]; [by simplify_eq|].
  by apply Hok.
Qed.

Lemma up_loop_index_ok fuel (t t' : dialQueueImpl) j :
  up_loop fuel t j = Ok t' → index_ok t → index_ok t'.
Proof.
  revert t j. induction fuel as [|fuel IH]; intros t j; [done|].
  simpl. case_decide; [by intros; simplify_eq|].
  intros Hup Hok. apply obind_Ok in Hup as (lt & _ & Hup).
  destruct lt; simpl in Hup; [|by simplify_eq].
  apply obind_Ok in Hup as (t1 & Hs & Hup).
  eapply IH; [done|]. by eapply Swap_index_ok.
Qed.

Lemma down_loop_index_ok fuel (t t' : dialQueueImpl) i n :
  down_loop fuel t i n = Ok t' → index_ok t → index_ok t'.
Proof.
  revert t i. induction fuel as [|fuel IH]; intros t i; [done|].
  simpl. case_decide; [by intros; simplify_eq|].
  intros Hd Hok. apply obind_Ok in Hd as (lt21 & _ & Hd).
  apply obind_Ok in Hd as (lt & _ & Hd).
  destruct lt; simpl in Hd; [|by simplify_eq].
  apply obind_Ok in Hd as (t1 & Hs & Hd).
  eapply IH; [done|]. by eapply Swap_index_ok.
Qed.

Lemma heap_Push_index_ok (t t' : dialQueueImpl) x :
  heap_Push t x = Ok t' → index_ok t → index_ok t'.
Proof.
  unfold heap_Push, up, Push. intros Hup Hok.
  eapply up_loop_index_ok; [done|].
  intros i a Ha. apply lookup_snoc_Some in Ha as [[_ Ha]|[-> <-]]; [by apply Hok|done].
Qed.

Lemma heap_Pop_index_ok (t t' : dialQueueImpl) x :
  heap_Pop t = Ok (x, t') → index_ok t → index_ok t' ∧ index x = -1.
Proof.
  unfold heap_Pop, down, Pop. intros Hpop Hok.
  apply obind_Ok in Hpop as (t1 & Hs & Hpop).
  apply obind_Ok in Hpop as (t2 & Hd & Hpop).
  apply obind_Ok in Hpop as (item & _ & Hpop).
  simplify_eq. split; [|done].
  assert (index_ok t2) as Hok2.
  { eapply down_loop_index_ok; [done|]. by eapply Swap_index_ok. }
  intros i a Ha. apply lookup_take_Some in Ha as [Ha _]. by apply Hok2.
Qed.

Lemma reachable_index_ok d : reachable d → index_ok (heap d).
Proof.
  induction 1 as [|d a s p now d' _ IH Hadd|d r d' _ IH Hpop].
  - intros i a Ha. simpl in Ha. by rewrite lookup_nil in Ha.
  - unfold add in Hadd. case_decide; [by simplify_eq|].
    apply obind_Ok in Hadd as (h & Hp & Hadd).
    simplify_eq. simpl. by eapply heap_Push_index_ok.
  - unfold popImpl in Hpop. case_decide; [|by simplify_eq].
    apply obind_Ok in Hpop as ([x h] & Hp & Hpop).
    simplify_eq. simpl. by eapply heap_Pop_index_ok.
Qed.

(** X1: in every state of the pool [Len] (the size of [items]) is the
    number of entries of the heap, [popImpl] returns without a panic, and
    it returns nil exactly when [Len] is 0; a pop that returns an entry
    lowers [Len] by one and leaves the pool in a state of the pool. *)
Theorem popImpl_Len (d : dialQueue) :
  reachable d →
  Len d = Z.of_nat (length (heap d)) ∧
  ∃ r d', popImpl d = Ok (r, d') ∧ reachable d' ∧
          (r = None ↔ Len d = 0) ∧
          (r = None → d' = d) ∧
          (∀ x, r = Some x → Len d' = Len d - 1).
Proof.
  intros Hr. pose proof (reachable_ok d Hr) as Hok.
  split; [by apply Len_ok|].
  destruct (decide (heap d = [])) as [He|Hne].
  - exists None, d. rewrite popImpl_empty by done.
    split; [done|]. split; [done|]. split; [|done].
    rewrite (Len_ok d Hok), He. done.
  - destruct (popImpl_nonempty d Hok Hne) as (x & d' & Hpop & _ & _ & _ & HLen).
    exists (Some x), d'. split; [done|]. split; [by eapply reach_pop|].
    split; [|split; [done|by intros]].
    split; [done|]. rewrite (Len_ok d Hok). by destruct (heap d).
Qed.

Lemma popImpl_Len_witness :
  ∃ r d', popImpl newDialQueue = Ok (r, d') ∧ (r = None ↔ Len newDialQueue = 0).
Proof.
  destruct (popImpl_Len newDialQueue reach_new) as (_ & r & d' & Hpop & _ & Hnil & _).
  exists r, d'. split; [exact Hpop|exact Hnil].
Defined.

(** X2: in every state of the pool each entry's [index] field is its
    position in the heap slice, and an entry that [popImpl] returns has
    index -1. *)
Theorem pool_index_positions (d : dialQueue) :
  reachable d →
  (∀ i a, heap d !! i = Some a → index a = Z.of_nat i) ∧
  (∀ x d', popImpl d = Ok (Some x, d') → index x = -1).
Proof.
  intros Hr. split; [by apply reachable_index_ok|].
  intros x d' Hpop. unfold popImpl in Hpop. case_decide; [|by simplify_eq].
  apply obind_Ok in Hpop as ([y h] & Hp & Hpop).
  simplify_eq. by eapply heap_Pop_index_ok, reachable_index_ok.
Qed.

Lemma pool_index_positions_witness :
  ∃ q a, add newDialQueue nA false normalPriority 7 = Ok q ∧
         heap q !! 0%nat = Some a ∧ index a = 0.
Proof.
  assert (∃ q a, add newDialQueue nA false normalPriority 7 = Ok q ∧
                 heap q !! 0%nat = Some a) as (q & a & Hadd & Ha).
  { eexists _, _. split; vm_compute; reflexivity. }
  assert (reachable q) as Hr by (eapply reach_add; [constructor|exact Hadd]).
  destruct (pool_index_positions q Hr) as [H _].
  exists q, a. split; [exact Hadd|]. split; [exact Ha|]. exact (H 0%nat a Ha).
Defined.

(** X3: popping an entry takes its node, and only its node, out of
    [items]; so [add] for that node is no longer a no-op: it puts the node
    back and [Len] is what it was before the pop. *)
Theorem pop_then_add (d d' : dialQueue) (x : dialTask2) (s : bool) (p : N) (now : Time) :
  reachable d →
  popImpl d = Ok (Some x, d') →
  nodePtr (addr x) ∈ items d ∧
  items d' = items d ∖ {[nodePtr (addr x)]} ∧
  ∃ d'', add d' (addr x) s p now = Ok d'' ∧
         items d'' = items d ∧ Len d'' = Len d ∧
         contents (heap d'') ≡ₚ (addr x, now, s, p) :: contents (heap d').
Proof.
  intros Hr Hpop. pose proof (reachable_ok d Hr) as Hok.
  destruct (decide (heap d = [])) as [He|Hne].
  { rewrite popImpl_empty in Hpop by done. simplify_eq. }
  destruct (popImpl_nonempty d Hok Hne) as (x' & d1 & Hpop' & Hok' & Hperm & _ & HLen).
  rewrite Hpop in Hpop'. injection Hpop' as <- <-. rename d' into d1.
  assert (items d1 = items d ∖ {[nodePtr (addr x)]}) as Hit.
  { unfold popImpl in Hpop. case_decide; [|by simplify_eq].
    apply obind_Ok in Hpop as ([y h] & _ & Hpop). by simplify_eq. }
  assert (nodePtr (addr x) ∈ items d) as Hin.
  { rewrite (pool_items d Hok), elem_of_list_to_set. unfold ptrs.
    rewrite <- Hperm. by left. }
  split; [done|]. split; [done|].
  destruct (add_absent d1 (addr x) s p now Hok') as (d2 & Hadd & Hok2 & Hperm2 & HLen2).
  { rewrite Hit. rewrite elem_of_difference, elem_of_singleton. tauto. }
  exists d2. split; [done|]. split; [|split; [lia|done]].
  unfold add in Hadd. rewrite decide_False in Hadd
    by (rewrite Hit, elem_of_difference, elem_of_singleton; tauto).
  apply obind_Ok in Hadd as (h & _ & Hadd). simplify_eq. simpl.
  rewrite Hit. apply set_eq. intros z.
  rewrite elem_of_union, elem_of_difference, !elem_of_singleton.
  destruct (decide (z = nodePtr (addr x))) as [->|]; tauto.
Qed.

Lemma pop_then_add_witness :
  ∃ q x q' q'',
    add newDialQueue nA false normalPriority 7 = Ok q ∧
    popImpl q = Ok (Some x, q') ∧
    add q' (addr x) false normalPriority 9 = Ok q'' ∧ Len q'' = Len q.
Proof.
  assert (∃ q x q', add newDialQueue nA false normalPriority 7 = Ok q ∧
                    popImpl q = Ok (Some x, q'))
    as (q & x & q' & Hadd & Hpop).
  { eexists _, _, _. split; vm_compute; reflexivity. }
  assert (reachable q) as Hr by (eapply reach_add; [constructor|exact Hadd]).
  destruct (pop_then_add q q' x false normalPriority 9 Hr Hpop)
    as (_ & _ & q'' & Hadd2 & _ & HLen & _).
  exists q, x, q', q''. split; [exact Hadd|]. split; [exact Hpop|].
  split; [exact Hadd2|exact HLen].
Defined.

(** ** Dial tasks: what [resolve] does to a task and to the world *)

Lemma resolve_effects {Env} (d : dialScheduler Env) p t w :
  tasks w !! p = Some t →
  let delay := if decide (resolveDelay t = 0) then initialResolveDelay
               else resolveDelay t in
  ∃ ok w' t' q,
    resolve d p w = Ok (ok, w') ∧
    tasks w' = <[p := t']> (tasks w) ∧
    doneCh w' = doneCh w ∧
    trace w' = trace w ++ EvResolve p :: q ∧
    flags t' = flags t ∧
    (ok = false → dest t' = dest t) ∧
    (q = [] ∧ ok = false ∧ lastResolved t' = lastResolved t ∧
       (t' = t ∧ env w' = env w ∧ resolver (config d) = None
        ∨ 0 < lastResolved t ∧ resolveDelay t' = delay ∧ is_Some (resolver (config d)))
     ∨ q = [EvQuery (dest t)] ∧ is_Some (resolver (config d)) ∧
       (ok = false → resolveDelay t' = nextDelay (resolveDelay t) ∨
                      ¬ - 2 ^ 62 ≤ resolveDelay t < 2 ^ 62) ∧
       (ok = true → resolveDelay t' = initialResolveDelay)).
Proof.
  intros Ht delay. unfold resolve.
  destruct (resolver (config d)) as [r|] eqn:Hr; last first.
  { exists false, (mkWorld (env w) (tasks w) (doneCh w) (trace w ++ [EvResolve p])), t, [].
    split; [reflexivity|]. simpl. rewrite insert_id by done.
    split_and!; try done. left. split_and!; try done. by left. }
  unfold mbind, M_bind, emit, load, store, mret, M_ret. simpl.
  rewrite Ht. simpl.
  assert ((if decide (resolveDelay t = 0)
           then set_resolveDelay initialResolveDelay t else t)
          = set_resolveDelay delay t) as ->.
  { unfold delay. case_decide; [done|]. by destruct t. }
  simpl.
  assert (wrap64 (delay * 2) = 2 * delay ∨ ¬ - 2 ^ 62 ≤ resolveDelay t < 2 ^ 62) as Hdbl.
  { destruct (decide (- 2 ^ 62 ≤ resolveDelay t < 2 ^ 62)) as [Hrange|]; [left|by right].
    rewrite wrap64_small; [lia|]. unfold delay, initialResolveDelay, Second.
    case_decide; lia. }
  assert (∀ now2,
    resolveDelay (set_resolveDelay
       (if bool_decide (wrap64 (delay * 2) > maxResolveDelay)
        then maxResolveDelay else wrap64 (delay * 2))
       (set_lastResolved now2 (set_resolveDelay delay t)))
    = nextDelay (resolveDelay t) ∨ ¬ - 2 ^ 62 ≤ resolveDelay t < 2 ^ 62) as Hnext.
  { intros now2. destruct Hdbl as [->|]; [left|by right]. simpl.
    change (nextDelay (resolveDelay t)) with (Z.min (2 * delay) maxResolveDelay).
    clearbody delay. case_bool_decide; lia. }
  destruct (bool_decide (lastResolved t > 0)) eqn:Hlast.
  - apply bool_decide_eq_true in Hlast.
    rewrite liftEnv_run. simpl.
    destruct (bool_decide (wrap64 _ < delay)).
    + eexists false, _, (set_resolveDelay delay t), []. split; [reflexivity|]. simpl.
      split_and!; try done. left. split_and!; try done. right. split_and!; try done. lia.
    + simpl. rewrite !liftEnv_run. simpl. rewrite <- !(assoc_L (++)). simpl.
      destruct (Resolve r (dest t) _).1 as [n|]; simpl.
      * eexists true, _, _, [EvQuery (dest t)]. split; [reflexivity|]. simpl.
        rewrite !insert_insert_eq. split_and!; try done. right. split_and!; done.
      * eexists false, _, _, [EvQuery (dest t)]. split; [reflexivity|]. simpl.
        rewrite !insert_insert_eq. split_and!; try done. right. split_and!; done.
  - simpl. rewrite !liftEnv_run. simpl. rewrite <- !(assoc_L (++)). simpl.
    destruct (Resolve r (dest t) _).1 as [n|]; simpl.
    + eexists true, _, _, [EvQuery (dest t)]. split; [reflexivity|]. simpl.
      rewrite !insert_insert_eq. split_and!; try done. right. split_and!; done.
    + eexists false, _, _, [EvQuery (dest t)]. split; [reflexivity|]. simpl.
      rewrite !insert_insert_eq. split_and!; try done. right. split_and!; done.
Qed.

(** ** Launching from the pool: capacity, what happens to the pool, the
    tasks built *)

Lemma startStaticDials_loop_effects {Env} fuel (d0 : dialScheduler Env) q n started res w :
  reachable q → (length (heap q) < fuel)%nat →
  - 2 ^ 63 ≤ started → n < 2 ^ 63 →
  ∃ q' res' w' popped new,
    startStaticDials_loop fuel (set_staticPool q d0) n started res w
      = Ok ((set_staticPool q' d0, (started + Z.of_nat (length new), res')), w') ∧
    reachable q' ∧
    contents (heap q) ≡ₚ popped ++ contents (heap q') ∧
    res' = res ++ new ∧
    (length new ≤ length popped)%nat ∧
    Z.of_nat (length new) ≤ Z.max 0 (n - started) ∧
    (n ≤ started + Z.of_nat (length new) ∨ heap q' = []) ∧
    env w' = env w ∧ doneCh w' = doneCh w ∧ trace w' = trace w ∧
    (∀ p, p ∈ dom (tasks w) → tasks w' !! p = tasks w !! p) ∧
    dom (tasks w') = dom (tasks w) ∪ list_to_set new ∧
    NoDup new ∧
    (∀ p, p ∈ new →
       (p ∉ dom (tasks w)) ∧
       ∃ t, tasks w' !! p = Some t ∧ lastResolved t = 0 ∧ resolveDelay t = 0 ∧
            (flags t = staticDialedConn ∨ flags t = dynDialedConn)).
Proof.
  revert q started res w.
  induction fuel as [|fuel IH]; intros q started res w Hr Hf Hlo Hhi; [lia|].
  pose proof (reachable_ok q Hr) as Hok.
  simpl. destruct (bool_decide (started < n) && bool_decide (Len q > 0)) eqn:Hc; last first.
  { exists q, res, w, [], []. simpl. rewrite Z.add_0_r, app_nil_r.
    split; [done|]. split; [done|]. split; [done|]. split; [done|].
    split; [done|]. split; [lia|]. split.
    { apply andb_false_iff in Hc as [Hc|Hc]; apply bool_decide_eq_false in Hc.
      - left. lia.
      - right. rewrite (Len_ok q Hok) in Hc. destruct (heap q); [done|simpl in Hc; lia]. }
    split_and!; try done.
    - by rewrite union_empty_r_L.
    - constructor.
    - intros p Hp. by apply elem_of_nil in Hp. }
  apply andb_true_iff in Hc as [Hlt HLen].
  apply bool_decide_eq_true in Hlt. apply bool_decide_eq_true in HLen.
  destruct (popImpl_nonempty q Hok (Len_pos q Hok HLen))
    as (x & q1 & Hpop & Hok1 & Hperm & _ & HLen1).
  unfold mbind, M_bind, liftO. rewrite Hpop.
  assert (reachable q1) as Hr1 by (by eapply reach_pop).
  assert (length (heap q1) < fuel)%nat as Hf1.
  { rewrite (Len_ok _ Hok1), (Len_ok q) in HLen1 by done. lia. }
  change (set_staticPool q1 (set_staticPool q d0)) with (set_staticPool q1 d0).
  simpl.
  assert (∃ q' res' w' popped new,
    startStaticDials_loop fuel (set_staticPool q1 d0) n started res w
      = Ok ((set_staticPool q' d0, (started + Z.of_nat (length new), res')), w') ∧
    reachable q' ∧
    contents (heap q) ≡ₚ popped ++ contents (heap q') ∧
    res' = res ++ new ∧
    (length new ≤ length popped)%nat ∧
    Z.of_nat (length new) ≤ Z.max 0 (n - started) ∧
    (n ≤ started + Z.of_nat (length new) ∨ heap q' = []) ∧
    env w' = env w ∧ doneCh w' = doneCh w ∧ trace w' = trace w ∧
    (∀ p, p ∈ dom (tasks w) → tasks w' !! p = tasks w !! p) ∧
    dom (tasks w') = dom (tasks w) ∪ list_to_set new ∧
    NoDup new ∧
    (∀ p, p ∈ new →
       (p ∉ dom (tasks w)) ∧
       ∃ t, tasks w' !! p = Some t ∧ lastResolved t = 0 ∧ resolveDelay t = 0 ∧
            (flags t = staticDialedConn ∨ flags t = dynDialedConn))) as Hcont.
  { destruct (IH q1 started res w Hr1 Hf1 Hlo Hhi)
      as (q' & res' & w' & popped & new & Hrun & Hr' & Hp & Hres & Hl & Hn & Hex & Hrest).
    exists q', res', w', (entryOf x :: popped), new.
    split; [done|]. split; [done|].
    split; [by rewrite <- Hperm, Hp|]. split; [done|].
    split; [simpl; lia|]. done. }
  destruct (isStatic x && negb (bool_decide (Node_ID (addr x) ∈ static d0))); [done|].
  destruct (bool_decide (Node_ID (addr x) ∈ peers d0)); [done|].
  change (checkDial (set_staticPool q1 d0) (addr x)) with (checkDial d0 (addr x)).
  destruct (checkDial d0 (addr x)); [done|]. clear Hcont.
  set (flag := if isStatic x then staticDialedConn else dynDialedConn).
  set (t := {| flags := flag; dest := addr x; lastResolved := 0; resolveDelay := 0 |}).
  set (p := fresh (dom (tasks w))).
  set (w1 := mkWorld (env w) (<[p := t]> (tasks w)) (doneCh w) (trace w)).
  assert ((if isStatic x then newDialTask (addr x) staticDialedConn
           else newDialTask (addr x) dynDialedConn) w = Ok (p, w1)) as ->.
  { unfold flag in t. by destruct (isStatic x). }
  assert (p ∉ dom (tasks w)) as Hfresh by apply is_fresh.
  pose proof (wrap64_range n) as _.
  assert (wrap64 (started + 1) = started + 1) as Hw by (apply wrap64_small; lia).
  rewrite Hw.
  destruct (IH q1 (started + 1) (res ++ [p]) w1 Hr1 Hf1 ltac:(lia) Hhi)
    as (q' & res' & w' & popped & new & Hrun & Hr' & Hp & Hres & Hl & Hn & Hex
        & He & Hdn & Htr & Hkeep & Hdom & Hnd & Hnew).
  exists q', res', w', (entryOf x :: popped), (p :: new).
  replace (started + Z.of_nat (length (p :: new)))
    with (started + 1 + Z.of_nat (length new)) by (simpl; lia).
  split; [exact Hrun|]. split; [done|]. split.
  { rewrite <- Hperm, Hp. done. }
  split; [by rewrite Hres, <- (assoc_L (++))|].
  split; [simpl; lia|]. split; [simpl; lia|]. split; [exact Hex|].
  split; [done|]. split; [done|]. split; [done|].
  assert (dom (tasks w1) = {[p]} ∪ dom (tasks w)) as Hdom1
    by (simpl; by rewrite dom_insert_L).
  split.
  { intros p' Hp'. rewrite Hkeep by (rewrite Hdom1; apply elem_of_union; by right).
    simpl. rewrite lookup_insert_ne; [done|]. by intros <-. }
  split.
  { rewrite Hdom, Hdom1. simpl. apply set_eq. intros y. rewrite !elem_of_union. tauto. }
  split.
  { constructor; [|done]. intros Hin. destruct (Hnew p Hin) as [Hnin _].
    apply Hnin. rewrite Hdom1. apply elem_of_union. left. by apply elem_of_singleton. }
  intros p' Hp'. apply elem_of_cons in Hp' as [->|Hp'].
  - split; [done|]. exists t.
    rewrite Hkeep by (rewrite Hdom1; apply elem_of_union; left; by apply elem_of_singleton).
    simpl. rewrite lookup_insert_eq. split_and!; try done.
    unfold flag. destruct (isStatic x); [by left|by right].
  - destruct (Hnew p' Hp') as [Hnin Ht]. split; [|done].
    intros Hin. apply Hnin. rewrite Hdom1. apply elem_of_union. by right.
Qed.

Lemma startStaticDials_effects {Env} (d : dialScheduler Env) (w : World Env) :
  reachable (staticPool d) →
  ∃ q' res w' popped,
    startStaticDials d w = Ok ((set_staticPool q' d, (Z.of_nat (length res), res)), w') ∧
    reachable q' ∧
    contents (heap (staticPool d)) ≡ₚ popped ++ contents (heap q') ∧
    (length res ≤ length popped)%nat ∧
    Z.of_nat (length res) ≤ Z.max 0 (freeDialSlots d) ∧
    (freeDialSlots d ≤ Z.of_nat (length res) ∨ heap q' = []) ∧
    env w' = env w ∧ doneCh w' = doneCh w ∧ trace w' = trace w ∧
    (∀ p, p ∈ dom (tasks w) → tasks w' !! p = tasks w !! p) ∧
    dom (tasks w') = dom (tasks w) ∪ list_to_set res ∧
    NoDup res ∧
    (∀ p, p ∈ res →
       (p ∉ dom (tasks w)) ∧
       ∃ t, tasks w' !! p = Some t ∧ lastResolved t = 0 ∧ resolveDelay t = 0 ∧
            (flags t = staticDialedConn ∨ flags t = dynDialedConn)).
Proof.
  intros Hr. pose proof (reachable_ok _ Hr) as Hok. unfold startStaticDials.
  pose proof (wrap64_range (freeDialSlots d)) as Hn.
  assert (- 2 ^ 63 ≤ freeDialSlots d < 2 ^ 63) as Hrange.
  { unfold freeDialSlots. apply wrap64_range. }
  destruct (startStaticDials_loop_effects (S (size (items (staticPool d)))) d
              (staticPool d) (freeDialSlots d) 0 [] w Hr)
    as (q' & res' & w' & popped & new & Hrun & Hr' & Hp & Hres & Hrest); [|lia|lia|].
  { pose proof (Len_ok _ Hok) as HL. unfold Len in HL. lia. }
  rewrite set_staticPool_id in Hrun. simpl in Hres, Hrun. subst res'.
  rewrite Z.sub_0_r in Hrest. exists q', new, w', popped. done.
Qed.

(** X4: [startStaticDials] returns for every state of the pool; the count
    it returns is the number of tasks it returns, at most the free dial
    slots (none when there is no free slot) and at most the entries it
    has popped. It changes nothing of the scheduler but the pool, asks no
    clock, resolver or dialer and sends nothing. *)
Theorem startStaticDials_capacity {Env} (d : dialScheduler Env) (w : World Env) :
  reachable (staticPool d) →
  ∃ d' started res w',
    startStaticDials d w = Ok ((d', (started, res)), w') ∧
    started = Z.of_nat (length res) ∧
    started ≤ Z.max 0 (freeDialSlots d) ∧
    (length res + length (heap (staticPool d')) ≤ length (heap (staticPool d)))%nat ∧
    reachable (staticPool d') ∧
    d' = set_staticPool (staticPool d') d ∧
    env w' = env w ∧ doneCh w' = doneCh w ∧ trace w' = trace w.
Proof.
  intros Hr.
  destruct (startStaticDials_effects d w Hr)
    as (q' & res & w' & popped & Hrun & Hr' & Hp & Hl & Hn & _ & He & Hd & Ht & _).
  exists (set_staticPool q' d), (Z.of_nat (length res)), res, w'.
  split; [done|]. split; [done|]. split; [done|]. split.
  { apply Permutation_length in Hp. unfold contents in Hp.
    rewrite length_app, !length_fmap in Hp. simpl. lia. }
  done.
Qed.

(** X5: [startStaticDials] stops only when it has launched as many tasks
    as there were free slots or the pool is empty, and an entry it pops is
    never put back. So with at least as many free slots as entries the
    pool is empty afterwards, whether the entries were launched or
    refused. *)
Theorem startStaticDials_drains {Env} (d : dialScheduler Env) (w : World Env) :
  reachable (staticPool d) →
  ∃ d' started res w' popped,
    startStaticDials d w = Ok ((d', (started, res)), w') ∧
    contents (heap (staticPool d)) ≡ₚ popped ++ contents (heap (staticPool d')) ∧
    (freeDialSlots d ≤ started ∨ Len (staticPool d') = 0) ∧
    (Len (staticPool d) ≤ freeDialSlots d → Len (staticPool d') = 0).
Proof.
  intros Hr. pose proof (reachable_ok _ Hr) as Hok.
  destruct (startStaticDials_effects d w Hr)
    as (q' & res & w' & popped & Hrun & Hr' & Hp & Hl & Hn & Hex & _).
  pose proof (reachable_ok _ Hr') as Hok'.
  exists (set_staticPool q' d), (Z.of_nat (length res)), res, w', popped.
  split; [done|]. split; [done|]. simpl.
  assert (heap q' = [] → Len q' = 0) as Hempty.
  { intros He. by rewrite (Len_ok _ Hok'), He. }
  split; [destruct Hex; [by left|right; by apply Hempty]|].
  intros Hcap. destruct Hex as [Hfull|He]; [|by apply Hempty].
  rewrite (Len_ok _ Hok'). rewrite (Len_ok _ Hok) in Hcap.
  apply Permutation_length in Hp. unfold contents in Hp.
  rewrite length_app, !length_fmap in Hp. lia.
Qed.

(** X6: the tasks [startStaticDials] returns are new and distinct: none
    of their pointers was in the task store before, every task already
    there is as it was, and a new task starts with no resolution on
    record ([lastResolved] and [resolveDelay] zero) and exactly one of the
    static and dynamic flags. *)
Theorem startStaticDials_fresh_tasks {Env} (d : dialScheduler Env) (w : World Env) :
  reachable (staticPool d) →
  ∃ d' started res w',
    startStaticDials d w = Ok ((d', (started, res)), w') ∧
    NoDup res ∧
    dom (tasks w') = dom (tasks w) ∪ list_to_set res ∧
    (∀ p, p ∈ dom (tasks w) → (p ∉ res) ∧ tasks w' !! p = tasks w !! p) ∧
    (∀ p, p ∈ res →
       ∃ t, tasks w' !! p = Some t ∧ lastResolved t = 0 ∧ resolveDelay t = 0 ∧
            (flags t = staticDialedConn ∨ flags t = dynDialedConn)).
Proof.
  intros Hr.
  destruct (startStaticDials_effects d w Hr)
    as (q' & res & w' & popped & Hrun & _ & _ & _ & _ & _ & _ & _ & _ & Hkeep & Hdom & Hnd & Hnew).
  exists (set_staticPool q' d), (Z.of_nat (length res)), res, w'.
  split; [done|]. split; [done|]. split; [done|]. split.
  - intros p Hp. split; [|by apply Hkeep].
    intros Hin. by destruct (Hnew p Hin).
  - intros p Hp. by destruct (Hnew p Hp).
Qed.

Lemma discoveredStatic_reachable : reachable (staticPool discoveredStatic).
Proof.
  apply (reach_add newDialQueue nA false normalPriority 7); [constructor|].
  vm_compute. reflexivity.
Qed.

Lemma startStaticDials_capacity_witness :
  ∃ d' started res w',
    startStaticDials discoveredStatic (simWorld (mkSimEnv 0 0 [] [] []) ∅)
      = Ok ((d', (started, res)), w') ∧ started = Z.of_nat (length res).
Proof.
  destruct (startStaticDials_capacity discoveredStatic
              (simWorld (mkSimEnv 0 0 [] [] []) ∅) discoveredStatic_reachable)
    as (d' & started & res & w' & Hrun & Hs & _).
  exists d', started, res, w'. split; [exact Hrun|exact Hs].
Defined.

Lemma startStaticDials_drains_witness :
  ∃ d' started res w',
    startStaticDials discoveredStatic (simWorld (mkSimEnv 0 0 [] [] []) ∅)
      = Ok ((d', (started, res)), w') ∧ Len (staticPool d') = 0.
Proof.
  destruct (startStaticDials_drains discoveredStatic
              (simWorld (mkSimEnv 0 0 [] [] []) ∅) discoveredStatic_reachable)
    as (d' & started & res & w' & popped & Hrun & _ & _ & Hcap).
  exists d', started, res, w'. split; [exact Hrun|].
  apply Hcap. vm_compute. discriminate.
Defined.

Lemma startStaticDials_fresh_tasks_witness :
  ∃ d' started res w',
    startStaticDials discoveredStatic (simWorld (mkSimEnv 0 0 [] [] []) ∅)
      = Ok ((d', (started, res)), w') ∧ NoDup res.
Proof.
  destruct (startStaticDials_fresh_tasks discoveredStatic
              (simWorld (mkSimEnv 0 0 [] [] []) ∅) discoveredStatic_reachable)
    as (d' & started & res & w' & Hrun & Hnd & _).
  exists d', started, res, w'. split; [exact Hrun|exact Hnd].
Defined.

(** ** Dial tasks: the backoff over a run of attempts *)

Lemma nextDelay_range dl :
  dl = 0 ∨ initialResolveDelay ≤ dl →
  initialResolveDelay ≤ nextDelay dl ≤ maxResolveDelay.
Proof.
  intros Hdl. unfold nextDelay, initialResolveDelay, maxResolveDelay, Hour, Second in *.
  case_decide; lia.
Qed.

Lemma nextDelay_iter_range k :
  initialResolveDelay ≤ Nat.iter (S k) nextDelay 0 ≤ maxResolveDelay.
Proof.
  induction k as [|k IH]; rewrite Nat.iter_succ.
  - apply nextDelay_range. by left.
  - apply nextDelay_range. right. apply IH.
Qed.

(** X7: [resolve] returns on every task in the store, and whatever the
    path: it writes to no task but its own and sends nothing; it keeps the
    flags; it changes the destination only when it returns true; and a
    delay that is unset or within [60s, 1h] stays so. Without a resolver
    the task and the world are as before. *)
Theorem resolve_keeps_task {Env} (d : dialScheduler Env) (p : N) (t : dialTask)
    (w : World Env) :
  tasks w !! p = Some t →
  delay_ok t →
  ∃ ok w' t',
    resolve d p w = Ok (ok, w') ∧
    tasks w' = <[p := t']> (tasks w) ∧
    doneCh w' = doneCh w ∧
    flags t' = flags t ∧
    delay_ok t' ∧
    (ok = false → dest t' = dest t) ∧
    (ok = true → resolveDelay t' = initialResolveDelay) ∧
    (resolver (config d) = None → ok = false ∧ t' = t ∧ env w' = env w).
Proof.
  intros Ht Hd.
  destruct (resolve_effects d p t w Ht)
    as (ok & w' & t' & q & Hrun & Htasks & Hdone & _ & Hf & Hdest & Hcases).
  exists ok, w', t'. split; [done|]. split; [done|]. split; [done|]. split; [done|].
  assert (initialResolveDelay ≤
            (if decide (resolveDelay t = 0) then initialResolveDelay else resolveDelay t)
          ≤ maxResolveDelay) as Hdelay.
  { case_decide; [by vm_compute|]. destruct Hd; [done|lia]. }
  assert (0 ≤ resolveDelay t ∧ - 2 ^ 62 ≤ resolveDelay t < 2 ^ 62) as [Hpos Hrange].
  { destruct Hd as [->|Hd]; [lia|]. revert Hd.
    unfold initialResolveDelay, maxResolveDelay, Hour, Second. lia. }
  destruct Hcases as [(-> & -> & _ & [(-> & He & Hn)|(_ & Hdl & Hs)])
                     |(-> & Hs & Hfail & Hsucc)].
  - split; [done|]. split; [done|]. split; [done|]. done.
  - split; [right; by rewrite Hdl|]. split; [done|]. split; [done|].
    intros Hn. rewrite Hn in Hs. by destruct Hs.
  - split.
    { destruct ok.
      - right. rewrite Hsucc by done. by vm_compute.
      - right. destruct (Hfail eq_refl) as [->|Hbad]; [|done].
        apply nextDelay_range. destruct Hd; [by left|right; lia]. }
    split; [done|]. split; [done|].
    intros Hn. rewrite Hn in Hs. by destruct Hs.
Qed.

Lemma resolve_keeps_task_witness :
  ∃ ok w',
    resolve (simScheduler (Some simResolver)) 0%N
      (simWorld (mkSimEnv 5 0 [Some nB] [] []) {[0%N := mkDialTask staticDialedConn nA 0 0]})
    = Ok (ok, w').
Proof.
  pose (t := mkDialTask staticDialedConn nA 0 0).
  pose (w := simWorld (mkSimEnv 5 0 [Some nB] [] []) {[0%N := t]}).
  assert (tasks w !! 0%N = Some t) as Ht by reflexivity.
  assert (delay_ok t) as Hd by (by left).
  destruct (resolve_keeps_task (simScheduler (Some simResolver)) 0%N t w Ht Hd)
    as (ok & w' & t' & Hrun & _).
  by exists ok, w'.
Defined.

(** X8: a task that starts with no resolution on record has, after [k]
    attempts that asked the resolver and did not find the node, the delay
    min(60s * 2^k, 1h), whatever calls without a query and whatever
    waiting came in between; before the first such attempt the delay is
    still unset. *)
Theorem backoff_after_failures {Env} (d : dialScheduler Env) (p : N) (t : dialTask)
    (k : nat) (w w' : World Env) :
  tasks w !! p = Some t →
  resolveDelay t = 0 → lastResolved t = 0 →
  failedAttempts d p k w w' →
  ∃ t', tasks w' !! p = Some t' ∧
        resolveDelay t' =
          match k with
          | O => 0
          | S _ => Z.min (initialResolveDelay * 2 ^ Z.of_nat k) maxResolveDelay
          end.
Proof.
  intros Ht Hd0 Hl0 Hfa.
  assert (∃ t', tasks w' !! p = Some t' ∧
                match k with
                | O => resolveDelay t' = 0 ∧ lastResolved t' = 0
                | S _ => resolveDelay t' = Nat.iter k nextDelay 0
                end) as (t' & Ht' & Hk).
  { induction Hfa as [w|k w w1 w2 n _ IH Hrun Htr|k w w1 w2 _ IH Hrun Htr|k w w1 e _ IH].
    - by exists t.
    - destruct (IH Ht) as (t1 & Ht1 & Hk1).
      destruct (resolve_effects d p t1 w1 Ht1)
        as (ok & w2' & t2 & q & Hrun' & Htasks & _ & Htr' & _ & _ & Hcases).
      rewrite Hrun in Hrun'. injection Hrun' as <- <-.
      rewrite Htr in Htr'. apply app_inv_head in Htr'. injection Htr' as <-.
      exists t2. split; [by rewrite Htasks, lookup_insert_eq|].
      destruct Hcases as [(Hq & _)|(_ & _ & Hfail & _)]; [done|].
      assert (0 ≤ resolveDelay t1 ≤ maxResolveDelay) as Hrange.
      { destruct k; [destruct Hk1 as [-> _]; by vm_compute|].
        rewrite Hk1. pose proof (nextDelay_iter_range k) as Hr.
        revert Hr. unfold initialResolveDelay, Second. lia. }
      destruct (Hfail eq_refl) as [->|Hbad].
      + rewrite Nat.iter_succ. destruct k; [by destruct Hk1 as [-> _]|by rewrite Hk1].
      + exfalso. apply Hbad. revert Hrange. unfold maxResolveDelay, Hour, Second. lia.
    - destruct (IH Ht) as (t1 & Ht1 & Hk1).
      destruct (resolve_effects d p t1 w1 Ht1)
        as (ok & w2' & t2 & q & Hrun' & Htasks & _ & Htr' & _ & _ & Hcases).
      rewrite Hrun in Hrun'. injection Hrun' as <- <-.
      rewrite Htr in Htr'. apply app_inv_head in Htr'. injection Htr' as <-.
      exists t2. split; [by rewrite Htasks, lookup_insert_eq|].
      destruct Hcases as [(_ & _ & Hlast & [(-> & _)|(Hpos & Hdl & _)])|(Hq & _)];
        [done| |done].
      destruct k; [destruct Hk1 as [_ Hz]; lia|].
      rewrite Hdl. pose proof (nextDelay_iter_range k) as Hr.
      destruct (decide (resolveDelay t1 = 0)) as [Hz|Hnz]; [|done].
      rewrite Hk1 in Hz. revert Hr. rewrite Hz. unfold initialResolveDelay, Second. lia.
    - destruct (IH Ht) as (t1 & Ht1 & Hk1). by exists t1. }
  exists t'. split; [done|]. destruct k; [by destruct Hk|].
  rewrite Hk. apply nextDelay_iter.
Qed.

Lemma backoff_after_failures_witness :
  ∃ w' t',
    failedAttempts (simScheduler (Some simResolver)) 0%N 1
      (simWorld (mkSimEnv 5 0 [] [] []) {[0%N := mkDialTask staticDialedConn nA 0 0]}) w' ∧
    tasks w' !! 0%N = Some t' ∧ resolveDelay t' = 120 * Second.
Proof.
  pose (t := mkDialTask staticDialedConn nA 0 0).
  pose (w := simWorld (mkSimEnv 5 0 [] [] []) {[0%N := t]}).
  assert (∃ w', resolve (simScheduler (Some simResolver)) 0%N w = Ok (false, w') ∧
                trace w' = trace w ++ [EvResolve 0%N; EvQuery nA]) as (w' & Hrun & Htr).
  { eexists. split; vm_compute; reflexivity. }
  assert (failedAttempts (simScheduler (Some simResolver)) 0%N 1 w w') as Hfa.
  { eapply fa_failed; [apply fa_none|exact Hrun|exact Htr]. }
  assert (tasks w !! 0%N = Some t) as Ht by reflexivity.
  destruct (backoff_after_failures (simScheduler (Some simResolver)) 0%N t 1 w w'
              Ht eq_refl eq_refl Hfa) as (t' & Ht' & Hd).
  exists w', t'. split; [exact Hfa|]. split; [exact Ht'|]. rewrite Hd. reflexivity.
Defined.

(** ** Dial tasks: what one dial goroutine does *)




(** ** Starting a dial: what [startDial] does itself *)

Lemma startDial_effects {Env} `{GoRuntime Env} (d : dialScheduler Env) p t w :
  tasks w !! p = Some t →
  let d1 := set_dialing ({[Node_ID (dest t)]} ∪ dialing d)
              (set_history (PeriodicDispatcher_Add (history d) (Node_ID (dest t))
                              (Time_Add (time_Now (env w)).1 dialHistoryExpiration)) d) in
  ∃ g w' t' tr,
    startDial d p w = Ok ((d1, g), w') ∧
    tasks w' = <[p := t']> (tasks w) ∧
    flags t' = flags t ∧
    doneCh w' = doneCh w ∧
    trace w' = trace w ++ tr ∧
    count isDial tr = 0%nat ∧ count isSetup tr = 0%nat ∧
    (g = None ∨ g = Some (dialGoroutine d1 p)) ∧
    (Z.land (flags t) staticDialedConn = 0 ∨ Node_IP (dest t) ≠ None →
       g = Some (dialGoroutine d1 p) ∧ t' = t ∧ tr = []) ∧
    (g = None →
       Z.land (flags t) staticDialedConn ≠ 0 ∧ Node_IP (dest t) = None ∧
       dest t' = dest t ∧ count isResolve tr = 1%nat).
Proof.
  intros Ht d1. unfold startDial.
  rewrite (bind_run _ _ _ _ _ (load_run p t w Ht)).
  rewrite (bind_run _ _ _ _ _ (liftEnv_run time_Now w)).
  set (w0 := mkWorld _ _ _ _).
  assert (tasks w0 !! p = Some t) as Ht0 by done.
  assert (needResolve p w0 =
          Ok (bool_decide (Z.land (flags t) staticDialedConn ≠ 0)
              && bool_decide (Node_IP (dest t) = None), w0)) as Hnr.
  { unfold needResolve. by rewrite (bind_run _ _ _ _ _ (load_run p t w0 Ht0)). }
  rewrite (bind_run _ _ _ _ _ Hnr). fold d1.
  destruct (bool_decide (Z.land (flags t) staticDialedConn ≠ 0)
            && bool_decide (Node_IP (dest t) = None)) eqn:Hcond.
  - apply andb_true_iff in Hcond as [Hst Hip].
    apply bool_decide_eq_true in Hst. apply bool_decide_eq_true in Hip.
    destruct (resolve_effects d1 p t w0 Ht0)
      as (ok & w1 & t1 & q & Hres & Htasks & Hdone & Htr & Hf & Hdest & Hcases).
    assert (q = [] ∨ q = [EvQuery (dest t)]) as Hq.
    { destruct Hcases as [(-> & _)|(-> & _)]; [by left|by right]. }
    assert ((ok0 ← resolve d1 p; mret (negb ok0)) w0 = Ok (negb ok, w1)) as Hg
      by (by rewrite (bind_run _ _ _ _ _ Hres)).
    rewrite (bind_run _ _ _ _ _ Hg).
    destruct ok; simpl.
    + exists (Some (dialGoroutine d1 p)), w1, t1, (EvResolve p :: q).
      split; [done|]. split; [done|]. split; [done|]. split; [done|]. split; [done|].
      split; [destruct Hq as [-> | ->]; by vm_compute|].
      split; [destruct Hq as [-> | ->]; by vm_compute|].
      split; [by right|]. split; [|done].
      intros [Hz|Hn]; [by rewrite Hz in Hst|done].
    + exists None, w1, t1, (EvResolve p :: q).
      split; [done|]. split; [done|]. split; [done|]. split; [done|]. split; [done|].
      split; [destruct Hq as [-> | ->]; by vm_compute|].
      split; [destruct Hq as [-> | ->]; by vm_compute|].
      split; [by left|]. split.
      { intros [Hz|Hn]; [by rewrite Hz in Hst|done]. }
      intros _. split; [done|]. split; [done|]. split; [by apply Hdest|].
      destruct Hq as [-> | ->]; by vm_compute.
  - assert ((mret false : M Env bool) w0 = Ok (false, w0)) as Hg by done.
    rewrite (bind_run _ _ _ _ _ Hg). simpl.
    exists (Some (dialGoroutine d1 p)), w0, t, [].
    split; [done|]. split; [by rewrite insert_id|]. split; [done|]. split; [done|].
    split; [by rewrite app_nil_r|]. split; [done|]. split; [done|].
    split; [by right|]. split; [done|]. done.
Qed.

(** X10: [startDial] returns for every task in the store. It records the
    task's destination, as it is before any resolution, as being dialled,
    and from then on [checkDial] refuses that node; the pool, the static
    set, the peers and the configuration are as before. It never dials and
    never sends itself: a dial happens only in the goroutine it starts. A
    task that needs no resolution (not static, or with a known IP) always
    gets its goroutine and is left untouched; when no goroutine is started
    the task is static without an IP and [resolve] was called exactly
    once. *)
Theorem startDial_marks_node {Env} `{GoRuntime Env} (d : dialScheduler Env) (p : N)
    (t : dialTask) (w : World Env) :
  tasks w !! p = Some t →
  ∃ d' g w' t' tr,
    startDial d p w = Ok ((d', g), w') ∧
    dialing d' = {[Node_ID (dest t)]} ∪ dialing d ∧
    is_Some (checkDial d' (dest t)) ∧
    staticPool d' = staticPool d ∧ static d' = static d ∧ peers d' = peers d ∧
    dialPeers d' = dialPeers d ∧ config d' = config d ∧
    tasks w' = <[p := t']> (tasks w) ∧
    doneCh w' = doneCh w ∧
    trace w' = trace w ++ tr ∧
    count isDial tr = 0%nat ∧ count isSetup tr = 0%nat ∧
    (Z.land (flags t) staticDialedConn = 0 ∨ Node_IP (dest t) ≠ None →
       g = Some (dialGoroutine d' p) ∧ t' = t ∧ tr = []) ∧
    (g = None →
       Z.land (flags t) staticDialedConn ≠ 0 ∧ Node_IP (dest t) = None ∧
       dest t' = dest t ∧ count isResolve tr = 1%nat).
Proof.
  intros Ht.
  destruct (startDial_effects d p t w Ht)
    as (g & w' & t' & tr & Hrun & Htasks & _ & Hdone & Htr & Hnd & Hns & _ & Hgo & Hno).
  eexists _, g, w', t', tr. split; [exact Hrun|]. simpl.
  split; [done|]. split.
  { unfold checkDial. simpl. repeat case_decide; try done.
    match goal with
    | Hn : _ ∉ {[_]} ∪ _ |- _ =>
        destruct Hn; apply elem_of_union; left; by apply elem_of_singleton
    end. }
  split_and!; done.
Qed.

Lemma startDial_marks_node_witness :
  ∃ d' g w',
    startDial (simScheduler None) 0%N
      (simWorld (mkSimEnv 5 0 [] [] []) {[0%N := mkDialTask dynDialedConn nB 0 0]})
    = Ok ((d', g), w').
Proof.
  pose (t := mkDialTask dynDialedConn nB 0 0).
  pose (w := simWorld (mkSimEnv 5 0 [] [] []) {[0%N := t]}).
  assert (tasks w !! 0%N = Some t) as Ht by reflexivity.
  destruct (startDial_marks_node (simScheduler None) 0%N t w Ht)
    as (d' & g & w' & _ & _ & Hrun & _).
  by exists d', g, w'.
Defined.

(** ** The scheduler: additions to the pool *)

Lemma addNow_effects {Env} `{GoRuntime Env} (q : dialQueue) a s prio (w : World Env) :
  reachable q →
  ∃ q' w',
    addNow q a s prio w = Ok (q', w') ∧ reachable q' ∧
    tasks w' = tasks w ∧ doneCh w' = doneCh w ∧ trace w' = trace w ∧
    (nodePtr a ∈ items q → q' = q ∧ w' = w) ∧
    (nodePtr a ∉ items q →
       contents (heap q') ≡ₚ (a, (time_Now (env w)).1, s, prio) :: contents (heap q) ∧
       Len q' = Len q + 1 ∧ items q' = {[nodePtr a]} ∪ items q).
Proof.
  intros Hr. unfold addNow.
  destruct (decide (nodePtr a ∈ items q)) as [Hin|Hnin].
  { exists q, w. split; [done|]. split_and!; try done. }
  rewrite (bind_run _ _ _ _ _ (liftEnv_run time_Now w)).
  destruct (add_absent q a s prio (time_Now (env w)).1 (reachable_ok _ Hr) Hnin)
    as (q' & Hadd & _ & Hperm & Hlen).
  unfold liftO. rewrite Hadd.
  eexists q', _. split; [reflexivity|]. simpl.
  split; [by eapply reach_add|]. split_and!; try done.
  intros _. split; [done|]. split; [done|].
  unfold add in Hadd. rewrite decide_False in Hadd by done.
  apply obind_Ok in Hadd as (h & _ & Hq). by injection Hq as <-.
Qed.

Lemma tagged_config {Env} (d d' : dialScheduler Env) e :
  config d' = config d → tagged d e → tagged d' e.
Proof. intros Hc. destruct e as [[[a ts] st] prio]. simpl. by rewrite Hc. Qed.

Lemma addToStaticPool_effects {Env} `{GoRuntime Env} (d : dialScheduler Env) node
    (w : World Env) :
  sched_ok d → checkDial d node = None →
  ∃ q' w',
    addToStaticPool d node w = Ok (set_staticPool q' d, w') ∧
    sched_ok (set_staticPool q' d) ∧
    tasks w' = tasks w ∧ doneCh w' = doneCh w ∧ trace w' = trace w ∧
    (nodePtr node ∈ items (staticPool d) → q' = staticPool d ∧ w' = w) ∧
    (nodePtr node ∉ items (staticPool d) →
       contents (heap q') ≡ₚ
         (node, (time_Now (env w)).1, true, staticPriority)
           :: contents (heap (staticPool d)) ∧
       Len q' = Len (staticPool d) + 1 ∧
       items q' = {[nodePtr node]} ∪ items (staticPool d)).
Proof.
  intros [Hr Htag] Hcheck. unfold addToStaticPool.
  destruct (addNow_effects (staticPool d) node true staticPriority w Hr)
    as (q' & w' & Hrun & Hr' & Ht & Hd & Htr & Hin & Hnin).
  rewrite (bind_run _ _ _ _ _ Hrun).
  exists q', w'. split; [done|]. split; [|done].
  split; [done|]. simpl. intros e He.
  apply (tagged_config d); [done|].
  destruct (decide (nodePtr node ∈ items (staticPool d))) as [Hi|Hni].
  { destruct (Hin Hi) as [-> _]. by apply Htag. }
  destruct (Hnin Hni) as (Hperm & _). rewrite Hperm in He.
  apply elem_of_cons in He as [->|He]; [|by apply Htag].
  simpl. split; [done|]. unfold checkDial in Hcheck.
  repeat case_decide; try done.
Qed.

Lemma updateStaticPool_effects {Env} `{GoRuntime Env} (d : dialScheduler Env) node
    (w : World Env) :
  sched_ok d →
  ∃ q' w',
    updateStaticPool d node w = Ok (set_staticPool q' d, w') ∧
    sched_ok (set_staticPool q' d) ∧
    tasks w' = tasks w ∧ doneCh w' = doneCh w ∧ trace w' = trace w ∧
    (Node_ID node ∉ static d ∨ is_Some (checkDial d node)
       ∨ nodePtr node ∈ items (staticPool d) →
     q' = staticPool d ∧ w' = w) ∧
    (Node_ID node ∈ static d → checkDial d node = None →
     nodePtr node ∉ items (staticPool d) →
       contents (heap q') ≡ₚ
         (node, (time_Now (env w)).1, true, staticPriority)
           :: contents (heap (staticPool d)) ∧
       Len q' = Len (staticPool d) + 1 ∧
       items q' = {[nodePtr node]} ∪ items (staticPool d)).
Proof.
  intros Hok. unfold updateStaticPool.
  assert (∃ q' w', (mret d : M Env _) w = Ok (set_staticPool q' d, w') ∧
            sched_ok (set_staticPool q' d) ∧
            tasks w' = tasks w ∧ doneCh w' = doneCh w ∧ trace w' = trace w ∧
            q' = staticPool d ∧ w' = w) as Hsame.
  { exists (staticPool d), w. rewrite set_staticPool_id. done. }
  case_bool_decide as Hst.
  - destruct (checkDial d node) as [e|] eqn:Hcheck.
    + destruct Hsame as (q' & w' & H1 & H2 & H3 & H4 & H5 & H6).
      exists q', w'. split_and!; done.
    + destruct (addToStaticPool_effects d node w Hok Hcheck)
        as (q' & w' & Hrun & Hok' & Ht & Hd & Htr & Hin & Hnin).
      exists q', w'. split_and!; try done.
      intros [?|[[? ?]|?]]; [done|done|by apply Hin].
  - destruct Hsame as (q' & w' & H1 & H2 & H3 & H4 & H5 & H6).
    exists q', w'. split_and!; done.
Qed.

(** ** The scheduler: one round of the loop *)

Lemma sched_ok_fields {Env} (d d' : dialScheduler Env) :
  staticPool d' = staticPool d → config d' = config d → sched_ok d → sched_ok d'.
Proof.
  intros Hp Hc [Hr Htag]. split; rewrite Hp; [done|].
  intros e He. apply (tagged_config d); [done|]. by apply Htag.
Qed.

Lemma size_add_one (x : ID) (s : gset ID) : (size ({[x]} ∪ s) ≤ S (size s))%nat.
Proof.
  destruct (decide (x ∈ s)) as [Hin|Hnin].
  - assert ({[x]} ∪ s = s) as ->; [|lia].
    apply set_eq. intros y. rewrite elem_of_union, elem_of_singleton.
    split; [intros [->|?]; done|by right].
  - rewrite size_union by (apply disjoint_singleton_l; done).
    rewrite size_singleton. lia.
Qed.

Lemma startDials_effects {Env} `{GoRuntime Env} (ps : list N) :
  ∀ (d : dialScheduler Env) (w : World Env),
  (∀ p, p ∈ ps → is_Some (tasks w !! p)) →
  ∃ d' gs w' tr,
    startDials d ps w = Ok ((d', gs), w') ∧
    staticPool d' = staticPool d ∧ static d' = static d ∧ peers d' = peers d ∧
    dialPeers d' = dialPeers d ∧ config d' = config d ∧
    dialing d ⊆ dialing d' ∧
    (size (dialing d') ≤ size (dialing d) + length ps)%nat ∧
    (length gs ≤ length ps)%nat ∧
    (∀ p t, p ∈ ps → tasks w !! p = Some t → Node_ID (dest t) ∈ dialing d') ∧
    dom (tasks w') = dom (tasks w) ∧
    (∀ p, p ∉ ps → tasks w' !! p = tasks w !! p) ∧
    doneCh w' = doneCh w ∧
    trace w' = trace w ++ tr ∧ count isDial tr = 0%nat ∧ count isSetup tr = 0%nat.
Proof.
  induction ps as [|p ps IH]; intros d w Hin.
  { exists d, [], w, []. simpl. split; [done|]. split_and!; try done.
    all: first [lia | by rewrite app_nil_r
               | intros p t Hp; by apply elem_of_nil in Hp]. }
  destruct (Hin p) as [t Ht]; [by left|].
  destruct (startDial_effects d p t w Ht)
    as (g & w1 & t1 & tr1 & Hrun & Htasks & _ & Hdone & Htr & Hnd & Hns & _).
  set (d1 := set_dialing _ _) in Hrun.
  destruct (IH d1 w1) as (d' & gs & w' & tr & Hrun' & Hsp & Hst & Hpe & Hdp & Hc
                            & Hsub & Hsize & Hlen & Hids & Hdom & Hother & Hdone' & Htr'
                            & Hnd' & Hns').
  { intros p' Hp'. rewrite Htasks. apply lookup_insert_is_Some'. right.
    apply Hin. by right. }
  simpl. rewrite (bind_run _ _ _ _ _ Hrun). simpl.
  rewrite (bind_run _ _ _ _ _ Hrun'). simpl.
  eexists d', _, w', (tr1 ++ tr). split; [reflexivity|].
  split; [done|]. split; [done|]. split; [done|]. split; [done|]. split; [done|].
  assert (dialing d ⊆ dialing d1) as Hsub1.
  { subst d1. simpl. intros x Hx. apply elem_of_union. by right. }
  split; [by etrans|]. split.
  { pose proof (size_add_one (Node_ID (dest t)) (dialing d)) as Hs.
    subst d1. simpl in Hsize |- *. lia. }
  split; [destruct g; simpl; lia|]. split.
  { intros p' t' Hp' Ht'. destruct (decide (p' = p)) as [->|Hne].
    - rewrite Ht in Ht'. injection Ht' as <-. apply Hsub. subst d1. simpl.
      apply elem_of_union. left. by apply elem_of_singleton.
    - apply elem_of_cons in Hp' as [?|Hp']; [done|].
      apply (Hids p' t' Hp'). by rewrite Htasks, lookup_insert_ne. }
  split.
  { rewrite Hdom, Htasks, dom_insert_L. apply set_eq. intros x.
    rewrite elem_of_union, elem_of_singleton. split; [|by right].
    intros [->|?]; [|done]. by apply elem_of_dom. }
  split.
  { intros p' Hp'. rewrite Hother by (intros ?; apply Hp'; by right).
    rewrite Htasks, lookup_insert_ne; [done|]. intros ->. apply Hp'. by left. }
  split; [by rewrite Hdone', Hdone|]. split.
  { by rewrite Htr', Htr, <- (assoc_L (++)). }
  rewrite !count_app, Hnd, Hnd', Hns, Hns'. done.
Qed.

Lemma logStats_run {Env} (d : dialScheduler Env) st (w : World Env) :
  ∃ st' line w',
    logStats d st w = Ok ((st', line), w') ∧
    tasks w' = tasks w ∧ doneCh w' = doneCh w ∧ trace w' = trace w.
Proof.
  unfold logStats. rewrite (bind_run _ _ _ _ _ (liftEnv_run _ w)).
  case_bool_decide; eexists _, _, _; (split; [reflexivity|done]).
Qed.

Lemma loopSelect_inv {Env} `{GoRuntime Env} (d : dialScheduler Env) st ev (w : World Env)
    d' st' stop w' :
  sched_ok d →
  loopSelect d st ev w = Ok ((d', st', stop), w') →
  sched_ok d' ∧ config d' = config d ∧ dialing d' ⊆ dialing d ∧
  tasks w' = tasks w ∧ doneCh w' = doneCh w ∧ trace w' = trace w ∧
  (stop = true ↔ ev = OnClose).
Proof.
  intros Hok Hrun. destruct ev as [|task|c|c|node|node|]; simpl in Hrun.
  - injection Hrun as <- <- <- <-. split_and!; done.
  - destruct (tasks w !! task) as [tk|] eqn:Htk; last first.
    { unfold mbind, M_bind in Hrun. unfold load in Hrun. by rewrite Htk in Hrun. }
    rewrite (bind_run _ _ _ _ _ (load_run task tk w Htk)) in Hrun.
    set (d1 := set_dialing _ d) in Hrun.
    assert (sched_ok d1) as Hok1 by (by apply (sched_ok_fields d)).
    destruct (updateStaticPool_effects d1 (dest tk) w Hok1)
      as (q' & w1 & Hup & Hok' & Ht & Hd & Htr & _).
    rewrite (bind_run _ _ _ _ _ Hup) in Hrun.
    injection Hrun as <- <- <- <-. split_and!; try done.
    simpl. intros x Hx. apply elem_of_difference in Hx. tauto.
  - injection Hrun as <- <- <- <-.
    split; [|split_and!; try done; by destruct (_ || _)].
    apply (sched_ok_fields d); [by destruct (_ || _)|by destruct (_ || _)|done].
  - set (d1 := set_peers _ _) in Hrun.
    assert (sched_ok d1) as Hok1.
    { apply (sched_ok_fields d); [subst d1; by destruct (_ || _)
                                 |subst d1; by destruct (_ || _)|done]. }
    destruct (updateStaticPool_effects d1 (conn_node c) w Hok1)
      as (q' & w1 & Hup & Hok' & Ht & Hd & Htr & _).
    rewrite (bind_run _ _ _ _ _ Hup) in Hrun.
    injection Hrun as <- <- <- <-. subst d1.
    split_and!; try done; simpl; by destruct (_ || _).
  - case_bool_decide as Hin.
    { injection Hrun as <- <- <- <-. split_and!; done. }
    set (d1 := set_static _ d) in Hrun.
    assert (sched_ok d1) as Hok1 by (by apply (sched_ok_fields d)).
    destruct (checkDial d1 node) as [e|] eqn:Hcheck.
    { injection Hrun as <- <- <- <-. split_and!; done. }
    destruct (addToStaticPool_effects d1 node w Hok1 Hcheck)
      as (q' & w1 & Hadd & Hok' & Ht & Hd & Htr & _).
    rewrite (bind_run _ _ _ _ _ Hadd) in Hrun.
    injection Hrun as <- <- <- <-. split_and!; done.
  - case_bool_decide as Hin; injection Hrun as <- <- <- <-.
    + split; [by apply (sched_ok_fields d)|]. split_and!; done.
    + split_and!; done.
  - injection Hrun as <- <- <- <-. split_and!; done.
Qed.

Lemma loopSelect_returns {Env} `{GoRuntime Env} (d : dialScheduler Env) st ev
    (w : World Env) :
  sched_ok d →
  (∀ p, ev = OnDone p → is_Some (tasks w !! p)) →
  ∃ d' st' stop w', loopSelect d st ev w = Ok ((d', st', stop), w').
Proof.
  intros Hok Hev. destruct ev as [|task|c|c|node|node|]; simpl.
  - by eexists _, _, _, _.
  - destruct (Hev task eq_refl) as [tk Htk].
    rewrite (bind_run _ _ _ _ _ (load_run task tk w Htk)).
    set (d1 := set_dialing _ d).
    assert (sched_ok d1) as Hok1 by (by apply (sched_ok_fields d)).
    destruct (updateStaticPool_effects d1 (dest tk) w Hok1) as (q' & w1 & Hup & _).
    rewrite (bind_run _ _ _ _ _ Hup). by eexists _, _, _, _.
  - by eexists _, _, _, _.
  - set (d1 := set_peers _ _).
    assert (sched_ok d1) as Hok1.
    { apply (sched_ok_fields d); [subst d1; by destruct (_ || _)
                                 |subst d1; by destruct (_ || _)|done]. }
    destruct (updateStaticPool_effects d1 (conn_node c) w Hok1) as (q' & w1 & Hup & _).
    rewrite (bind_run _ _ _ _ _ Hup). by eexists _, _, _, _.
  - case_bool_decide as Hin; [by eexists _, _, _, _|].
    set (d1 := set_static _ d).
    assert (sched_ok d1) as Hok1 by (by apply (sched_ok_fields d)).
    destruct (checkDial d1 node) as [e|] eqn:Hcheck; [by eexists _, _, _, _|].
    destruct (addToStaticPool_effects d1 node w Hok1 Hcheck) as (q' & w1 & Hadd & _).
    rewrite (bind_run _ _ _ _ _ Hadd). by eexists _, _, _, _.
  - case_bool_decide; by eexists _, _, _, _.
  - by eexists _, _, _, _.
Qed.

Lemma loopRound_stages {Env} `{GoRuntime Env} (d : dialScheduler Env) st ev
    (w : World Env) :
  sched_ok d →
  ∃ d2 gs st3 line w3 (res : list N) tr,
    sched_ok d2 ∧ config d2 = config d ∧ static d2 = static d ∧ peers d2 = peers d ∧
    dialPeers d2 = dialPeers d ∧
    dialing d ⊆ dialing d2 ∧
    (size (dialing d2) ≤ size (dialing d) + length res)%nat ∧
    Z.of_nat (length res) ≤ Z.max 0 (freeDialSlots d) ∧
    (length gs ≤ length res)%nat ∧
    dom (tasks w) ⊆ dom (tasks w3) ∧ doneCh w3 = doneCh w ∧
    trace w3 = trace w ++ tr ∧ count isDial tr = 0%nat ∧ count isSetup tr = 0%nat ∧
    loopRound d st ev w =
      match loopSelect d2 st3 ev w3 with
      | Ok ((d', st', stop), w') => Ok ((d', st', gs, line, stop), w')
      | Panic msg => Panic msg
      | OutOfFuel => OutOfFuel
      end.
Proof.
  intros [Hr Htag].
  destruct (startStaticDials_effects d w Hr)
    as (q' & res & w1 & popped & Hrun1 & Hr' & Hperm & _ & Hcap & _ & _ & Hdone1 & Htr1
          & _ & Hdom1 & _ & Hfresh).
  set (d1 := set_staticPool q' d) in Hrun1.
  assert (sched_ok d1) as Hok1.
  { split; [done|]. simpl. intros e He. apply (tagged_config d); [done|].
    apply Htag. rewrite Hperm. apply elem_of_app. by right. }
  destruct (startDials_effects res d1 w1)
    as (d2 & gs & w2 & tr & Hrun2 & Hsp & Hst & Hpe & Hdp & Hc & Hsub & Hsize & Hlen
          & _ & Hdom2 & _ & Hdone2 & Htr2 & Hnd & Hns).
  { intros p Hp. destruct (Hfresh p Hp) as (_ & t & -> & _). by eexists. }
  destruct (logStats_run d2 st w2) as (st3 & line & w3 & Hrun3 & Htasks3 & Hdone3 & Htr3).
  exists d2, gs, st3, line, w3, res, tr.
  split; [by apply (sched_ok_fields d1)|].
  split; [by rewrite Hc|]. split; [by rewrite Hst|]. split; [by rewrite Hpe|].
  split; [by rewrite Hdp|]. split; [done|]. split; [done|]. split; [done|].
  split; [done|]. split.
  { rewrite Htasks3, Hdom2, Hdom1. apply union_subseteq_l. }
  split; [by rewrite Hdone3, Hdone2, Hdone1|].
  split; [by rewrite Htr3, Htr2, Htr1|]. split; [done|]. split; [done|].
  unfold loopRound. rewrite (bind_run _ _ _ _ _ Hrun1). simpl.
  rewrite (bind_run _ _ _ _ _ Hrun2). simpl.
  rewrite (bind_run _ _ _ _ _ Hrun3). simpl.
  unfold mbind, M_bind.
  by destruct (loopSelect d2 st3 ev w3) as [[[[d' st'] stop] w']| |].
Qed.

(** X11: a round of the loop always returns, for every event the [select]
    can receive, provided a task received on [doneCh] is in the store. It
    starts at most as many goroutines as there are free dial slots and
    grows the set of dials in flight by no more; it dials nothing and
    sends nothing itself; it ends the loop exactly on the close event; and
    it leaves the configuration as it is and the pool well-formed. *)
Theorem loopRound_returns {Env} `{GoRuntime Env} (d : dialScheduler Env) (st : dialStats)
    (ev : loopEvent) (w : World Env) :
  sched_ok d →
  (∀ p, ev = OnDone p → is_Some (tasks w !! p)) →
  ∃ d' st' gs line stop w' tr,
    loopRound d st ev w = Ok ((d', st', gs, line, stop), w') ∧
    sched_ok d' ∧ config d' = config d ∧
    Z.of_nat (length gs) ≤ Z.max 0 (freeDialSlots d) ∧
    Z.of_nat (size (dialing d')) ≤ Z.of_nat (size (dialing d)) + Z.max 0 (freeDialSlots d) ∧
    doneCh w' = doneCh w ∧
    trace w' = trace w ++ tr ∧ count isDial tr = 0%nat ∧ count isSetup tr = 0%nat ∧
    (stop = true ↔ ev = OnClose).
Proof.
  intros Hok Hev.
  destruct (loopRound_stages d st ev w Hok)
    as (d2 & gs & st3 & line & w3 & res & tr & Hok2 & Hc & _ & _ & _ & _ & Hsize & Hcap
          & Hlen & Hdom & Hdone & Htr & Hnd & Hns & Hrun).
  destruct (loopSelect_returns d2 st3 ev w3 Hok2) as (d' & st' & stop & w' & Hsel).
  { intros p Hp. apply elem_of_dom, Hdom, elem_of_dom. by apply Hev. }
  destruct (loopSelect_inv d2 st3 ev w3 d' st' stop w' Hok2 Hsel)
    as (Hok' & Hc' & Hsub & _ & Hdone' & Htr' & Hstop).
  rewrite Hsel in Hrun.
  exists d', st', gs, line, stop, w', tr. split; [done|]. split; [done|].
  split; [by rewrite Hc'|]. split; [lia|]. split.
  { pose proof (subseteq_size _ _ Hsub). lia. }
  split; [by rewrite Hdone'|]. split; [by rewrite Htr'|]. done.
Qed.

Lemma sched_ok_new {Env} (cfg : dialConfig Env) (setup : dialSetupFunc Env) d st w w' :
  newDialScheduler cfg setup w = Ok ((d, st), w') → sched_ok d.
Proof.
  unfold newDialScheduler. rewrite (bind_run _ _ _ _ _ (liftEnv_run _ w)).
  intros Hrun. injection Hrun as <- _ _. split; simpl.
  - apply reach_new.
  - intros e He. by apply elem_of_nil in He.
Qed.

Lemma produce_effects {Env} `{GoRuntime Env} (d : dialScheduler Env) node (w : World Env) :
  sched_ok d →
  ∃ q' w', produce d node w = Ok (set_staticPool q' d, w') ∧
           sched_ok (set_staticPool q' d) ∧
           (nodePtr node ∈ items (staticPool d) → q' = staticPool d ∧ w' = w) ∧
           (nodePtr node ∉ items (staticPool d) →
              contents (heap q') ≡ₚ
                (node, (time_Now (env w)).1, false, normalPriority)
                  :: contents (heap (staticPool d))).
Proof.
  intros [Hr Htag]. unfold produce.
  destruct (addNow_effects (staticPool d) node false normalPriority w Hr)
    as (q' & w' & Hrun & Hr' & _ & _ & _ & Hin & Hnin).
  rewrite (bind_run _ _ _ _ _ Hrun). exists q', w'. split; [done|].
  split; [|split; [done|]; intros Hn; by destruct (Hnin Hn)].
  split; [done|]. simpl. intros e He. apply (tagged_config d); [done|].
  destruct (decide (nodePtr node ∈ items (staticPool d))) as [Hi|Hni].
  { destruct (Hin Hi) as [-> _]. by apply Htag. }
  destruct (Hnin Hni) as (Hperm & _). rewrite Hperm in He.
  apply elem_of_cons in He as [->|He]; [done|by apply Htag].
Qed.

(** X12: in every state the scheduler reaches, from [newDialScheduler]
    through rounds of the loop and additions by the producer goroutine,
    the pool is a well-formed heap without duplicate nodes, and an entry
    is either a static node under priority 5, which is not the local node
    and has a port if it has an IP, or a discovered node under priority
    10. *)
Theorem sched_reachable_ok {Env} `{GoRuntime Env} (d : dialScheduler Env) :
  sched_reachable d →
  pool_ok (staticPool d) ∧
  (∀ e, e ∈ contents (heap (staticPool d)) → tagged d e).
Proof.
  intros Hsr.
  assert (sched_ok d) as [Hr Htag].
  { induction Hsr as [cfg setup w d st w' Hnew
                     |d st ev w d' st' gs line stop w' _ IH Hrun
                     |d node w d' w' _ IH Hrun].
    - by eapply sched_ok_new.
    - destruct (loopRound_stages d st ev w IH)
        as (d2 & gs' & st3 & line' & w3 & res & tr & Hok2 & _ & _ & _ & _ & _ & _ & _
              & _ & _ & _ & _ & _ & _ & Hrun').
      rewrite Hrun in Hrun'.
      destruct (loopSelect d2 st3 ev w3) as [[[[d'' st''] stop''] w'']| |] eqn:Hsel;
        [|done|done].
      injection Hrun' as -> _ _ _ _ _.
      by destruct (loopSelect_inv d2 st3 ev w3 d'' st'' stop'' w'' Hok2 Hsel) as (Hok' & _).
    - destruct (produce_effects d node w IH) as (q' & w'' & Hrun' & Hok' & _).
      rewrite Hrun in Hrun'. by injection Hrun' as -> _. }
  split; [by apply reachable_ok|]. done.
Qed.

Lemma sched_reachable_ok_witness :
  ∃ d : dialScheduler SimEnv,
    heap (staticPool d) ≠ [] ∧ pool_ok (staticPool d) ∧
    (∀ e, e ∈ contents (heap (staticPool d)) → tagged d e).
Proof.
  pose (w := simWorld (mkSimEnv 5 7 [] [] []) ∅).
  destruct (newDialScheduler (simConfig None) simSetupFunc w)
    as [[[d0 st0] w0]| |] eqn:Hnew; [|by vm_compute in Hnew|by vm_compute in Hnew].
  destruct (loopRound d0 st0 (OnAddStatic nA) w0)
    as [[[[[[d1 st1] gs] line] stop] w1]| |] eqn:Hround.
  2,3: exfalso; revert Hround; vm_compute in Hnew; injection Hnew as <- <- <-;
       vm_compute; discriminate.
  assert (sched_reachable d1) as Hsr.
  { eapply sr_round; [eapply sr_new; exact Hnew|exact Hround]. }
  destruct (sched_reachable_ok d1 Hsr) as (Hok & Htag).
  exists d1. split; [|by split].
  revert Hround. vm_compute in Hnew. injection Hnew as <- <- <-.
  vm_compute. intros Hround. injection Hround as <- _ _ _ _ _. discriminate.
Defined.

(** X13: in a well-formed scheduler the pool hands out a discovered node
    only when no static node is waiting: if [popImpl] returns an entry
    that is not static, no entry of the pool was static. Among the static
    entries, and among the discovered ones, it returns one with the
    earliest time stamp. *)
Theorem static_before_discovered {Env} (d : dialScheduler Env) (x : dialTask2)
    (q' : dialQueue) :
  sched_ok d →
  popImpl (staticPool d) = Ok (Some x, q') →
  (isStatic x = false → ∀ y, y ∈ heap (staticPool d) → isStatic y = false) ∧
  (∀ y, y ∈ heap (staticPool d) → isStatic y = isStatic x →
        insertTime x ≤ insertTime y).
Proof.
  intros [Hr Htag] Hpop. pose proof (reachable_ok _ Hr) as Hok.
  destruct (decide (heap (staticPool d) = [])) as [He|Hne].
  { rewrite popImpl_empty in Hpop by done. done. }
  destruct (popImpl_nonempty _ Hok Hne) as (x' & q'' & Hpop' & _ & Hperm & Hmin & _).
  rewrite Hpop in Hpop'. injection Hpop' as <- <-.
  assert (∀ y, y ∈ heap (staticPool d) → tagged d (entryOf y)) as Htag'.
  { intros y Hy. apply Htag. unfold contents. by apply list_elem_of_fmap_2. }
  assert (tagged d (entryOf x)) as Hx.
  { apply Htag. rewrite <- Hperm. by left. }
  split.
  - intros Hxs y Hy. pose proof (Htag' y Hy) as Hyt. pose proof (Hmin y Hy) as Hle.
    apply leT_spec in Hle. unfold tagged, entryOf in Hx, Hyt. rewrite Hxs in Hx.
    destruct (isStatic y); [|done]. destruct Hyt as (Hp & _).
    rewrite Hx, Hp in Hle. unfold staticPriority, normalPriority in Hle. lia.
  - intros y Hy Heq. pose proof (Htag' y Hy) as Hyt. pose proof (Hmin y Hy) as Hle.
    apply leT_spec in Hle. unfold tagged, entryOf in Hx, Hyt. rewrite Heq in Hyt.
    destruct (isStatic x).
    + destruct Hx as (Hpx & _), Hyt as (Hpy & _). rewrite Hpx, Hpy in Hle. lia.
    + rewrite Hx, Hyt in Hle. lia.
Qed.

Lemma sched_ok_sim : sched_ok (simScheduler None).
Proof.
  split; simpl.
  - apply reach_new.
  - intros e He. by apply elem_of_nil in He.
Qed.

Lemma loopRound_returns_witness :
  ∃ d' st' gs line stop w',
    loopRound (simScheduler None) (mkDialStats 0 0) OnNotify
      (simWorld (mkSimEnv 5 7 [] [] []) ∅)
    = Ok ((d', st', gs, line, stop), w').
Proof.
  assert (∀ p, OnNotify = OnDone p →
            is_Some (tasks (simWorld (mkSimEnv 5 7 [] [] []) ∅) !! p)) as Hev by done.
  destruct (loopRound_returns (simScheduler None) (mkDialStats 0 0) OnNotify
              (simWorld (mkSimEnv 5 7 [] [] []) ∅) sched_ok_sim Hev)
    as (d' & st' & gs & line & stop & w' & _ & Hrun & _).
  by exists d', st', gs, line, stop, w'.
Defined.

Lemma static_before_discovered_witness :
  ∃ (d : dialScheduler SimEnv) x q',
    popImpl (staticPool d) = Ok (Some x, q') ∧ addr x = nA ∧
    (∀ y, y ∈ heap (staticPool d) → isStatic y = isStatic x →
          insertTime x ≤ insertTime y).
Proof.
  destruct (add newDialQueue nB false normalPriority 3) as [q1| |] eqn:Hq1;
    [|by vm_compute in Hq1|by vm_compute in Hq1].
  destruct (add q1 nA true staticPriority 7) as [q2| |] eqn:Hq2.
  2,3: exfalso; revert Hq2; vm_compute in Hq1; injection Hq1 as <-;
       vm_compute; discriminate.
  pose (d := set_staticPool q2 (simScheduler None)).
  assert (sched_ok d) as Hok.
  { split; simpl.
    - eapply reach_add; [|exact Hq2]. eapply reach_add; [apply reach_new|exact Hq1].
    - revert Hq2. vm_compute in Hq1. injection Hq1 as <-.
      vm_compute. intros Hq2. injection Hq2 as <-. intros e He.
      apply elem_of_cons in He as [->|He]; [simpl; split_and!; [done|done|tauto]|].
      apply elem_of_cons in He as [->|He]; [done|]. by apply elem_of_nil in He. }
  destruct (popImpl (staticPool d)) as [[[x|] q']| |] eqn:Hpop.
  2,3,4: exfalso; revert Hpop; subst d; simpl; revert Hq2; vm_compute in Hq1;
         injection Hq1 as <-; vm_compute; intros Hq2; injection Hq2 as <-;
         vm_compute; discriminate.
  destruct (static_before_discovered d x q' Hok Hpop) as [_ Hmin].
  exists d, x, q'. split; [done|]. split; [|done].
  revert Hpop. subst d. simpl. revert Hq2. vm_compute in Hq1. injection Hq1 as <-.
  vm_compute. intros Hq2. injection Hq2 as <-. vm_compute.
  intros Hpop. by injection Hpop as <- _.
Defined.

(** X14: the dials in flight stay within [maxActiveDials]: if there are no
    more than that before a round of the loop (none, if the limit is
    negative), there are no more than that after it, while the peer counts
    are far from the ends of Go's [int]. *)
Theorem dialing_bound {Env} `{GoRuntime Env} (d d' : dialScheduler Env)
    (st st' : dialStats) (ev : loopEvent) (w w' : World Env) gs line stop :
  sched_ok d →
  - 2 ^ 60 ≤ maxDialPeers (config d) ≤ 2 ^ 60 →
  - 2 ^ 60 ≤ dialPeers d ≤ 2 ^ 60 →
  - 2 ^ 60 ≤ maxActiveDials (config d) ≤ 2 ^ 60 →
  Z.of_nat (size (dialing d)) ≤ Z.max 0 (maxActiveDials (config d)) →
  loopRound d st ev w = Ok ((d', st', gs, line, stop), w') →
  Z.of_nat (size (dialing d')) ≤ Z.max 0 (maxActiveDials (config d')).
Proof.
  intros Hok Hmp Hdp Hma Hsz Hrun.
  destruct (loopRound_stages d st ev w Hok)
    as (d2 & gs' & st3 & line' & w3 & res & tr & Hok2 & Hc & _ & _ & _ & _ & Hsize & Hcap
          & _ & _ & _ & _ & _ & _ & Hrun').
  rewrite Hrun in Hrun'.
  destruct (loopSelect d2 st3 ev w3) as [[[[d'' st''] stop''] w'']| |] eqn:Hsel;
    [|done|done].
  injection Hrun' as -> _ _ _ _ _.
  destruct (loopSelect_inv d2 st3 ev w3 d'' st'' stop'' w'' Hok2 Hsel)
    as (_ & Hc' & Hsub & _).
  pose proof (subseteq_size _ _ Hsub) as Hle. rewrite Hc', Hc.
  assert (freeDialSlots d ≤ maxActiveDials (config d) - Z.of_nat (size (dialing d)))
    as Hfree.
  { unfold freeDialSlots.
    rewrite (wrap64_small (maxDialPeers (config d) - dialPeers d)) by lia.
    rewrite (wrap64_small ((maxDialPeers (config d) - dialPeers d) * 2)) by lia.
    case_bool_decide; rewrite wrap64_small by lia; lia. }
  lia.
Qed.

Lemma dialing_bound_witness :
  ∃ d' : dialScheduler SimEnv,
    Z.of_nat (size (dialing d')) ≤ Z.max 0 (maxActiveDials (config d')).
Proof.
  pose (w := simWorld (mkSimEnv 5 7 [] [] []) ∅).
  destruct (loopRound (simScheduler None) (mkDialStats 0 0) (OnAddStatic nA) w)
    as [[[[[[d1 st1] gs] line] stop] w1]| |] eqn:Hround;
    [|by vm_compute in Hround|by vm_compute in Hround].
  exists d1.
  apply (dialing_bound (simScheduler None) d1 (mkDialStats 0 0) st1 (OnAddStatic nA)
           w w1 gs line stop sched_ok_sim); [by vm_compute|by vm_compute|by vm_compute| |exact Hround].
  vm_compute. discriminate.
Defined.

(** ** The scheduler: the handlers of the loop *)





Lemma wrap64_succ_pred x : - 2 ^ 63 ≤ x < 2 ^ 63 → wrap64 (wrap64 (x + 1) - 1) = x.
Proof.
  intros Hx. destruct (decide (x = 2 ^ 63 - 1)) as [->|Hne]; [by vm_compute|].
  rewrite (wrap64_small (x + 1)) by lia. rewrite wrap64_small by lia. lia.
Qed.

(** X16: a peer that connects and disconnects. After the handler of
    [addPeerCh] the node is among the peers and [checkDial] refuses it;
    after the handler of [remPeerCh] for the same connection the node is
    no longer among the peers and the count of dialled peers is what it
    was, also when the count wrapped in between. A connection that is
    neither dynamically nor statically dialled, such as an inbound one,
    never moves the count. Neither handler touches the dials in flight,
    the static set or the statistics. *)
Theorem peer_add_remove {Env} `{GoRuntime Env} (d : dialScheduler Env) (st : dialStats)
    (c : conn) (w : World Env) :
  sched_ok d →
  - 2 ^ 63 ≤ dialPeers d < 2 ^ 63 →
  ∃ d1 d2 w2,
    loopSelect d st (OnAddPeer c) w = Ok ((d1, st, false), w) ∧
    peers d1 = {[Node_ID (conn_node c)]} ∪ peers d ∧
    checkDial d1 (conn_node c) ≠ None ∧
    staticPool d1 = staticPool d ∧
    loopSelect d1 st (OnRemPeer c) w = Ok ((d2, st, false), w2) ∧
    peers d2 = peers d ∖ {[Node_ID (conn_node c)]} ∧
    dialPeers d2 = dialPeers d ∧
    dialing d2 = dialing d ∧ static d2 = static d ∧
    (conn_is c dynDialedConn = false → conn_is c staticDialedConn = false →
       dialPeers d1 = dialPeers d).
Proof.
  intros Hok Hrange.
  set (b := conn_is c dynDialedConn || conn_is c staticDialedConn).
  pose (d0 := if b then set_dialPeers (wrap64 (dialPeers d + 1)) d else d).
  pose (d1 := set_peers ({[Node_ID (conn_node c)]} ∪ peers d0) d0).
  assert (staticPool d1 = staticPool d ∧ config d1 = config d ∧
          dialing d1 = dialing d ∧ static d1 = static d ∧
          peers d1 = {[Node_ID (conn_node c)]} ∪ peers d ∧
          dialPeers d1 = (if b then wrap64 (dialPeers d + 1) else dialPeers d))
    as (Hsp & Hc & Hdg & Hst & Hpe & Hdp).
  { subst d1 d0. by destruct b. }
  pose (d0' := if b then set_dialPeers (wrap64 (dialPeers d1 - 1)) d1 else d1).
  pose (d1' := set_peers (peers d0' ∖ {[Node_ID (conn_node c)]}) d0').
  assert (staticPool d1' = staticPool d ∧ config d1' = config d ∧
          dialing d1' = dialing d ∧ static d1' = static d ∧
          peers d1' = peers d1 ∖ {[Node_ID (conn_node c)]} ∧
          dialPeers d1' = (if b then wrap64 (dialPeers d1 - 1) else dialPeers d1))
    as (Hsp' & Hc' & Hdg' & Hst' & Hpe' & Hdp').
  { subst d1' d0'. destruct b; simpl; by rewrite ?Hsp, ?Hc, ?Hdg, ?Hst. }
  assert (sched_ok d1') as Hok1 by (by apply (sched_ok_fields d)).
  destruct (updateStaticPool_effects d1' (conn_node c) w Hok1)
    as (q' & w2 & Hup & _).
  exists d1, (set_staticPool q' d1'), w2.
  split; [done|]. split; [done|]. split.
  { unfold checkDial. rewrite Hpe. repeat case_decide; try done.
    match goal with
    | Hn : _ ∉ {[_]} ∪ _ |- _ =>
        destruct Hn; apply elem_of_union; left; by apply elem_of_singleton
    end. }
  split; [done|]. split.
  { simpl. fold b. fold d0'. fold d1'. by rewrite (bind_run _ _ _ _ _ Hup). }
  split.
  { change (peers d1' = peers d ∖ {[Node_ID (conn_node c)]}).
    rewrite Hpe', Hpe. apply set_eq. intros x.
    rewrite !elem_of_difference, elem_of_union. tauto. }
  split.
  { change (dialPeers d1' = dialPeers d).
    rewrite Hdp', Hdp. destruct b; [by apply wrap64_succ_pred|done]. }
  split; [exact Hdg'|]. split; [exact Hst'|].
  intros H1 H2. rewrite Hdp. subst b. by rewrite H1, H2.
Qed.

Lemma peer_add_remove_witness :
  ∃ d1 d2 w2,
    loopSelect (simScheduler None) (mkDialStats 0 0) (OnAddPeer (mkConn dynDialedConn nB))
      (simWorld (mkSimEnv 5 0 [] [] []) ∅)
    = Ok ((d1, mkDialStats 0 0, false), simWorld (mkSimEnv 5 0 [] [] []) ∅) ∧
    loopSelect d1 (mkDialStats 0 0) (OnRemPeer (mkConn dynDialedConn nB))
      (simWorld (mkSimEnv 5 0 [] [] []) ∅)
    = Ok ((d2, mkDialStats 0 0, false), w2) ∧
    dialPeers d1 = 1 ∧ dialPeers d2 = 0.
Proof.
  assert (- 2 ^ 63 ≤ dialPeers (simScheduler None) < 2 ^ 63) as Hr by (by vm_compute).
  destruct (peer_add_remove (simScheduler None) (mkDialStats 0 0)
              (mkConn dynDialedConn nB) (simWorld (mkSimEnv 5 0 [] [] []) ∅)
              sched_ok_sim Hr)
    as (d1 & d2 & w2 & Hadd & _ & _ & _ & Hrem & _ & Hdp & _).
  exists d1, d2, w2. split; [exact Hadd|]. split; [exact Hrem|].
  split; [|exact Hdp].
  revert Hadd. vm_compute. intros Hadd. by injection Hadd as <-.
Defined.

Lemma checkDial_static {Env} (s : gset ID) (d : dialScheduler Env) n :
  checkDial (set_static s d) n = checkDial d n.
Proof. done. Qed.

(** X17: adding and removing a static node. The handler of [addStaticCh]
    for a node not yet static puts its identifier into the static set and,
    if [checkDial] accepts the node, the node into the pool; the same
    request again changes nothing. The handler of [remStaticCh] then gives
    the static set as it was before, but leaves the pool alone: the node
    stays in it. Neither touches the dials in flight or the peers. *)
Theorem static_add_remove {Env} `{GoRuntime Env} (d : dialScheduler Env) (st : dialStats)
    (node : Node) (w : World Env) :
  sched_ok d →
  Node_ID node ∉ static d →
  ∃ d1 w1 d2,
    loopSelect d st (OnAddStatic node) w = Ok ((d1, st, false), w1) ∧
    static d1 = {[Node_ID node]} ∪ static d ∧
    (checkDial d node = None → nodePtr node ∈ items (staticPool d1)) ∧
    (checkDial d node ≠ None → staticPool d1 = staticPool d ∧ w1 = w) ∧
    dialing d1 = dialing d ∧ peers d1 = peers d ∧
    loopSelect d1 st (OnAddStatic node) w1 = Ok ((d1, st, false), w1) ∧
    loopSelect d1 st (OnRemStatic node) w1 = Ok ((d2, st, false), w1) ∧
    static d2 = static d ∧ staticPool d2 = staticPool d1 ∧
    dialing d2 = dialing d ∧ peers d2 = peers d.
Proof.
  intros Hok Hnin.
  assert (Node_ID node ∈ {[Node_ID node]} ∪ static d) as Hin.
  { apply elem_of_union. left. by apply elem_of_singleton. }
  assert (({[Node_ID node]} ∪ static d) ∖ {[Node_ID node]} = static d) as Hback.
  { apply set_eq. intros x. rewrite elem_of_difference, elem_of_union, elem_of_singleton.
    split; [tauto|]. intros Hx. split; [by right|]. by intros ->. }
  simpl. rewrite (bool_decide_false _ Hnin). rewrite checkDial_static.
  set (d0 := set_static _ d).
  destruct (checkDial d node) as [e|] eqn:Hcheck.
  - exists d0, w, (set_static (static d0 ∖ {[Node_ID node]}) d0).
    split; [done|]. split; [done|]. split; [done|]. split; [done|].
    split; [done|]. split; [done|]. simpl.
    rewrite (bool_decide_true _ Hin). split; [done|]. split; [done|].
    split; [done|]. done.
  - assert (sched_ok d0) as Hok0 by (by apply (sched_ok_fields d)).
    destruct (addToStaticPool_effects d0 node w Hok0)
      as (q' & w1 & Hadd & _ & _ & _ & _ & Hpin & Hpnin); [done|].
    rewrite (bind_run _ _ _ _ _ Hadd).
    set (d1 := set_staticPool q' d0).
    exists d1, w1, (set_static (static d1 ∖ {[Node_ID node]}) d1).
    split; [done|]. split; [done|]. split.
    { intros _. simpl. destruct (decide (nodePtr node ∈ items (staticPool d))) as [Hi|Hni].
      - by destruct (Hpin Hi) as [-> _].
      - destruct (Hpnin Hni) as (_ & _ & ->). apply elem_of_union. left.
        by apply elem_of_singleton. }
    split; [done|]. split; [done|]. split; [done|]. simpl.
    rewrite (bool_decide_true _ Hin). split; [done|]. split; [done|].
    split; [done|]. done.
Qed.

Lemma static_add_remove_witness :
  ∃ d1 w1,
    loopSelect (simScheduler None) (mkDialStats 0 0) (OnAddStatic nA)
      (simWorld (mkSimEnv 5 7 [] [] []) ∅)
    = Ok ((d1, mkDialStats 0 0, false), w1) ∧
    nodePtr nA ∈ items (staticPool d1).
Proof.
  assert (Node_ID nA ∉ static (simScheduler None)) as Hnin.
  { simpl. apply not_elem_of_empty. }
  destruct (static_add_remove (simScheduler None) (mkDialStats 0 0) nA
              (simWorld (mkSimEnv 5 7 [] [] []) ∅) sched_ok_sim Hnin)
    as (d1 & w1 & d2 & Hadd & _ & Hpool & _).
  exists d1, w1. split; [exact Hadd|]. apply Hpool. reflexivity.
Defined.

(** X18: the "Looking for peers" message. [logStats] always returns; it
    does nothing at all while less than 10 s have passed on the clock
    since the last time it went through; when it goes through it resets
    the count of finished dials and remembers the clock reading, and it
    logs only if fewer than three dialled peers are connected and fewer
    than [maxDialPeers]; the message carries the number of peers, of
    finished dials since the last time, and of static nodes. Hence two
    messages are at least 10 s apart. *)
Theorem logStats_rate {Env} (d : dialScheduler Env) (st : dialStats) (w : World Env) :
  - 2 ^ 62 ≤ lastStatsLog st < 2 ^ 62 →
  let now := (Now (clock (config d)) (env w)).1 in
  ∃ st' line w',
    logStats d st w = Ok ((st', line), w') ∧
    tasks w' = tasks w ∧ doneCh w' = doneCh w ∧ trace w' = trace w ∧
    (now < lastStatsLog st + dialStatsLogInterval → st' = st ∧ line = None) ∧
    (lastStatsLog st + dialStatsLogInterval ≤ now →
       st' = {| lastStatsLog := now; doneSinceLastLog := 0 |} ∧
       (is_Some line ↔
          dialPeers d < dialStatsPeerLimit ∧ dialPeers d < maxDialPeers (config d))) ∧
    (∀ l, line = Some l →
       lastStatsLog st + dialStatsLogInterval ≤ lastStatsLog st' ∧
       peercount l = Z.of_nat (size (peers d)) ∧
       tried l = doneSinceLastLog st ∧
       staticCount l = Z.of_nat (size (static d))).
Proof.
  intros Hrange now. subst now. unfold logStats.
  rewrite (bind_run _ _ _ _ _ (liftEnv_run _ w)).
  unfold AbsTime_Add.
  rewrite wrap64_small by (unfold dialStatsLogInterval, Second; lia).
  case_bool_decide as Hcmp.
  - eexists _, _, _. split; [reflexivity|]. simpl. split_and!; try done.
    all: intros Hle; exfalso; by apply (Zle_not_lt _ _ Hle), Z.gt_lt.
  - eexists _, _, _. split; [reflexivity|]. simpl. split_and!; try done.
    + intros Hlt. exfalso. by apply Hcmp, Z.lt_gt.
    + intros _. split; [done|].
      destruct (bool_decide (dialPeers d < dialStatsPeerLimit)
                && bool_decide (dialPeers d < maxDialPeers (config d))) eqn:Hb.
      * apply andb_true_iff in Hb as [H1 H2].
        apply bool_decide_eq_true in H1. apply bool_decide_eq_true in H2.
        split; [done|]. by eexists.
      * apply andb_false_iff in Hb. split; [by intros [? ?]|].
        intros [H1 H2]. exfalso.
        destruct Hb as [Hb|Hb]; apply bool_decide_eq_false in Hb; lia.
    + intros l Hl.
      destruct (bool_decide (dialPeers d < dialStatsPeerLimit)
                && bool_decide (dialPeers d < maxDialPeers (config d))); [|done].
      injection Hl as <-. simpl. split; [by apply Z.le_ngt, (not_iff_compat (Z.gt_lt_iff _ _))|done].
Qed.

Lemma logStats_rate_witness :
  ∃ st' line w',
    logStats (simScheduler None) (mkDialStats 0 4)
      (simWorld (mkSimEnv (11 * Second) 0 [] [] []) ∅)
    = Ok ((st', line), w') ∧ is_Some line.
Proof.
  assert (- 2 ^ 62 ≤ lastStatsLog (mkDialStats 0 4) < 2 ^ 62) as Hr by (by vm_compute).
  destruct (logStats_rate (simScheduler None) (mkDialStats 0 4)
              (simWorld (mkSimEnv (11 * Second) 0 [] [] []) ∅) Hr)
    as (st' & line & w' & Hrun & _ & _ & _ & _ & Hgo & _).
  exists st', line, w'. split; [exact Hrun|].
  destruct Hgo as [_ Hline]; [by vm_compute|]. apply Hline. by vm_compute.
Defined.

(** ** Launching from the pool: which entries become tasks, and in which
    order *)

Lemma contents_elem (h : dialQueueImpl) e :
  e ∈ contents h ↔ ∃ y, y ∈ h ∧ e = entryOf y.
Proof.
  unfold contents. rewrite list_elem_of_fmap. split; intros (y & H1 & H2); exists y; done.
Qed.

Lemma startStaticDials_loop_launches {Env} fuel (d0 : dialScheduler Env) q n started res w :
  pool_ok q → (length (heap q) < fuel)%nat →
  - 2 ^ 63 ≤ started → n < 2 ^ 63 →
  ∃ q' started' new w' popped,
    startStaticDials_loop fuel (set_staticPool q d0) n started res w
      = Ok ((set_staticPool q' d0, (started', res ++ new)), w') ∧
    started' = started + Z.of_nat (length new) ∧
    contents (heap q) ≡ₚ popped ++ contents (heap q') ∧
    StronglySorted leE popped ∧
    (∀ e e', e ∈ popped → e' ∈ contents (heap q') → leE e e') ∧
    Forall2 (λ p e, tasks w' !! p = Some (taskFor e)) new
            (filter (λ e, admissible d0 e = true) popped) ∧
    (∀ p, p ∈ dom (tasks w) → tasks w' !! p = tasks w !! p) ∧
    (n ≤ started + Z.of_nat (length new) ∨ heap q' = []).
Proof.
  revert q started res w.
  induction fuel as [|fuel IH]; intros q started res w Hok Hf Hlo Hhi; [lia|].
  simpl. destruct (bool_decide (started < n) && bool_decide (Len q > 0)) eqn:Hc; last first.
  { exists q, started, [], w, []. rewrite app_nil_r. simpl.
    split; [done|]. split; [lia|]. split; [done|]. split; [constructor|].
    split; [intros e e' He; by apply elem_of_nil in He|].
    split; [constructor|]. split; [done|].
    apply andb_false_iff in Hc as [Hc|Hc]; apply bool_decide_eq_false in Hc.
    - left. lia.
    - right. rewrite (Len_ok q Hok) in Hc. destruct (heap q); [done|simpl in Hc; lia]. }
  apply andb_true_iff in Hc as [Hlt HLen].
  apply bool_decide_eq_true in Hlt. apply bool_decide_eq_true in HLen.
  destruct (popImpl_nonempty q Hok (Len_pos q Hok HLen))
    as (x & q1 & Hpop & Hok1 & Hperm & Hmin & HLen1).
  unfold mbind, M_bind, liftO. rewrite Hpop.
  assert (length (heap q1) < fuel)%nat as Hf1.
  { rewrite (Len_ok _ Hok1), (Len_ok q) in HLen1 by done. lia. }
  change (set_staticPool q1 (set_staticPool q d0)) with (set_staticPool q1 d0).
  simpl.
  assert (∀ e, e ∈ contents (heap q1) → leE (entryOf x) e) as Hmin1.
  { intros e He. assert (e ∈ contents (heap q)) as He'.
    { rewrite <- Hperm. by right. }
    apply contents_elem in He' as (y & Hy & ->). by apply leT_leE, Hmin. }
  assert (∀ q' popped,
            contents (heap q1) ≡ₚ popped ++ contents (heap q') →
            StronglySorted leE popped →
            (∀ e e', e ∈ popped → e' ∈ contents (heap q') → leE e e') →
            contents (heap q) ≡ₚ (entryOf x :: popped) ++ contents (heap q') ∧
            StronglySorted leE (entryOf x :: popped) ∧
            (∀ e e', e ∈ entryOf x :: popped → e' ∈ contents (heap q') → leE e e'))
    as Hpopped.
  { intros q' popped Hp Hs Hcross. split; [by rewrite <- Hperm, Hp|]. split.
    - constructor; [done|]. apply Forall_forall. intros e He. apply Hmin1.
      rewrite Hp. apply elem_of_app. by left.
    - intros e e' He He'. apply elem_of_cons in He as [->|He]; [|by apply Hcross].
      apply Hmin1. rewrite Hp. apply elem_of_app. by right. }
  assert (admissible d0 (entryOf x) = false →
    ∃ q' started' new w' popped,
    startStaticDials_loop fuel (set_staticPool q1 d0) n started res w
      = Ok ((set_staticPool q' d0, (started', res ++ new)), w') ∧
    started' = started + Z.of_nat (length new) ∧
    contents (heap q) ≡ₚ popped ++ contents (heap q') ∧
    StronglySorted leE popped ∧
    (∀ e e', e ∈ popped → e' ∈ contents (heap q') → leE e e') ∧
    Forall2 (λ p e, tasks w' !! p = Some (taskFor e)) new
            (filter (λ e, admissible d0 e = true) popped) ∧
    (∀ p, p ∈ dom (tasks w) → tasks w' !! p = tasks w !! p) ∧
    (n ≤ started + Z.of_nat (length new) ∨ heap q' = [])) as Hskip.
  { intros Hadm.
    destruct (IH q1 started res w Hok1 Hf1 Hlo Hhi)
      as (q' & started' & new & w' & popped & Hrun & Hst & Hp & Hs & Hcross & Hall
            & Hkeep & Hex).
    destruct (Hpopped q' popped Hp Hs Hcross) as (Hp' & Hs' & Hcross').
    exists q', started', new, w', (entryOf x :: popped).
    split; [done|]. split; [done|]. split; [done|]. split; [done|]. split; [done|].
    split; [|done]. rewrite filter_cons_False; [done|]. by rewrite Hadm. }
  unfold admissible, entryOf in Hskip.
  destruct (isStatic x && negb (bool_decide (Node_ID (addr x) ∈ static d0))) eqn:E1;
    [by apply Hskip|].
  destruct (bool_decide (Node_ID (addr x) ∈ peers d0)) eqn:E2; [by apply Hskip|].
  change (checkDial (set_staticPool q1 d0) (addr x)) with (checkDial d0 (addr x)).
  destruct (checkDial d0 (addr x)) eqn:E3; [by apply Hskip|]. clear Hskip.
  assert (admissible d0 (entryOf x) = true) as Hadm.
  { unfold admissible, entryOf. by rewrite E1, E2, E3. }
  set (flag := if isStatic x then staticDialedConn else dynDialedConn).
  set (t := {| flags := flag; dest := addr x; lastResolved := 0; resolveDelay := 0 |}).
  set (p := fresh (dom (tasks w))).
  set (w1 := mkWorld (env w) (<[p := t]> (tasks w)) (doneCh w) (trace w)).
  assert ((if isStatic x then newDialTask (addr x) staticDialedConn
           else newDialTask (addr x) dynDialedConn) w = Ok (p, w1)) as ->.
  { unfold flag in t. by destruct (isStatic x). }
  assert (p ∉ dom (tasks w)) as Hfresh by apply is_fresh.
  assert (wrap64 (started + 1) = started + 1) as Hw by (apply wrap64_small; lia).
  rewrite Hw.
  destruct (IH q1 (started + 1) (res ++ [p]) w1 Hok1 Hf1 ltac:(lia) Hhi)
    as (q' & started' & new & w' & popped & Hrun & Hst & Hp & Hs & Hcross & Hall
          & Hkeep & Hex).
  destruct (Hpopped q' popped Hp Hs Hcross) as (Hp' & Hs' & Hcross').
  exists q', started', (p :: new), w', (entryOf x :: popped).
  split; [by rewrite Hrun, <- (assoc_L (++))|]. split; [simpl; lia|].
  split; [done|]. split; [done|]. split; [done|].
  assert (p ∈ dom (tasks w1)) as Hpin.
  { simpl. rewrite dom_insert_L. apply elem_of_union. left. by apply elem_of_singleton. }
  split.
  { rewrite filter_cons_True by done. constructor; [|done].
    rewrite (Hkeep p Hpin). simpl. by rewrite lookup_insert_eq. }
  split.
  { intros p' Hp''. rewrite Hkeep.
    - simpl. rewrite lookup_insert_ne; [done|]. by intros <-.
    - simpl. rewrite dom_insert_L. apply elem_of_union. by right. }
  destruct Hex as [Hex|Hex]; [left; simpl; lia|by right].
Qed.

(** X19: which entries [startStaticDials] turns into tasks. It pops
    entries off the pool in the order of the pool's key, each popped entry
    sorting no later than every entry left behind; the tasks it returns
    are, in that order, those of the popped entries that pass the three
    tests (a static entry still in the static set, not a connected peer,
    accepted by [checkDial]), each with the entry's node as destination
    and the flag of the entry's kind. The tests are made against the
    scheduler as it is when the call starts. *)
Theorem startStaticDials_launches {Env} (d : dialScheduler Env) (w : World Env) :
  pool_ok (staticPool d) →
  ∃ d' started res w' popped,
    startStaticDials d w = Ok ((d', (started, res)), w') ∧
    started = Z.of_nat (length res) ∧
    contents (heap (staticPool d)) ≡ₚ popped ++ contents (heap (staticPool d')) ∧
    StronglySorted leE popped ∧
    (∀ e e', e ∈ popped → e' ∈ contents (heap (staticPool d')) → leE e e') ∧
    Forall2 (λ p e, tasks w' !! p = Some (taskFor e)) res
            (filter (λ e, admissible d e = true) popped) ∧
    (freeDialSlots d ≤ Z.of_nat (length res) ∨ heap (staticPool d') = []).
Proof.
  intros Hok. unfold startStaticDials.
  destruct (startStaticDials_loop_launches (S (size (items (staticPool d)))) d
              (staticPool d) (freeDialSlots d) 0 [] w Hok)
    as (q' & started' & new & w' & popped & Hrun & Hst & Hp & Hs & Hcross & Hall & _ & Hex).
  { pose proof (Len_ok _ Hok) as HL. unfold Len in HL. lia. }
  { lia. }
  { unfold freeDialSlots. apply wrap64_range. }
  rewrite set_staticPool_id in Hrun. simpl in Hrun.
  exists (set_staticPool q' d), started', new, w', popped.
  split; [done|]. split; [lia|]. split; [done|]. split; [done|]. split; [done|].
  split; [done|].
  simpl. destruct Hex as [Hex|Hex]; [left; lia|by right].
Qed.

Lemma startStaticDials_launches_witness :
  ∃ d' started res w',
    startStaticDials discoveredStatic (simWorld (mkSimEnv 0 0 [] [] []) ∅)
      = Ok ((d', (started, res)), w') ∧ length res = 1%nat.
Proof.
  pose proof (reachable_ok _ discoveredStatic_reachable) as Hok.
  destruct (startStaticDials_launches discoveredStatic
              (simWorld (mkSimEnv 0 0 [] [] []) ∅) Hok)
    as (d' & started & res & w' & popped & Hrun & _).
  exists d', started, res, w'. split; [exact Hrun|].
  revert Hrun. vm_compute. intros Hrun. by injection Hrun as <- <- <- <-.
Defined.

Lemma filter_all {A} (P : A → Prop) `{∀ x, Decision (P x)} (l : list A) :
  Forall P l → filter P l = l.
Proof.
  induction 1 as [|x l Hx _ IH]; [done|]. by rewrite filter_cons_True, IH.
Qed.

(** X20: [startStaticDials] tests every popped entry against the dials in
    flight as they are when the call starts; the tasks it builds are
    marked as in flight only afterwards, by [startDial]. So when the pool
    holds two entries for nodes with one identifier, held under two node
    references, both accepted by the tests, and two slots are free, one
    call returns two distinct tasks for the same node identifier. *)
Theorem same_node_launched_twice {Env} (d : dialScheduler Env) (w : World Env)
    (ea eb : entry) :
  reachable (staticPool d) →
  contents (heap (staticPool d)) ≡ₚ [ea; eb] →
  admissible d ea = true → admissible d eb = true →
  Node_ID ea.1.1.1 = Node_ID eb.1.1.1 →
  2 ≤ freeDialSlots d →
  ∃ d' p1 p2 w' t1 t2,
    startStaticDials d w = Ok ((d', (2, [p1; p2])), w') ∧
    p1 ≠ p2 ∧
    tasks w' !! p1 = Some t1 ∧ tasks w' !! p2 = Some t2 ∧
    Node_ID (dest t1) = Node_ID (dest t2) ∧
    heap (staticPool d') = [].
Proof.
  intros Hr Hperm Ha Hb Hid Hfree. pose proof (reachable_ok _ Hr) as Hok.
  destruct (startStaticDials_effects d w Hr)
    as (q0 & res0 & w0 & popped0 & Hrun0 & _ & _ & _ & _ & _ & _ & _ & _ & _ & _ & Hnd & _).
  assert (∃ q' started' new w' popped,
            startStaticDials d w = Ok ((set_staticPool q' d, (started', new)), w') ∧
            started' = Z.of_nat (length new) ∧
            contents (heap (staticPool d)) ≡ₚ popped ++ contents (heap q') ∧
            Forall2 (λ p e, tasks w' !! p = Some (taskFor e)) new
                    (filter (λ e, admissible d e = true) popped) ∧
            (freeDialSlots d ≤ Z.of_nat (length new) ∨ heap q' = []))
    as (q' & started' & new & w' & popped & Hrun & Hst & Hp & Hall & Hex).
  { unfold startStaticDials.
    destruct (startStaticDials_loop_launches (S (size (items (staticPool d)))) d
                (staticPool d) (freeDialSlots d) 0 [] w Hok)
      as (q' & started' & new & w' & popped & Hrun & Hst & Hp & _ & _ & Hall & _ & Hex).
    { pose proof (Len_ok _ Hok) as HL. unfold Len in HL. lia. }
    { lia. }
    { unfold freeDialSlots. apply wrap64_range. }
    rewrite set_staticPool_id in Hrun. simpl in Hrun.
    exists q', started', new, w', popped. split; [done|]. split; [lia|].
    split; [done|]. split; [done|]. destruct Hex as [Hex|Hex]; [left; lia|by right]. }
  assert (res0 = new) as -> by (rewrite Hrun in Hrun0; congruence).
  clear Hrun0. subst started'.
  pose proof (Forall2_length _ _ _ Hall) as Hlen.
  pose proof (length_filter (λ e, admissible d e = true) popped) as Hfl.
  assert (length popped + length (heap q') = 2)%nat as Hsum.
  { rewrite Hperm in Hp. apply Permutation_length in Hp.
    unfold contents in Hp. rewrite length_app, length_fmap in Hp. simpl in Hp. lia. }
  assert (heap q' = []) as Hq'.
  { destruct Hex as [Hex|Hex]; [|done].
    destruct (heap q'); [done|]. simpl in Hsum. lia. }
  rewrite Hq', app_nil_r in Hp. rewrite Hperm in Hp.
  assert (Forall (λ e, admissible d e = true) popped) as Hadm.
  { rewrite <- Hp. by repeat constructor. }
  rewrite (filter_all _ _ Hadm) in Hall.
  assert (∃ e1 e2, popped = [e1; e2] ∧ Node_ID e1.1.1.1 = Node_ID e2.1.1.1)
    as (e1 & e2 & -> & Hid').
  { apply Permutation_length_2_inv in Hp as [->| ->];
      [by exists ea, eb|by exists eb, ea]. }
  pose proof (Forall2_length _ _ _ Hall) as Hlen2.
  destruct new as [|p1 [|p2 [|p3 new]]]; try (by simpl in Hlen2).
  apply Forall2_cons in Hall as [H1 Hall]. apply Forall2_cons in Hall as [H2 _].
  exists (set_staticPool q' d), p1, p2, w', (taskFor e1), (taskFor e2).
  split; [done|]. split.
  { apply NoDup_cons in Hnd as [Hnin _]. intros ->. apply Hnin. by left. }
  split; [done|]. split; [done|]. split; [|done].
  by destruct e1 as [[[a1 ?] ?] ?], e2 as [[[a2 ?] ?] ?].
Qed.

Lemma same_node_launched_twice_witness :
  ∃ d' p1 p2 w',
    startStaticDials
      (set_staticPool
         {| heap := [mkDialTask2 0 nD 3 false normalPriority;
                     mkDialTask2 1 (mkNode 9%N 104%N (Some [10; 0; 0; 1]%N) 30303) 4 false
                       normalPriority];
            items := {[nodePtr nD; 9%N]} |}
         (simScheduler None))
      (simWorld (mkSimEnv 0 0 [] [] []) ∅)
    = Ok ((d', (2, [p1; p2])), w') ∧ p1 ≠ p2.
Proof.
  set (n2 := mkNode 9%N 104%N (Some [10; 0; 0; 1]%N) 30303).
  set (q := {| heap := [mkDialTask2 0 nD 3 false normalPriority;
                        mkDialTask2 1 n2 4 false normalPriority];
               items := {[nodePtr nD; 9%N]} |}).
  assert (reachable q) as Hr.
  { apply (reach_add {| heap := [mkDialTask2 0 nD 3 false normalPriority];
                        items := {[nodePtr nD]} |} n2 false normalPriority 4).
    - apply (reach_add newDialQueue nD false normalPriority 3); [constructor|].
      vm_compute. reflexivity.
    - vm_compute. reflexivity. }
  destruct (same_node_launched_twice (set_staticPool q (simScheduler None))
              (simWorld (mkSimEnv 0 0 [] [] []) ∅)
              (nD, 3, false, normalPriority) (n2, 4, false, normalPriority))
    as (d' & p1 & p2 & w' & t1 & t2 & Hrun & Hne & _);
    [exact Hr|reflexivity|reflexivity|reflexivity|reflexivity|vm_compute; discriminate|].
  by exists d', p1, p2, w'.
Defined.

(** ** The scheduler: what each handler may change *)

Lemma pool_grows_cases (q q' : dialQueue) (e0 : entry) :
  q' = q ∨ contents (heap q') ≡ₚ e0 :: contents (heap q) →
  (∀ e, e ∈ contents (heap q) → e ∈ contents (heap q')) ∧
  (length (heap q') ≤ S (length (heap q)))%nat.
Proof.
  intros [->|Hperm]; [split; [done|lia]|]. split.
  - intros e He. rewrite Hperm. by right.
  - apply Permutation_length in Hperm. unfold contents in Hperm.
    rewrite !length_fmap in Hperm. simpl in Hperm. rewrite !length_fmap in Hperm. lia.
Qed.

Lemma addToStaticPool_grows {Env} `{GoRuntime Env} (d : dialScheduler Env) node
    (w : World Env) :
  sched_ok d → checkDial d node = None →
  ∃ q' w',
    addToStaticPool d node w = Ok (set_staticPool q' d, w') ∧
    (∀ e, e ∈ contents (heap (staticPool d)) → e ∈ contents (heap q')) ∧
    (length (heap q') ≤ S (length (heap (staticPool d))))%nat.
Proof.
  intros Hok Hcheck.
  destruct (addToStaticPool_effects d node w Hok Hcheck)
    as (q' & w' & Hrun & _ & _ & _ & _ & Hin & Hnin).
  exists q', w'. split; [done|].
  apply (pool_grows_cases _ _ (node, (time_Now (env w)).1, true, staticPriority)).
  destruct (decide (nodePtr node ∈ items (staticPool d))) as [Hi|Hni].
  - left. by destruct (Hin Hi).
  - right. by destruct (Hnin Hni).
Qed.

Lemma updateStaticPool_grows {Env} `{GoRuntime Env} (d : dialScheduler Env) node
    (w : World Env) :
  sched_ok d →
  ∃ q' w',
    updateStaticPool d node w = Ok (set_staticPool q' d, w') ∧
    (∀ e, e ∈ contents (heap (staticPool d)) → e ∈ contents (heap q')) ∧
    (length (heap q') ≤ S (length (heap (staticPool d))))%nat.
Proof.
  intros Hok. unfold updateStaticPool.
  assert (∃ q' w', (mret d : M Env _) w = Ok (set_staticPool q' d, w') ∧
            (∀ e, e ∈ contents (heap (staticPool d)) → e ∈ contents (heap q')) ∧
            (length (heap q') ≤ S (length (heap (staticPool d))))%nat) as Hsame.
  { exists (staticPool d), w. rewrite set_staticPool_id. split; [done|]. split; [done|lia]. }
  case_bool_decide; [|done].
  destruct (checkDial d node) eqn:Hcheck; [done|].
  by apply addToStaticPool_grows.
Qed.

(** X21: what the handlers of the loop may change. Whatever the [select]
    receives, the configuration and the history stay as they are, every
    entry of the pool stays in it and at most one is added. An identifier
    leaves the dials in flight only when a task with that destination is
    received on [doneCh], and the dials in flight never grow; only that
    event moves the statistics. The peers and their count change only for
    [addPeerCh] and [remPeerCh], the static set only for [addStaticCh] and
    [remStaticCh], and the pool only for [doneCh], [remPeerCh] and
    [addStaticCh]. *)
Theorem loopSelect_frame {Env} `{GoRuntime Env} (d d' : dialScheduler Env)
    (st st' : dialStats) (ev : loopEvent) (w w' : World Env) (stop : bool) :
  sched_ok d →
  loopSelect d st ev w = Ok ((d', st', stop), w') →
  config d' = config d ∧ history d' = history d ∧
  (∀ e, e ∈ contents (heap (staticPool d)) → e ∈ contents (heap (staticPool d'))) ∧
  (length (heap (staticPool d')) ≤ S (length (heap (staticPool d))))%nat ∧
  dialing d' ⊆ dialing d ∧
  (∀ id, id ∈ dialing d → id ∉ dialing d' →
     ∃ p t, ev = OnDone p ∧ tasks w !! p = Some t ∧ Node_ID (dest t) = id) ∧
  (st' ≠ st → ∃ p, ev = OnDone p) ∧
  (peers d' ≠ peers d ∨ dialPeers d' ≠ dialPeers d →
     ∃ c, ev = OnAddPeer c ∨ ev = OnRemPeer c) ∧
  (static d' ≠ static d → ∃ n, ev = OnAddStatic n ∨ ev = OnRemStatic n) ∧
  (staticPool d' ≠ staticPool d →
     (∃ p, ev = OnDone p) ∨ (∃ c, ev = OnRemPeer c) ∨ (∃ n, ev = OnAddStatic n)).
Proof.
  intros Hok Hrun.
  assert (∀ d0 : dialScheduler Env,
            (∀ e, e ∈ contents (heap (staticPool d0)) → e ∈ contents (heap (staticPool d0))) ∧
            (length (heap (staticPool d0)) ≤ S (length (heap (staticPool d0))))%nat)
    as Hpool0 by (intros d0; split; [done|lia]).
  destruct ev as [|task|c|c|node|node|]; simpl in Hrun.
  - injection Hrun as <- <- <- <-. destruct (Hpool0 d) as [? ?].
    split_and!; try done; by intros [?|?].
  - destruct (tasks w !! task) as [tk|] eqn:Htk; last first.
    { unfold mbind, M_bind in Hrun. unfold load in Hrun. by rewrite Htk in Hrun. }
    rewrite (bind_run _ _ _ _ _ (load_run task tk w Htk)) in Hrun.
    set (d1 := set_dialing _ d) in Hrun.
    assert (sched_ok d1) as Hok1 by (by apply (sched_ok_fields d)).
    destruct (updateStaticPool_grows d1 (dest tk) w Hok1) as (q' & w1 & Hup & Hsub & Hlen).
    rewrite (bind_run _ _ _ _ _ Hup) in Hrun.
    injection Hrun as <- <- <- <-. simpl.
    split; [done|]. split; [done|]. split; [done|]. split; [done|]. split.
    { intros x Hx. apply elem_of_difference in Hx. tauto. }
    split.
    { intros id Hin Hnin. exists task, tk. split; [done|]. split; [done|].
      destruct (decide (Node_ID (dest tk) = id)) as [|Hne]; [done|].
      destruct Hnin. apply elem_of_difference. split; [done|].
      intros Hs. apply elem_of_singleton in Hs. by destruct Hne. }
    split; [intros _; by exists task|]. split; [by intros [?|?]|].
    split; [done|]. intros _. left. by exists task.
  - injection Hrun as <- <- <- <-. destruct (Hpool0 d) as [? ?].
    split; [by destruct (_ || _)|]. split; [by destruct (_ || _)|].
    split; [by destruct (_ || _)|]. split; [by destruct (_ || _)|].
    split; [by destruct (_ || _)|]. split.
    { intros id Hin Hnin. destruct Hnin. by destruct (_ || _). }
    split; [done|]. split; [intros _; exists c; by left|].
    split; [intros Hne; destruct Hne; by destruct (_ || _)|].
    intros Hne. destruct Hne. by destruct (_ || _).
  - set (d1 := set_peers _ _) in Hrun.
    assert (staticPool d1 = staticPool d ∧ config d1 = config d ∧
            history d1 = history d ∧ dialing d1 = dialing d ∧ static d1 = static d)
      as (Hsp & Hc & Hh & Hdg & Hst).
    { subst d1. by destruct (_ || _). }
    assert (sched_ok d1) as Hok1 by (by apply (sched_ok_fields d)).
    destruct (updateStaticPool_grows d1 (conn_node c) w Hok1)
      as (q' & w1 & Hup & Hsub & Hlen).
    rewrite (bind_run _ _ _ _ _ Hup) in Hrun.
    injection Hrun as <- <- <- <-. rewrite Hsp in Hsub, Hlen.
    change (config (set_staticPool q' d1)) with (config d1).
    change (history (set_staticPool q' d1)) with (history d1).
    change (dialing (set_staticPool q' d1)) with (dialing d1).
    change (static (set_staticPool q' d1)) with (static d1).
    change (staticPool (set_staticPool q' d1)) with q'.
    rewrite Hc, Hh, Hdg, Hst.
    split; [done|]. split; [done|]. split; [done|]. split; [done|].
    split; [done|]. split; [by intros id Hin Hnin|].
    split; [done|]. split; [intros _; exists c; by right|].
    split; [intros Hne; by destruct Hne|].
    intros _. right. left. by exists c.
  - case_bool_decide as Hin.
    { injection Hrun as <- <- <- <-. destruct (Hpool0 d) as [? ?].
      split_and!; try done; by intros [?|?]. }
    set (d1 := set_static _ d) in Hrun.
    assert (sched_ok d1) as Hok1 by (by apply (sched_ok_fields d)).
    destruct (checkDial d1 node) as [e|] eqn:Hcheck.
    { injection Hrun as <- <- <- <-. destruct (Hpool0 d) as [? ?]. simpl.
      split_and!; try done; [by intros [?|?]|intros _; exists node; by left]. }
    destruct (addToStaticPool_grows d1 node w Hok1 Hcheck) as (q' & w1 & Hadd & Hsub & Hlen).
    rewrite (bind_run _ _ _ _ _ Hadd) in Hrun.
    injection Hrun as <- <- <- <-. simpl.
    split_and!; try done.
    + by intros [?|?].
    + intros _. exists node. by left.
    + intros _. right. right. by exists node.
  - destruct (Hpool0 d) as [? ?].
    case_bool_decide as Hin; injection Hrun as <- <- <- <-; simpl.
    + split_and!; try done; [by intros [?|?]|intros _; exists node; by right].
    + split_and!; try done; by intros [?|?].
  - injection Hrun as <- <- <- <-. destruct (Hpool0 d) as [? ?].
    split_and!; try done; by intros [?|?].
Qed.

Lemma loopSelect_frame_witness :
  ∃ d' st' w',
    loopSelect (simScheduler None) (mkDialStats 0 0) (OnAddStatic nA)
      (simWorld (mkSimEnv 5 7 [] [] []) ∅)
    = Ok ((d', st', false), w') ∧
    dialing d' ⊆ dialing (simScheduler None) ∧ st' = mkDialStats 0 0.
Proof.
  destruct (loopSelect (simScheduler None) (mkDialStats 0 0) (OnAddStatic nA)
              (simWorld (mkSimEnv 5 7 [] [] []) ∅))
    as [[[[d' st'] stop] w']| |] eqn:Hrun;
    [|by vm_compute in Hrun|by vm_compute in Hrun].
  destruct (loopSelect_frame (simScheduler None) d' (mkDialStats 0 0) st' (OnAddStatic nA)
              (simWorld (mkSimEnv 5 7 [] [] []) ∅) w' stop sched_ok_sim Hrun)
    as (_ & _ & _ & _ & Hsub & _ & Hst & _).
  assert (stop = false ∧ st' = mkDialStats 0 0) as [-> ->].
  { revert Hrun. vm_compute. intros Hrun. by injection Hrun as _ <- <- _. }
  by exists d', (mkDialStats 0 0), w'.
Defined.
